(** * claude-context: identity, registry, snapshot and HTTP front-end

    A shallow embedding of the TypeScript sources of the code-search
    service, and the properties its specification states about them.

    Conventions of the embedding.
    - A JavaScript string is a Rocq [string]; every [ascii] stands for one
      code unit in the range 0..255.
    - [null], [undefined] and a thrown exception of a library call are
      [None]; an optional field is an [option].
    - Node's [path], [fs], [child_process] and [crypto] modules are not part
      of the repository: they are the fields of a [World] record.
    - A [Map] that is only looked up is a [gmap]; where the iteration order
      is observable it is an association list in insertion order. *)

From Stdlib Require Import Ascii String ZArith Lia QArith Qminmax.
From stdpp Require Import base option list gmap strings sorting.


(** ** JavaScript strings *)

Module JsString.

(** [!s] on a string: only the empty string is falsy. *)
Definition truthy (s : string) : bool :=
  match s with
  | EmptyString => false
  | String _ _ => true
  end.

(** WhiteSpace and LineTerminator code units below 256: TAB, LF, VT, FF,
    CR, SP and NBSP.  This is the set stripped by [trim] and matched by
    the regular-expression escape [\s]. *)
Definition is_ws (c : ascii) : bool :=
  match c with
  | "009" | "010" | "011" | "012" | "013" | " " | "160" => true
  | _ => false
  end%char.

(** LineTerminator code units below 256 (LF and CR): what [.] refuses. *)
Definition is_line_terminator (c : ascii) : bool :=
  match c with
  | "010" | "013" => true
  | _ => false
  end%char.

Fixpoint trimStart (s : string) : string :=
  match s with
  | EmptyString => EmptyString
  | String c s' => if is_ws c then trimStart s' else s
  end.

Fixpoint trimEnd (s : string) : string :=
  match s with
  | EmptyString => EmptyString
  | String c s' =>
      match trimEnd s' with
      | EmptyString => if is_ws c then EmptyString else String c EmptyString
      | t => String c t
      end
  end.

(** [s.trim()] *)
Definition trim (s : string) : string := trimEnd (trimStart s).

(** [s.startsWith(p)] *)
Fixpoint startsWith (p s : string) : bool :=
  match p, s with
  | EmptyString, _ => true
  | String a p', String b s' => if Ascii.eqb a b then startsWith p' s' else false
  | String _ _, EmptyString => false
  end.

(** [s.substring(n)]: the string without its first [n] code units. *)
Fixpoint drop (n : nat) (s : string) : string :=
  match n, s with
  | O, _ => s
  | S n', String _ s' => drop n' s'
  | S _, EmptyString => EmptyString
  end.

(** [s.substring(0, n)] *)
Fixpoint take (n : nat) (s : string) : string :=
  match n, s with
  | O, _ => EmptyString
  | S n', String c s' => String c (take n' s')
  | S _, EmptyString => EmptyString
  end.

(** [s.endsWith(p)] *)
Definition endsWith (p s : string) : bool :=
  startsWith (String.rev p) (String.rev s).

(** Every code unit of [s] passes [p]. *)
Fixpoint every (p : ascii -> bool) (s : string) : bool :=
  match s with
  | EmptyString => true
  | String c s' => p c && every p s'
  end.

(** [s.split(sep)] for a one-character separator: never the empty list. *)
Fixpoint split (sep : ascii) (s : string) : list string :=
  match s with
  | EmptyString => [EmptyString]
  | String c s' =>
      if Ascii.eqb c sep then EmptyString :: split sep s'
      else match split sep s' with
           | [] => [String c EmptyString]
           | w :: ws => String c w :: ws
           end
  end.

(** ASCII letters are the only code units that [toLowerCase] sends to an
    ASCII letter, apart from two code points above 255. *)
Definition lower_ascii (c : ascii) : ascii :=
  let n := nat_of_ascii c in
  if (65 <=? n)%nat && (n <=? 90)%nat then ascii_of_nat (n + 32)
  else if (192 <=? n)%nat && (n <=? 222)%nat && negb (n =? 215)%nat
       then ascii_of_nat (n + 32)
  else c.

Fixpoint toLowerCase (s : string) : string :=
  match s with
  | EmptyString => EmptyString
  | String c s' => String (lower_ascii c) (toLowerCase s')
  end.

End JsString.

(** ** Regular expressions

    A backtracking matcher for the fragment of JavaScript regular expressions
    that the sources use: literals, character classes, sequence, ordered
    alternation, greedy [?], greedy [+] and [*] over a class, capturing
    groups and the end anchor [$] (no [m] flag).  A match is always
    attempted at one position, which is how [^] is rendered. *)

Module Regex.
Import JsString.

Inductive regex : Type :=
| Eps
| Chr (c : ascii)
| Cls (p : ascii -> bool)
| Seq (r1 r2 : regex)
| Alt (r1 r2 : regex)
| Opt (r : regex)
| Plus (p : ascii -> bool)
| Star (p : ascii -> bool)
| Grp (r : regex)
| Eos.

(** A literal string. *)
Fixpoint lit (s : string) : regex :=
  match s with
  | EmptyString => Eps
  | String c s' => Seq (Chr c) (lit s')
  end.

(** [.] without the [s] flag, [\s], and a negated one-character class. *)
Definition dot (c : ascii) : bool := negb (is_line_terminator c).
Definition space (c : ascii) : bool := is_ws c.
Definition notc (x : ascii) (c : ascii) : bool := negb (Ascii.eqb c x).

Section Exec.
Context {A : Type}.

(** Greedy [p+]: one character at least, the longest run first, then
    shorter runs when the continuation fails.  The continuation gets the
    text matched and the rest of the input. *)
Fixpoint plus (p : ascii -> bool) (s : string)
    (k : string -> string -> option A) : option A :=
  match s with
  | EmptyString => None
  | String c s' =>
      if p c then
        match plus p s' (fun t rest => k (String c t) rest) with
        | Some x => Some x
        | None => k (String c EmptyString) s'
        end
      else None
  end.

(** [exec r s caps k]: match [r] at the head of [s]; [caps] are the
    groups closed so far, in order. *)
Fixpoint exec (r : regex) (s : string) (caps : list string)
    (k : string -> string -> list string -> option A) : option A :=
  match r with
  | Eps => k EmptyString s caps
  | Chr c =>
      match s with
      | String c' s' =>
          if Ascii.eqb c' c then k (String c' EmptyString) s' caps else None
      | EmptyString => None
      end
  | Cls p =>
      match s with
      | String c' s' =>
          if p c' then k (String c' EmptyString) s' caps else None
      | EmptyString => None
      end
  | Seq r1 r2 =>
      exec r1 s caps (fun t1 s1 c1 =>
        exec r2 s1 c1 (fun t2 s2 c2 => k (t1 +:+ t2) s2 c2))
  | Alt r1 r2 =>
      match exec r1 s caps k with
      | Some x => Some x
      | None => exec r2 s caps k
      end
  | Opt r1 =>
      match exec r1 s caps k with
      | Some x => Some x
      | None => k EmptyString s caps
      end
  | Plus p => plus p s (fun t rest => k t rest caps)
  | Star p =>
      match plus p s (fun t rest => k t rest caps) with
      | Some x => Some x
      | None => k EmptyString s caps
      end
  | Grp r1 => exec r1 s caps (fun t s1 c1 => k t s1 (c1 ++ [t]))
  | Eos =>
      match s with
      | EmptyString => k EmptyString EmptyString caps
      | String _ _ => None
      end
  end.
End Exec.

(** A run of [p] cannot go on into [s]: [s] is empty or [p] refuses its
    head. *)
Definition stops (p : ascii -> bool) (s : string) : bool :=
  match s with
  | EmptyString => true
  | String c _ => negb (p c)
  end.

(** [s.match(/^r/)]: the captured groups [m[1], m[2], ...], or [None]. *)
Definition match_at_start (r : regex) (s : string) : option (list string) :=
  exec r s [] (fun _ _ caps => Some caps).

(** [m[i]] for [i >= 1]. *)
Definition group (m : list string) (i : nat) : string :=
  nth (pred i) m EmptyString.

(** [s.replace(/r/, '')] for a pattern without [g] flag: the first
    position where [r] matches loses the matched text. *)
Fixpoint remove_first (r : regex) (s : string) : string :=
  match exec r s [] (fun _ rest _ => Some rest) with
  | Some rest => rest
  | None =>
      match s with
      | EmptyString => EmptyString
      | String c s' => String c (remove_first r s')
      end
  end.

End Regex.


(** ** Node's library, as the sources use it *)

Module Node.

(** What [fs.statSync(p)] answers to [isDirectory()] and [isFile()]. *)
Inductive stat : Type :=
| StatDirectory
| StatFile
| StatOther.

(** The library calls of the identity code.  [None] is a thrown exception
    ([statSync] and [readFileSync] on a missing entry, [execSync] on a
    non-zero exit or a timeout). *)
Record World : Type := {
  (** [path.resolve(...segments)] *)
  path_resolve : list string -> string;
  (** [path.dirname(p)] *)
  path_dirname : string -> string;
  (** [path.basename(p)] *)
  path_basename : string -> string;
  (** [path.join(p, q)] *)
  path_join : string -> string -> string;
  (** [path.parse(p).root] *)
  path_root : string -> string;
  (** [fs.statSync(p)] *)
  statSync : string -> option stat;
  (** [fs.readFileSync(p, 'utf-8')] *)
  readFileSync : string -> option string;
  (** [fs.existsSync(p)] *)
  existsSync : string -> bool;
  (** [execSync(command, { cwd, encoding: 'utf-8', timeout: 10000 })] *)
  execSync : string -> string -> option string;
  (** [crypto.createHash('md5').update(s).digest('hex')] *)
  md5 : string -> string
}.

(** An MD5 digest in hexadecimal has 32 characters. *)
Definition md5_is_hex32 (w : World) : Prop :=
  forall s, String.length (md5 w s) = 32.

(** Along the upward walk from [start], [path.dirname] answers a strictly
    shorter path until [root] is reached.  This is what Node does on an
    absolute path. *)
Definition walk_shortens (w : World) (root start : string) : Prop :=
  forall n,
    let p := Nat.iter n (path_dirname w) start in
    p <> root -> String.length (path_dirname w p) < String.length p.

End Node.

(** ** git-utils.ts *)

Module GitUtils.
Import JsString Regex Node.

Record GitDetectionResult : Type := {
  isGitRepo : bool;
  repoRoot : option string;
  isWorktree : bool;
  mainGitDir : option string;
  gitPath : option string
}.

(** [/^gitdir:\s*(.+)$/] *)
Definition gitdirRe : regex :=
  Seq (lit "gitdir:") (Seq (Star space) (Seq (Grp (Plus dot)) Eos)).

(** [/^git@([^:]+):(.+)$/] *)
Definition sshRe : regex :=
  Seq (lit "git@")
    (Seq (Grp (Plus (notc ":")))
      (Seq (Chr ":") (Seq (Grp (Plus dot)) Eos))).

(** [(?:[^@]+@)?([^/]+)\/(.+)$], the part of [urlRe] after [://]. *)
Definition urlReTail : regex :=
  Seq (Opt (Seq (Plus (notc "@")) (Chr "@")))
    (Seq (Grp (Plus (notc "/")))
      (Seq (Chr "/") (Seq (Grp (Plus dot)) Eos))).

(** [/^(?:ssh|https?|git):\/\/(?:[^@]+@)?([^/]+)\/(.+)$/] *)
Definition urlRe : regex :=
  Seq (Alt (lit "ssh") (Alt (Seq (lit "http") (Opt (Chr "s"))) (lit "git")))
    (Seq (lit "://") urlReTail).

(** The schemes that [urlRe] accepts. *)
Definition schemes : list string := ["ssh"; "http"; "https"; "git"].

(** The components of a remote URL in the grammar
    [git@host:owner/name], [scheme://[user@]host/owner/name]: no white
    space, no [@]; a host has no [/] and no [:] either. *)
Definition isUrlChar (c : ascii) : bool :=
  negb (is_ws c) && negb (Ascii.eqb c "@").

Definition isHostChar (c : ascii) : bool :=
  isUrlChar c && negb (Ascii.eqb c "/") && negb (Ascii.eqb c ":").

Definition wellFormedHost (host : string) : bool :=
  truthy host && every isHostChar host.

Definition wellFormedSegment (segment : string) : bool :=
  truthy segment && every isUrlChar segment.

Definition wellFormedUser (user : string) : bool :=
  truthy user && every (notc "@") user.

(** [/\.git$/] *)
Definition dotGitSuffixRe : regex := Seq (lit ".git") Eos.

Definition normalizeGitUrl (url : string) : option string :=
  if negb (truthy url) then None
  else
    let normalized := trim url in
    match match_at_start sshRe normalized with
    | Some sshMatch =>
        let host := group sshMatch 1 in
        let path := group sshMatch 2 in
        let path := remove_first dotGitSuffixRe path in
        Some (host +:+ "/" +:+ path)
    | None =>
        match match_at_start urlRe normalized with
        | Some urlMatch =>
            let host := group urlMatch 1 in
            let path := group urlMatch 2 in
            let path := remove_first dotGitSuffixRe path in
            Some (host +:+ "/" +:+ path)
        | None =>
            if startsWith "file://" normalized then None else None
        end
    end.

Section WithWorld.
Context (w : World).

(** [execGitCommand]: the trimmed standard output, or [None]. *)
Definition execGitCommand (command cwd : string) : option string :=
  match execSync w command cwd with
  | Some result => Some (trim result)
  | None => None
  end.

(** The loop of [findGitPath].  Every round moves to [path.dirname], so
    [fuel] bounds the number of rounds; [findGitPath] starts it with more
    rounds than the path has characters. *)
Fixpoint findGitPath_loop (fuel : nat) (root currentPath : string)
    : option (string * bool) :=
  match fuel with
  | O => None
  | S fuel' =>
      if decide (currentPath = root) then None
      else
        let gitPath := path_join w currentPath ".git" in
        match statSync w gitPath with
        | Some StatDirectory => Some (gitPath, false)
        | Some StatFile => Some (gitPath, true)
        | Some StatOther | None =>
            findGitPath_loop fuel' root (path_dirname w currentPath)
        end
  end.

Definition findGitPath (startPath : string) : option (string * bool) :=
  let currentPath := path_resolve w [startPath] in
  let root := path_root w currentPath in
  findGitPath_loop (S (String.length currentPath)) root currentPath.

(** The [try] block of [detectGitRepo]: the worktree pointer read from the
    [.git] file, when the file reads and has the pointer format. *)
Definition readWorktreePointer (gitFile : string) : option string :=
  match readFileSync w gitFile with
  | Some content =>
      let gitFileContent := trim content in
      match match_at_start gitdirRe gitFileContent with
      | Some m => Some (group m 1)
      | None => None
      end
  | None => None
  end.

Definition detectGitRepo (targetPath : string) : GitDetectionResult :=
  let resolvedPath := path_resolve w [targetPath] in
  match findGitPath resolvedPath with
  | None =>
      {| isGitRepo := false; repoRoot := None; isWorktree := false;
         mainGitDir := None; gitPath := None |}
  | Some (gitPath_, isFile) =>
      let repoRoot_ := path_dirname w gitPath_ in
      if negb isFile then
        {| isGitRepo := true; repoRoot := Some repoRoot_; isWorktree := false;
           mainGitDir := None; gitPath := Some gitPath_ |}
      else
        match readWorktreePointer gitPath_ with
        | Some worktreeGitDir =>
            let mainGitDir_ := path_resolve w [worktreeGitDir; ".."; ".."] in
            {| isGitRepo := true; repoRoot := Some repoRoot_;
               isWorktree := true; mainGitDir := Some mainGitDir_;
               gitPath := Some gitPath_ |}
        | None =>
            {| isGitRepo := true; repoRoot := Some repoRoot_;
               isWorktree := false; mainGitDir := None;
               gitPath := Some gitPath_ |}
        end
  end.

Definition getRemoteOriginUrl (repoPath : string) : option string :=
  execGitCommand "git config --get remote.origin.url" repoPath.

Definition getInitialCommitSha (repoPath : string) : option string :=
  execGitCommand "git rev-list --max-parents=0 HEAD" repoPath.

(** The lines [worktree <path>] of [git worktree list --porcelain]. *)
Definition listWorktrees (repoPath : string) : list string :=
  match execGitCommand "git worktree list --porcelain" repoPath with
  | None => []
  | Some result =>
      if negb (truthy result) then []
      else
        omap (fun line =>
                if startsWith "worktree " line
                then Some (drop (String.length "worktree ") line)
                else None)
             (split "010" result)
  end.

End WithWorld.
End GitUtils.


(** ** repo-identity.ts *)

Module RepoIdentity.
Import JsString Node.

Inductive IdentitySource : Type :=
| RemoteUrl      (* 'remote-url' *)
| InitialCommit  (* 'initial-commit' *)
| PathHash.      (* 'path-hash' *)

Record RepoIdentity : Type := {
  canonicalId : string;
  remoteUrl : option string;
  mainWorktreePath : option string;
  detectedPaths : list string;
  displayName : string;
  identitySource : IdentitySource;
  isGitRepo : bool;
  isWorktree : bool;
  repoRoot : option string
}.

(** [detectedPaths.includes(p)] *)
Definition includes (p : string) (l : list string) : bool :=
  bool_decide (p ∈ l).

(** [if (!l.includes(p)) l.push(p)] *)
Definition push_new (l : list string) (p : string) : list string :=
  if includes p l then l else l ++ [p].

Section WithWorld.
Context (w : World).

Definition canonicalIdFromUrl (normalizedUrl : string) : string :=
  md5 w normalizedUrl.

Definition canonicalIdFromCommit (commitSha : string) : string :=
  md5 w ("commit:" +:+ commitSha).

Definition canonicalIdFromPath (resolvedPath : string) : string :=
  md5 w resolvedPath.

(** [parts[parts.length - 1] || remoteUrl] for a remote, the directory
    name otherwise. *)
Definition extractDisplayName (remoteUrl_ : option string) (repoPath : string)
    : string :=
  match remoteUrl_ with
  | Some url =>
      if truthy url then
        let parts := split "/" url in
        let lastPart := List.last parts EmptyString in
        if truthy lastPart then lastPart else url
      else path_basename w repoPath
  | None => path_basename w repoPath
  end.

(** [a ? f(a) : null] with [a] a string or [null]. *)
Definition and_then_truthy {B} (a : option string) (f : string -> option B)
    : option B :=
  match a with
  | Some s => if truthy s then f s else None
  | None => None
  end.

Definition resolveIdentity_with (includeWorktrees : bool) (targetPath : string)
    : RepoIdentity :=
  let resolvedPath := path_resolve w [targetPath] in
  let gitInfo := GitUtils.detectGitRepo w resolvedPath in
  match GitUtils.isGitRepo gitInfo, GitUtils.repoRoot gitInfo with
  | true, Some repoRoot_ =>
      if truthy repoRoot_ then
        let detectedPaths0 := [repoRoot_] in
        let mainWorktreePath_ :=
          match GitUtils.isWorktree gitInfo, GitUtils.mainGitDir gitInfo with
          | true, Some mainGitDir_ =>
              if truthy mainGitDir_ then Some (path_dirname w mainGitDir_)
              else None
          | _, _ => None
          end in
        let detectedPaths1 :=
          match mainWorktreePath_ with
          | Some m => push_new detectedPaths0 m
          | None => detectedPaths0
          end in
        let detectedPaths2 :=
          if includeWorktrees
          then foldl push_new detectedPaths1 (GitUtils.listWorktrees w repoRoot_)
          else detectedPaths1 in
        let rawRemoteUrl := GitUtils.getRemoteOriginUrl w repoRoot_ in
        let normalizedUrl :=
          and_then_truthy rawRemoteUrl GitUtils.normalizeGitUrl in
        match and_then_truthy normalizedUrl Some with
        | Some url =>
            {| canonicalId := canonicalIdFromUrl url;
               remoteUrl := Some url;
               mainWorktreePath := mainWorktreePath_;
               detectedPaths := detectedPaths2;
               displayName := extractDisplayName (Some url) repoRoot_;
               identitySource := RemoteUrl;
               isGitRepo := true;
               isWorktree := GitUtils.isWorktree gitInfo;
               repoRoot := Some repoRoot_ |}
        | None =>
            let initialCommit := GitUtils.getInitialCommitSha w repoRoot_ in
            match and_then_truthy initialCommit Some with
            | Some sha =>
                {| canonicalId := canonicalIdFromCommit sha;
                   remoteUrl := None;
                   mainWorktreePath := mainWorktreePath_;
                   detectedPaths := detectedPaths2;
                   displayName := extractDisplayName None repoRoot_;
                   identitySource := InitialCommit;
                   isGitRepo := true;
                   isWorktree := GitUtils.isWorktree gitInfo;
                   repoRoot := Some repoRoot_ |}
            | None =>
                {| canonicalId := canonicalIdFromPath repoRoot_;
                   remoteUrl := None;
                   mainWorktreePath := mainWorktreePath_;
                   detectedPaths := detectedPaths2;
                   displayName := extractDisplayName None repoRoot_;
                   identitySource := PathHash;
                   isGitRepo := true;
                   isWorktree := GitUtils.isWorktree gitInfo;
                   repoRoot := Some repoRoot_ |}
            end
        end
      else
        {| canonicalId := canonicalIdFromPath resolvedPath;
           remoteUrl := None; mainWorktreePath := None;
           detectedPaths := [resolvedPath];
           displayName := path_basename w resolvedPath;
           identitySource := PathHash;
           isGitRepo := false; isWorktree := false; repoRoot := None |}
  | _, _ =>
      {| canonicalId := canonicalIdFromPath resolvedPath;
         remoteUrl := None; mainWorktreePath := None;
         detectedPaths := [resolvedPath];
         displayName := path_basename w resolvedPath;
         identitySource := PathHash;
         isGitRepo := false; isWorktree := false; repoRoot := None |}
  end.

(** [resolveIdentity(targetPath)], with the default [includeWorktrees = true]. *)
Definition resolveIdentity (targetPath : string) : RepoIdentity :=
  resolveIdentity_with true targetPath.

Definition resolveIdentityFromUrl (remoteUrl_ : string)
    : option (string * string) :=
  match and_then_truthy (GitUtils.normalizeGitUrl remoteUrl_) Some with
  | Some normalizedUrl => Some (canonicalIdFromUrl normalizedUrl, normalizedUrl)
  | None => None
  end.

Definition isSameRepository (path1 path2 : string) : bool :=
  bool_decide (canonicalId (resolveIdentity path1)
               = canonicalId (resolveIdentity path2)).

End WithWorld.
End RepoIdentity.

(** ** repo-registry.ts *)

Module RepoRegistry.
Import JsString Node.

Record RepoRecord : Type := {
  canonicalId : string;
  displayName : string;
  remoteUrl : option string;
  identitySource : RepoIdentity.IdentitySource;
  knownPaths : list string;
  worktrees : list string;
  isIndexed : bool;
  collectionName : option string;
  lastIndexed : option string;
  indexedFiles : option Z;
  totalChunks : option Z
}.

Record ResolveResult : Type := {
  found : bool;
  record : option RepoRecord;
  identity : RepoIdentity.RepoIdentity;
  isNewPathForExistingRepo : bool;
  primaryPath : option string
}.

Record RegisterOptions : Type := {
  optCollectionName : option string;
  optIsIndexed : option bool;
  optIndexedFiles : option Z;
  optTotalChunks : option Z
}.

(** [register(path)] without options. *)
Definition noOptions : RegisterOptions :=
  {| optCollectionName := None; optIsIndexed := None;
     optIndexedFiles := None; optTotalChunks := None |}.

(** The two private maps of the class. *)
Record RepoRegistry : Type := {
  repositories : gmap string RepoRecord;
  pathToCanonicalId : gmap string string
}.

(** [new RepoRegistry()] *)
Definition empty : RepoRegistry :=
  {| repositories := ∅; pathToCanonicalId := ∅ |}.

(** Methods run on the registry they belong to: a state transformer that
    also answers a value. *)
Definition Method (A : Type) : Type := RepoRegistry -> A * RepoRegistry.

Definition ret {A} (a : A) : Method A := fun r => (a, r).
Definition bind {A B} (m : Method A) (f : A -> Method B) : Method B :=
  fun r => let '(a, r') := m r in f a r'.
Definition this : Method RepoRegistry := fun r => (r, r).
Definition put (r : RepoRegistry) : Method unit := fun _ => (tt, r).

(** [x ?? d] *)
Definition orElse {A} (x : option A) (d : A) : A :=
  match x with
  | Some a => a
  | None => d
  end.

(** [if (o !== undefined) field = o] *)
Definition overlay {A} (o : option A) (field : option A) : option A :=
  match o with
  | Some a => Some a
  | None => field
  end.

Section WithWorld.
Context (w : World).

(** [resolve(targetPath)].  [None] is the [TypeError] of reading
    [record.knownPaths] when the path index names an ID without record. *)
Definition resolve (targetPath : string) : Method (option ResolveResult) :=
  bind this (fun r =>
    let normalizedPath := path_resolve w [targetPath] in
    let identity_ := RepoIdentity.resolveIdentity w normalizedPath in
    let canonicalId_ := RepoIdentity.canonicalId identity_ in
    let directCanonicalId := pathToCanonicalId r !! normalizedPath in
    let viaCanonicalId :=
      match repositories r !! canonicalId_ with
      | Some existingRecord =>
          ret (Some {| found := true;
                       record := Some existingRecord;
                       identity := identity_;
                       isNewPathForExistingRepo := true;
                       primaryPath := head (knownPaths existingRecord) |})
      | None =>
          ret (Some {| found := false; record := None; identity := identity_;
                       isNewPathForExistingRepo := false;
                       primaryPath := None |})
      end in
    match directCanonicalId with
    | Some direct =>
        if truthy direct then
          match repositories r !! direct with
          | Some record_ =>
              ret (Some {| found := true;
                           record := Some record_;
                           identity := identity_;
                           isNewPathForExistingRepo := false;
                           primaryPath := head (knownPaths record_) |})
          | None => ret None
          end
        else viaCanonicalId
    | None => viaCanonicalId
    end).

(** The record of an existing repository after [register]. *)
Definition updateRecord (rec : RepoRecord) (normalizedPath : string)
    (isWorktree_ : bool) (options : RegisterOptions) (now : string)
    : RepoRecord :=
  {| canonicalId := canonicalId rec;
     displayName := displayName rec;
     remoteUrl := remoteUrl rec;
     identitySource := identitySource rec;
     knownPaths := RepoIdentity.push_new (knownPaths rec) normalizedPath;
     worktrees :=
       if isWorktree_
       then RepoIdentity.push_new (worktrees rec) normalizedPath
       else worktrees rec;
     isIndexed := orElse (optIsIndexed options) (isIndexed rec);
     collectionName := overlay (optCollectionName options) (collectionName rec);
     lastIndexed :=
       match optIsIndexed options with
       | Some true => Some now
       | _ => lastIndexed rec
       end;
     indexedFiles := overlay (optIndexedFiles options) (indexedFiles rec);
     totalChunks := overlay (optTotalChunks options) (totalChunks rec) |}.

(** [register(targetPath, options)]; [now] is [new Date().toISOString()]. *)
Definition register (targetPath : string) (options : RegisterOptions)
    (now : string) : Method RepoRecord :=
  bind this (fun r =>
    let normalizedPath := path_resolve w [targetPath] in
    let identity_ := RepoIdentity.resolveIdentity w normalizedPath in
    let canonicalId_ := RepoIdentity.canonicalId identity_ in
    match repositories r !! canonicalId_ with
    | Some rec =>
        let rec' :=
          updateRecord rec normalizedPath
            (RepoIdentity.isWorktree identity_) options now in
        bind (put {| repositories := <[canonicalId_ := rec']> (repositories r);
                     pathToCanonicalId :=
                       if RepoIdentity.includes normalizedPath (knownPaths rec)
                       then pathToCanonicalId r
                       else <[normalizedPath := canonicalId_]>
                              (pathToCanonicalId r) |})
             (fun _ => ret rec')
    | None =>
        let rec' :=
          {| canonicalId := canonicalId_;
             displayName := RepoIdentity.displayName identity_;
             remoteUrl := RepoIdentity.remoteUrl identity_;
             identitySource := RepoIdentity.identitySource identity_;
             knownPaths := [normalizedPath];
             worktrees :=
               if RepoIdentity.isWorktree identity_ then [normalizedPath] else [];
             isIndexed := orElse (optIsIndexed options) false;
             collectionName := optCollectionName options;
             lastIndexed :=
               match optIsIndexed options with
               | Some true => Some now
               | _ => None
               end;
             indexedFiles := optIndexedFiles options;
             totalChunks := optTotalChunks options |} in
        bind (put {| repositories := <[canonicalId_ := rec']> (repositories r);
                     pathToCanonicalId :=
                       <[normalizedPath := canonicalId_]> (pathToCanonicalId r) |})
             (fun _ => ret rec')
    end).

Definition isPathAlreadyIndexed (targetPath : string) : Method (option bool) :=
  bind (resolve targetPath) (fun result =>
    ret ((fun res => found res && orElse (isIndexed <$> record res) false)
           <$> result)).

Definition markIndexed (canonicalId_ collectionName_ : string)
    (indexedFiles_ totalChunks_ : Z) (now : string) : Method unit :=
  bind this (fun r =>
    match repositories r !! canonicalId_ with
    | Some rec =>
        put {| repositories :=
                 <[canonicalId_ :=
                     {| canonicalId := canonicalId rec;
                        displayName := displayName rec;
                        remoteUrl := remoteUrl rec;
                        identitySource := identitySource rec;
                        knownPaths := knownPaths rec;
                        worktrees := worktrees rec;
                        isIndexed := true;
                        collectionName := Some collectionName_;
                        lastIndexed := Some now;
                        indexedFiles := Some indexedFiles_;
                        totalChunks := Some totalChunks_ |}]> (repositories r);
               pathToCanonicalId := pathToCanonicalId r |}
    | None => ret tt
    end).

Definition markNotIndexed (canonicalId_ : string) : Method unit :=
  bind this (fun r =>
    match repositories r !! canonicalId_ with
    | Some rec =>
        put {| repositories :=
                 <[canonicalId_ :=
                     {| canonicalId := canonicalId rec;
                        displayName := displayName rec;
                        remoteUrl := remoteUrl rec;
                        identitySource := identitySource rec;
                        knownPaths := knownPaths rec;
                        worktrees := worktrees rec;
                        isIndexed := false;
                        collectionName := None;
                        lastIndexed := lastIndexed rec;
                        indexedFiles := None;
                        totalChunks := None |}]> (repositories r);
               pathToCanonicalId := pathToCanonicalId r |}
    | None => ret tt
    end).

(** [l.filter(p => p !== x)] *)
Definition without (x : string) (l : list string) : list string :=
  filter (fun p => p <> x) l.

Definition removePath (targetPath : string) : Method bool :=
  bind this (fun r =>
    let normalizedPath := path_resolve w [targetPath] in
    match pathToCanonicalId r !! normalizedPath with
    | Some canonicalId_ =>
        if truthy canonicalId_ then
          let paths' := delete normalizedPath (pathToCanonicalId r) in
          match repositories r !! canonicalId_ with
          | Some rec =>
              let rec' :=
                {| canonicalId := canonicalId rec;
                   displayName := displayName rec;
                   remoteUrl := remoteUrl rec;
                   identitySource := identitySource rec;
                   knownPaths := without normalizedPath (knownPaths rec);
                   worktrees := without normalizedPath (worktrees rec);
                   isIndexed := isIndexed rec;
                   collectionName := collectionName rec;
                   lastIndexed := lastIndexed rec;
                   indexedFiles := indexedFiles rec;
                   totalChunks := totalChunks rec |} in
              bind (put {| repositories :=
                             match knownPaths rec' with
                             | [] => delete canonicalId_ (repositories r)
                             | _ :: _ => <[canonicalId_ := rec']> (repositories r)
                             end;
                           pathToCanonicalId := paths' |})
                   (fun _ => ret true)
          | None =>
              bind (put {| repositories := repositories r;
                           pathToCanonicalId := paths' |})
                   (fun _ => ret true)
          end
        else ret false
    | None => ret false
    end).

Definition removeByCanonicalId (canonicalId_ : string) : Method bool :=
  bind this (fun r =>
    match repositories r !! canonicalId_ with
    | Some rec =>
        bind (put {| repositories := delete canonicalId_ (repositories r);
                     pathToCanonicalId :=
                       foldl (fun m knownPath => delete knownPath m)
                             (pathToCanonicalId r) (knownPaths rec) |})
             (fun _ => ret true)
    | None => ret false
    end).

(** [get size()] *)
Definition size (r : RepoRegistry) : nat := base.size (repositories r).

Definition clear : Method unit := put empty.


(** [listAll()]: the records, here in the order of their keys. *)
Definition listAll (r : RepoRegistry) : list RepoRecord :=
  (map_to_list (repositories r)).*2.

Definition listIndexed (r : RepoRegistry) : list RepoRecord :=
  filter (fun rec => isIndexed rec = true) (listAll r).



(** A run of [register] calls, each with its path, its options and its
    [new Date().toISOString()]. *)
Definition registerAll (calls : list (string * RegisterOptions * string))
    (r : RepoRegistry) : RepoRegistry :=
  foldl (fun r call => (register call.1.1 call.1.2 call.2 r).2) r calls.

(** The paths of a run of [register] calls, as [register] files them. *)
Definition registeredPaths (calls : list (string * RegisterOptions * string))
    : list string :=
  (fun call => path_resolve w [call.1.1]) <$> calls.

(** What [register] keeps true of a registry that starts empty, as long as
    the world does not change: a registered path is filed under the
    canonical ID it resolves to, and the record of that ID lists it. *)
Definition consistent (r : RepoRegistry) : Prop :=
  forall p c,
    pathToCanonicalId r !! p = Some c ->
    c = RepoIdentity.canonicalId (RepoIdentity.resolveIdentity w p)
    /\ exists rec, repositories r !! c = Some rec /\ p ∈ knownPaths rec.

(** The path index of a registry holds exactly [paths], and every known
    path of a record is filed under the ID of that record. *)
Definition tracks (paths : list string) (r : RepoRegistry) : Prop :=
  consistent r
  /\ (forall id rec p,
        repositories r !! id = Some rec -> p ∈ knownPaths rec ->
        pathToCanonicalId r !! p = Some id)
  /\ (forall p, is_Some (pathToCanonicalId r !! p) <-> p ∈ paths).

(** Every record is filed under its own canonical ID, has a known path,
    lists no path twice, and counts its worktrees among its known paths. *)
Definition wellKept (r : RepoRegistry) : Prop :=
  forall id rec,
    repositories r !! id = Some rec ->
    canonicalId rec = id
    /\ knownPaths rec <> []
    /\ NoDup (knownPaths rec)
    /\ NoDup (worktrees rec)
    /\ (forall p, p ∈ worktrees rec -> p ∈ knownPaths rec).

End WithWorld.
End RepoRegistry.

(** ** collection-migrator.ts *)

Module CollectionMigrator.
Import JsString Node.

Record CollectionMigrationMapping : Type := {
  oldName : string;
  newName : string;
  canonicalId : string;
  path : string;
  createdAt : string;
  migrated : bool;
  migratedAt : option string
}.

(** [CollectionMigrationState], without the timestamp that only
    [saveMigrationState] writes. *)
Record CollectionMigrationState : Type := {
  mappings : list CollectionMigrationMapping
}.

Record CollectionNameResolution : Type := {
  collectionName : string;
  isLegacy : bool;
  identity : RepoIdentity.RepoIdentity;
  legacyName : string;
  canonicalName : string
}.

(** The fields of the class: the migration state, which is also what
    [saveMigrationState] leaves in the file, and the known collections. *)
Record Migrator : Type := {
  state : CollectionMigrationState;
  existingCollections : gset string
}.

Definition prefix (isHybrid : bool) : string :=
  if isHybrid then "hybrid_code_chunks" else "code_chunks".

(** [arr.findIndex(pred)], [None] for [-1]. *)
Fixpoint findIndex {A} (pred : A -> bool) (l : list A) : option nat :=
  match l with
  | [] => None
  | x :: l' => if pred x then Some 0 else S <$> findIndex pred l'
  end.

(** [arr.find(pred)] *)
Fixpoint find {A} (pred : A -> bool) (l : list A) : option A :=
  match l with
  | [] => None
  | x :: l' => if pred x then Some x else find pred l'
  end.

Section WithWorld.
Context (w : World).

Definition generateLegacyCollectionName (codebasePath : string)
    (isHybrid : bool) : string :=
  let normalizedPath := path_resolve w [codebasePath] in
  let hash := md5 w normalizedPath in
  prefix isHybrid +:+ "_" +:+ take 8 hash.

Definition generateCanonicalCollectionName (canonicalId_ : string)
    (isHybrid : bool) : string :=
  let hash := md5 w canonicalId_ in
  prefix isHybrid +:+ "_" +:+ take 12 hash.

Definition generateCollectionNames (codebasePath : string) (isHybrid : bool)
    : string * string * RepoIdentity.RepoIdentity :=
  let identity_ := RepoIdentity.resolveIdentity w codebasePath in
  let legacyName_ := generateLegacyCollectionName codebasePath isHybrid in
  let canonicalName_ :=
    generateCanonicalCollectionName (RepoIdentity.canonicalId identity_)
      isHybrid in
  (legacyName_, canonicalName_, identity_).

(** [addMigrationMapping]: the mapping gets [createdAt = now] and
    [migrated = false]; an entry with the same old name or the same path is
    overwritten in place and keeps only its [migratedAt]. *)
Definition addMigrationMapping (st : CollectionMigrationState)
    (oldName_ newName_ canonicalId_ path_ : string) (now : string)
    : CollectionMigrationState :=
  let existingIndex :=
    findIndex (fun m => bool_decide (oldName m = oldName_)
                        || bool_decide (path m = path_)) (mappings st) in
  let newMapping (previous : option string) :=
    {| oldName := oldName_; newName := newName_;
       canonicalId := canonicalId_; path := path_;
       createdAt := now; migrated := false; migratedAt := previous |} in
  match existingIndex with
  | Some i =>
      {| mappings :=
           <[i := newMapping ((mappings st !! i) ≫= migratedAt)]> (mappings st) |}
  | None => {| mappings := mappings st ++ [newMapping None] |}
  end.

Definition findMappingByLegacyName (st : CollectionMigrationState)
    (legacyName_ : string) : option CollectionMigrationMapping :=
  find (fun m => bool_decide (oldName m = legacyName_)) (mappings st).

Definition getUnmigratedMappings (st : CollectionMigrationState)
    : list CollectionMigrationMapping :=
  filter (fun m => migrated m = false) (mappings st).

(** [markMigrationComplete]: the first mapping with the old name is
    flagged, with [migratedAt = now]. *)
Definition markMigrationComplete (st : CollectionMigrationState)
    (oldName_ : string) (now : string) : CollectionMigrationState :=
  match findIndex (fun m => bool_decide (oldName m = oldName_)) (mappings st) with
  | Some i =>
      {| mappings :=
           alter (fun m =>
                    {| oldName := oldName m; newName := newName m;
                       canonicalId := canonicalId m; path := path m;
                       createdAt := createdAt m; migrated := true;
                       migratedAt := Some now |})
                 i (mappings st) |}
  | None => st
  end.

Definition findMappingByPath (st : CollectionMigrationState)
    (codebasePath : string) : option CollectionMigrationMapping :=
  let normalizedPath := path_resolve w [codebasePath] in
  find (fun m => bool_decide (path m = normalizedPath)) (mappings st).

Definition findMappingByCanonicalId (st : CollectionMigrationState)
    (canonicalId_ : string) : option CollectionMigrationMapping :=
  find (fun m => bool_decide (canonicalId m = canonicalId_)) (mappings st).

Definition setExistingCollections (collections : list string) (m : Migrator)
    : Migrator :=
  {| state := state m; existingCollections := list_to_set collections |}.

Definition hasCollection (m : Migrator) (collectionName_ : string) : bool :=
  bool_decide (collectionName_ ∈ existingCollections m).

(** [resolveCollectionName(codebasePath, isHybrid)]: the answer and the
    migrator afterwards.  [now] is [new Date().toISOString()]. *)
Definition resolveCollectionName (codebasePath : string) (isHybrid : bool)
    (now : string) (m : Migrator) : CollectionNameResolution * Migrator :=
  let '(legacyName_, canonicalName_, identity_) :=
    generateCollectionNames codebasePath isHybrid in
  if hasCollection m legacyName_ then
    let state' :=
      addMigrationMapping (state m) legacyName_ canonicalName_
        (RepoIdentity.canonicalId identity_) (path_resolve w [codebasePath])
        now in
    ({| collectionName := legacyName_; isLegacy := true;
        identity := identity_; legacyName := legacyName_;
        canonicalName := canonicalName_ |},
     {| state := state'; existingCollections := existingCollections m |})
  else if hasCollection m canonicalName_ then
    ({| collectionName := canonicalName_; isLegacy := false;
        identity := identity_; legacyName := legacyName_;
        canonicalName := canonicalName_ |}, m)
  else
    ({| collectionName := canonicalName_; isLegacy := false;
        identity := identity_; legacyName := legacyName_;
        canonicalName := canonicalName_ |}, m).

Definition addCollection (collectionName_ : string) (m : Migrator) : Migrator :=
  {| state := state m;
     existingCollections := {[collectionName_]} ∪ existingCollections m |}.

Definition removeCollection (collectionName_ : string) (m : Migrator)
    : Migrator :=
  {| state := state m;
     existingCollections := existingCollections m ∖ {[collectionName_]} |}.

Definition getCollectionsToMigrate (m : Migrator)
    : list CollectionMigrationMapping :=
  getUnmigratedMappings (state m).

(** [recordMigration(oldName)] at the time [now]. *)
Definition recordMigration (oldName_ : string) (now : string) (m : Migrator)
    : Migrator :=
  {| state := markMigrationComplete (state m) oldName_ now;
     existingCollections := existingCollections m |}.

End WithWorld.
End CollectionMigrator.

(** ** middleware/auth.ts, middleware/rate-limiter.ts and
       transports/http-transport.ts *)

Module Http.
Import JsString.

(** [Bearer realm="MCP Server"] *)
Definition wwwAuthenticateValue : string :=
  "Bearer realm=" +:+ String "034" ("MCP Server" +:+ String "034" EmptyString).

(** A header that may be repeated: Node hands over one string, or an array
    for the few headers it does not join. *)
Inductive HeaderValue : Type :=
| One (value : string)
| Many (first : string) (rest : list string).

(** What the server reads of an [http.IncomingMessage]. *)
Record Request : Type := {
  method : string;
  (** [new URL(req.url ?? '/', ...).pathname]; [None] when [new URL]
      throws, as it does for the request target [//]. *)
  pathname : option string;
  (** [req.headers.authorization] *)
  authorization : option string;
  (** [req.headers['x-forwarded-for']] *)
  forwardedFor : option HeaderValue;
  (** [req.socket.remoteAddress] *)
  remoteAddress : option string
}.

Inductive Body : Type :=
| NoBody
| UnauthorizedBody (message : string)
| TooManyRequestsBody (retryAfter : Z)
| HealthBody
| NotFoundBody.

(** A header value: a string, or [String(n)] for a number [n], kept as
    the number ([None] is [NaN]). *)
Inductive HeaderText : Type :=
| Text (s : string)
| NumberText (n : option Z).

Record Response : Type := {
  statusCode : Z;
  headers : gmap string HeaderText;
  body : Body
}.

(** *** AuthMiddleware *)

Record AuthMiddleware : Type := {
  token : string;
  authExcludePaths : gset string
}.

Record AuthResult : Type := {
  authenticated : bool;
  error : option string;
  authStatusCode : option Z
}.

(** [new AuthMiddleware({ token, excludePaths })] *)
Definition newAuthMiddleware (token_ : string) (excludePaths : option (list string))
    : AuthMiddleware :=
  {| token := token_;
     authExcludePaths :=
       list_to_set (match excludePaths with
                    | Some l => l
                    | None => ["/health"]
                    end) |}.

Definition requiresAuth (a : AuthMiddleware) (pathname_ : string) : bool :=
  negb (bool_decide (pathname_ ∈ authExcludePaths a)).

Definition authenticate (a : AuthMiddleware) (req : Request) : AuthResult :=
  match authorization req with
  | None =>
      {| authenticated := false;
         error := Some "Authorization header required";
         authStatusCode := Some 401%Z |}
  | Some authHeader =>
      if negb (truthy authHeader) then
        {| authenticated := false;
           error := Some "Authorization header required";
           authStatusCode := Some 401%Z |}
      else
        match split " " authHeader with
        | [scheme; providedToken] =>
            if negb (bool_decide (toLowerCase scheme = "bearer")) then
              {| authenticated := false;
                 error := Some "Invalid authorization format. Use: Bearer <token>";
                 authStatusCode := Some 401%Z |}
            else if negb (bool_decide (providedToken = token a)) then
              {| authenticated := false;
                 error := Some "Invalid token";
                 authStatusCode := Some 401%Z |}
            else
              {| authenticated := true; error := None; authStatusCode := None |}
        | _ =>
            {| authenticated := false;
               error := Some "Invalid authorization format. Use: Bearer <token>";
               authStatusCode := Some 401%Z |}
        end
  end.

(** [res.writeHead(status, extra)]: the headers set so far, overlaid. *)
Definition writeHead (status : Z) (extra : list (string * HeaderText))
    (soFar : gmap string HeaderText) (b : Body) : Response :=
  {| statusCode := status;
     headers := foldl (fun m kv => <[kv.1 := kv.2]> m) soFar extra;
     body := b |}.

Definition handleUnauthorized (soFar : gmap string HeaderText) (result : AuthResult)
    : Response :=
  writeHead (match authStatusCode result with
             | Some c => c
             | None => 401%Z
             end)
    [("Content-Type", Text "application/json");
     ("WWW-Authenticate", Text wwwAuthenticateValue)]
    soFar
    (UnauthorizedBody (match error result with
                       | Some e => e
                       | None => EmptyString
                       end)).

(** [AuthMiddleware.getClientIp(req)] *)
Definition getClientIp (req : Request) : string :=
  let peer :=
    match remoteAddress req with
    | Some a => a
    | None => "unknown"
    end in
  match forwardedFor req with
  | Some (One forwarded) =>
      if truthy forwarded
      then trim (List.hd EmptyString (split "," forwarded))
      else peer
  | Some (Many first _) => first
  | None => peer
  end.

(** *** validateAuthToken *)

Inductive TransportMode : Type :=
| Stdio
| HttpOnly
| Both.

(** A call that may end the process. *)
Inductive OrExit (A : Type) : Type :=
| Returns (a : A)
| Exits (code : Z).
Arguments Returns {A} a.
Arguments Exits {A} code.

(** [validateAuthToken(transportMode)]; [envToken] is
    [process.env.MCP_AUTH_TOKEN]. *)
Definition validateAuthToken (transportMode : TransportMode)
    (envToken : option string) : OrExit (option string) :=
  match transportMode with
  | Stdio => Returns None
  | HttpOnly | Both =>
      match envToken with
      | None => Exits 2
      | Some tok =>
          if negb (truthy tok) || bool_decide (trim tok = EmptyString)
          then Exits 2
          else Returns (Some tok)
      end
  end.

(** *** RateLimiter *)

Record RateLimitEntry : Type := {
  count : Z;
  resetTime : Z
}.

Record RateLimitResult : Type := {
  allowed : bool;
  (** [None] is [NaN] *)
  remaining : option Z;
  retryAfter : option Z
}.

(** [requestsPerMinute] is [None] when [parseInt] answered [NaN]. *)
Record RateLimiter : Type := {
  requestsPerMinute : option Z;
  windowMs : Z;
  limits : gmap string RateLimitEntry;
  limitExcludePaths : gset string
}.

Definition digit_value (c : ascii) : option Z :=
  let n := nat_of_ascii c in
  if (48 <=? n)%nat && (n <=? 57)%nat then Some (Z.of_nat (n - 48)) else None.

(** The digits at the head of [s], read in base 10 after [acc]. *)
Fixpoint digits (acc : option Z) (s : string) : option Z :=
  match s with
  | EmptyString => acc
  | String c s' =>
      match digit_value c with
      | Some d =>
          digits (Some (match acc with
                        | Some a => (10 * a + d)%Z
                        | None => d
                        end)) s'
      | None => acc
      end
  end.

(** [parseInt(s, 10)], [None] for [NaN]. *)
Definition parseInt10 (s : string) : option Z :=
  match trimStart s with
  | String "-" s' => Z.opp <$> digits None s'
  | String "+" s' => digits None s'
  | s' => digits None s'
  end.

(** [new RateLimiter({ requestsPerMinute, excludePaths })]; [envLimit] is
    [process.env.MCP_RATE_LIMIT]. *)
Definition newRateLimiter (requestsPerMinute_ : option Z)
    (excludePaths : option (list string)) (envLimit : option string)
    : RateLimiter :=
  {| requestsPerMinute :=
       match requestsPerMinute_ with
       | Some n => Some n
       | None =>
           parseInt10 (match envLimit with
                       | Some s => s
                       | None => "60"
                       end)
       end;
     windowMs := 60 * 1000;
     limits := ∅;
     limitExcludePaths :=
       list_to_set (match excludePaths with
                    | Some l => l
                    | None => ["/health"]
                    end) |}.

Definition shouldLimit (l : RateLimiter) (pathname_ : string) : bool :=
  negb (bool_decide (pathname_ ∈ limitExcludePaths l)).

(** [a > b] with [b] possibly [NaN]. *)
Definition gt_number (a : Z) (b : option Z) : bool :=
  match b with
  | Some n => (n <? a)%Z
  | None => false
  end.

(** [Math.ceil(ms / 1000)] *)
Definition ceil_seconds (ms : Z) : Z := (- ((- ms) / 1000))%Z.

(** [check(clientIp)] at [Date.now() = now]. *)
Definition check (clientIp : string) (now : Z) (l : RateLimiter)
    : RateLimitResult * RateLimiter :=
  let fresh :=
    ({| allowed := true;
        remaining := (fun n => n - 1)%Z <$> requestsPerMinute l;
        retryAfter := None |},
     {| requestsPerMinute := requestsPerMinute l;
        windowMs := windowMs l;
        limits := <[clientIp := {| count := 1; resetTime := now + windowMs l |}]>
                    (limits l);
        limitExcludePaths := limitExcludePaths l |}) in
  match limits l !! clientIp with
  | None => fresh
  | Some entry =>
      if (resetTime entry <=? now)%Z then fresh
      else
        let entry' := {| count := count entry + 1; resetTime := resetTime entry |} in
        let l' :=
          {| requestsPerMinute := requestsPerMinute l;
             windowMs := windowMs l;
             limits := <[clientIp := entry']> (limits l);
             limitExcludePaths := limitExcludePaths l |} in
        if gt_number (count entry') (requestsPerMinute l) then
          ({| allowed := false;
              remaining := Some 0%Z;
              retryAfter := Some (ceil_seconds (resetTime entry - now)) |}, l')
        else
          ({| allowed := true;
              remaining := (fun n => n - count entry')%Z <$> requestsPerMinute l;
              retryAfter := None |}, l')
  end.

(** [cleanup()] at [Date.now() = now], as the timer of the constructor
    runs it: the entries whose window is over are deleted. *)
Definition cleanup (now : Z) (l : RateLimiter) : RateLimiter :=
  {| requestsPerMinute := requestsPerMinute l;
     windowMs := windowMs l;
     limits :=
       filter (fun e : string * RateLimitEntry => (now < resetTime e.2)%Z)
              (limits l);
     limitExcludePaths := limitExcludePaths l |}.

(** [x ?? d] on an optional number *)
Definition orDefault (x : option Z) (d : Z) : Z :=
  match x with
  | Some n => n
  | None => d
  end.

Definition handleLimited (l : RateLimiter) (soFar : gmap string HeaderText)
    (result : RateLimitResult) : Response :=
  writeHead 429
    [("Content-Type", Text "application/json");
     ("Retry-After", NumberText (Some (orDefault (retryAfter result) 60)));
     ("X-RateLimit-Limit", NumberText (requestsPerMinute l));
     ("X-RateLimit-Remaining", Text "0");
     ("X-RateLimit-Reset", NumberText (Some (orDefault (retryAfter result) 60)))]
    soFar
    (TooManyRequestsBody (orDefault (retryAfter result) 60)).

(** [addHeaders(res, result)]: three [res.setHeader] calls, the last one
    only for a truthy [retryAfter]. *)
Definition addHeaders (l : RateLimiter) (result : RateLimitResult)
    (soFar : gmap string HeaderText) : gmap string HeaderText :=
  let h1 := <["X-RateLimit-Limit" := NumberText (requestsPerMinute l)]> soFar in
  let h2 := <["X-RateLimit-Remaining" := NumberText (remaining result)]> h1 in
  match retryAfter result with
  | Some n =>
      if bool_decide (n = 0%Z) then h2
      else <["X-RateLimit-Reset" := NumberText (Some n)]> h2
  | None => h2
  end.

(** *** HttpTransport *)

(** The fields the request handler reads; the session table belongs to the
    protocol library behind [handleMcpRequest]. *)
Record HttpTransport : Type := {
  corsOrigin : string;
  authMiddleware : option AuthMiddleware;
  rateLimiter : RateLimiter
}.

(** [new HttpTransport(options)] *)
Definition newHttpTransport (corsOrigin_ : option string)
    (authToken : option string) (rateLimit : option Z)
    (envLimit : option string) : HttpTransport :=
  {| corsOrigin := match corsOrigin_ with
                   | Some o => o
                   | None => "*"
                   end;
     authMiddleware :=
       match authToken with
       | Some tok =>
           if truthy tok then Some (newAuthMiddleware tok (Some ["/health"]))
           else None
       | None => None
       end;
     rateLimiter := newRateLimiter rateLimit (Some ["/health"]) envLimit |}.

(** How the handler of [http.createServer] ends: with a response of its
    own, by passing the request to [handleMcpRequest], or with the
    exception of [new URL], which is raised before the [try] block: the
    handler then writes no response. *)
Inductive Outcome : Type :=
| Responds (r : Response)
| HandlesMcp (soFar : gmap string HeaderText) (clientIp : string)
| Throws.

Definition withLimiter (t : HttpTransport) (l : RateLimiter) : HttpTransport :=
  {| corsOrigin := corsOrigin t;
     authMiddleware := authMiddleware t;
     rateLimiter := l |}.

(** The routing at the end of the handler. *)
Definition route (pathname_ : string) (soFar : gmap string HeaderText)
    (clientIp : string) : Outcome :=
  if bool_decide (pathname_ = "/health") then
    Responds (writeHead 200 [("Content-Type", Text "application/json")]
                soFar HealthBody)
  else if bool_decide (pathname_ = "/mcp") then
    HandlesMcp soFar clientIp
  else
    Responds (writeHead 404 [("Content-Type", Text "application/json")]
                soFar NotFoundBody).

(** The request handler, at [Date.now() = now]. *)
Definition handle (now : Z) (req : Request) (t : HttpTransport)
    : Outcome * HttpTransport :=
  let cors : gmap string HeaderText :=
    <["Access-Control-Allow-Headers" :=
        Text "Content-Type, Authorization, Mcp-Session-Id"]>
      (<["Access-Control-Allow-Methods" := Text "GET, POST, DELETE, OPTIONS"]>
        (<["Access-Control-Allow-Origin" := Text (corsOrigin t)]> ∅)) in
  if bool_decide (method req = "OPTIONS") then
    (Responds {| statusCode := 204; headers := cors; body := NoBody |}, t)
  else
    match pathname req with
    | None => (Throws, t)
    | Some pathname_ =>
        let clientIp := getClientIp req in
        let authFailure :=
          match authMiddleware t with
          | Some a =>
              if requiresAuth a pathname_ then
                let authResult := authenticate a req in
                if negb (authenticated authResult) then Some (a, authResult)
                else None
              else None
          | None => None
          end in
        match authFailure with
        | Some (a, authResult) =>
            (Responds (handleUnauthorized cors authResult), t)
        | None =>
            if shouldLimit (rateLimiter t) pathname_ then
              let '(rateLimitResult, l') := check clientIp now (rateLimiter t) in
              let soFar := addHeaders l' rateLimitResult cors in
              if negb (allowed rateLimitResult) then
                (Responds (handleLimited l' soFar rateLimitResult),
                 withLimiter t l')
              else (route pathname_ soFar clientIp, withLimiter t l')
            else (route pathname_ cors clientIp, t)
        end
    end.

(** [ContextMcpServer.start]: the HTTP transport that is started, if any.
    [envToken] and [envLimit] are the environment variables
    [MCP_AUTH_TOKEN] and [MCP_RATE_LIMIT]. *)
Definition startHttp (transport : TransportMode)
    (envToken envLimit : option string) : OrExit (option HttpTransport) :=
  match transport with
  | Stdio => Returns None
  | HttpOnly | Both =>
      match validateAuthToken transport envToken with
      | Exits code => Exits code
      | Returns authToken =>
          Returns (Some (newHttpTransport None authToken None envLimit))
      end
  end.

(** A request carries a valid bearer token: its [Authorization] header is
    a scheme that reads [bearer] in lower case, one space, and the token. *)
Definition validBearer (token_ : string) (req : Request) : Prop :=
  exists scheme,
    authorization req = Some (scheme +:+ " " +:+ token_)
    /\ toLowerCase scheme = "bearer".

(** The outcome is a [401] with the [WWW-Authenticate] challenge. *)
Definition unauthorized (o : Outcome) : Prop :=
  exists r,
    o = Responds r
    /\ statusCode r = 401%Z
    /\ headers r !! "WWW-Authenticate" = Some (Text wwwAuthenticateValue).

(** The request for [pathname_] gets past the authentication step of the
    handler. *)
Definition passesAuth (t : HttpTransport) (pathname_ : string) (req : Request)
    : Prop :=
  match authMiddleware t with
  | None => True
  | Some a =>
      requiresAuth a pathname_ = false
      \/ authenticated (authenticate a req) = true
  end.

(** A preflight request without token. *)
Definition preflight : Request :=
  {| method := "OPTIONS"; pathname := Some "/mcp"; authorization := None;
     forwardedFor := None; remoteAddress := Some "10.0.0.1" |}.

(** The secret is unset: [!token || token.trim() === ''] *)
Definition unset (envToken : option string) : Prop :=
  match envToken with
  | None => True
  | Some tok => trim tok = EmptyString
  end.

(** [check] for one client at the given times, in order. *)
Fixpoint checks (clientIp : string) (times : list Z) (l : RateLimiter)
    : list RateLimitResult * RateLimiter :=
  match times with
  | [] => ([], l)
  | now :: later =>
      let '(result, l1) := check clientIp now l in
      let '(results, l2) := checks clientIp later l1 in
      (result :: results, l2)
  end.

(** The client has no window open at [now]. *)
Definition noWindow (clientIp : string) (now : Z) (l : RateLimiter) : Prop :=
  match limits l !! clientIp with
  | None => True
  | Some entry => (resetTime entry <= now)%Z
  end.

(** Requests served one after the other. *)
Fixpoint serve (reqs : list (Z * Request)) (t : HttpTransport)
    : list Outcome * HttpTransport :=
  match reqs with
  | [] => ([], t)
  | (now, req) :: rest =>
      let '(o, t1) := handle now req t in
      let '(os, t2) := serve rest t1 in
      (o :: os, t2)
  end.



(** A request that reaches the limiter on behalf of [clientIp]: it is no
    preflight, its path is not the health path, it gets past
    authentication, and [clientIp] is its source address. *)
Definition counted (t : HttpTransport) (clientIp : string) (req : Request)
    : Prop :=
  method req <> "OPTIONS"
  /\ getClientIp req = clientIp
  /\ exists pathname_,
       pathname req = Some pathname_ /\ pathname_ <> "/health"
       /\ passesAuth t pathname_ req.

End Http.

(** ** snapshot.ts *)

Module Snapshot.
Import JsString Node.

Inductive IndexStatus : Type :=
| Completed       (* 'completed' *)
| LimitReached.   (* 'limit_reached' *)

(** [CodebaseInfo], a union tagged by [status]. *)
Inductive CodebaseInfo : Type :=
| InfoIndexed (indexedFiles totalChunks : Z) (indexStatus : IndexStatus)
    (lastUpdated : string)
| InfoIndexing (indexingPercentage : Z) (lastUpdated : string)
| InfoIndexFailed (errorMessage : string) (lastAttemptedPercentage : option Z)
    (lastUpdated : string).

Inductive Status : Type :=
| StatusIndexed
| StatusIndexing
| StatusIndexFailed.

#[global] Instance Status_eq_dec : EqDecision Status.
Proof. solve_decision. Defined.

Definition statusOf (info : CodebaseInfo) : Status :=
  match info with
  | InfoIndexed _ _ _ _ => StatusIndexed
  | InfoIndexing _ _ => StatusIndexing
  | InfoIndexFailed _ _ _ => StatusIndexFailed
  end.

Definition lastUpdatedOf (info : CodebaseInfo) : string :=
  match info with
  | InfoIndexed _ _ _ t => t
  | InfoIndexing _ t => t
  | InfoIndexFailed _ _ t => t
  end.

Record BranchSnapshot : Type := {
  status : Status;
  indexedFiles : Z;
  totalChunks : Z;
  lastIndexed : string;
  indexingPercentage : option Z;
  errorMessage : option string
}.

Record RepoSnapshot : Type := {
  displayName : string;
  remoteUrl : option string;
  identitySource : RepoIdentity.IdentitySource;
  knownPaths : list string;
  worktrees : list string;
  branches : gmap string BranchSnapshot;
  defaultBranch : option string;
  repoLastIndexed : string
}.

(** [indexingCodebases] of a v1 file: an array of paths or an object from
    path to percentage. *)
Inductive V1Indexing : Type :=
| IndexingArray (paths : list string)
| IndexingRecord (progress : list (string * Z)).

Record CodebaseSnapshotV1 : Type := {
  v1IndexedCodebases : list string;
  v1IndexingCodebases : V1Indexing
}.

(** The entries of a JSON object are listed in the order of
    [Object.entries]; keys are distinct. *)
Record CodebaseSnapshotV2 : Type := {
  codebases : list (string * CodebaseInfo)
}.

(** An entry of [repositories] in a file is [None] when it is not an
    object (JSON [null], say): reading [knownPaths] off it throws. *)
Record CodebaseSnapshotV3 : Type := {
  v3Repositories : list (string * option RepoSnapshot);
  v3LastUpdated : string
}.

(** The snapshot file, by what [JSON.parse] makes of its text. *)
Inductive FileContent : Type :=
| NotJson
| JsonV1 (s : CodebaseSnapshotV1)
| JsonV2 (s : CodebaseSnapshotV2)
| JsonV3 (s : CodebaseSnapshotV3).

(** The private fields of [SnapshotManager].  [repositories] keeps the
    insertion order of the [Map], which [saveCodebaseSnapshot] writes out. *)
Record SnapshotManager : Type := {
  indexedCodebases : list string;
  indexingCodebases : gmap string Z;
  codebaseFileCount : gmap string Z;
  codebaseInfoMap : gmap string CodebaseInfo;
  repositories : list (string * RepoSnapshot);
  pathToCanonicalId : gmap string string
}.

(** [new SnapshotManager(path)] *)
Definition newManager : SnapshotManager :=
  {| indexedCodebases := []; indexingCodebases := ∅; codebaseFileCount := ∅;
     codebaseInfoMap := ∅; repositories := []; pathToCanonicalId := ∅ |}.

(** What the manager works on outside itself: the snapshot file, whether
    writing it fails, how often it was written, and the lines of
    [console.error]. *)
Inductive ErrorLine : Type :=
| ErrorLoadingSnapshot
| ErrorSavingSnapshot.

Record Host : Type := {
  snapshotFile : option FileContent;
  writeFails : bool;
  writes : nat;
  consoleError : list ErrorLine
}.

(** [Map.prototype.get] and [set] on a map kept in insertion order. *)
Fixpoint alist_get {V} (k : string) (l : list (string * V)) : option V :=
  match l with
  | [] => None
  | (k', v) :: l' => if decide (k = k') then Some v else alist_get k l'
  end.

Fixpoint alist_set {V} (k : string) (v : V) (l : list (string * V))
    : list (string * V) :=
  match l with
  | [] => [(k, v)]
  | (k', v') :: l' =>
      if decide (k = k') then (k, v) :: l' else (k', v') :: alist_set k v l'
  end.

(** A value of [repoGroups]. *)
Record Group : Type := {
  groupIdentity : RepoIdentity.RepoIdentity;
  groupPaths : list string;
  groupInfo : CodebaseInfo
}.

(** [n || 0] and [s || 'Unknown error'] *)
Definition orZero (n : option Z) : Z :=
  match n with
  | Some z => z
  | None => 0%Z
  end.

Definition orUnknownError (s : option string) : string :=
  match s with
  | Some e => if truthy e then e else "Unknown error"
  | None => "Unknown error"
  end.

Section WithWorld.
Context (w : World).

(** [resolveIdentity] does not throw, so the [catch] of
    [safeResolveIdentity] is never taken. *)
Definition safeResolveIdentity (codebasePath : string)
    : option RepoIdentity.RepoIdentity :=
  Some (RepoIdentity.resolveIdentity w codebasePath).

Definition pathBasedCanonicalId (codebasePath : string) : string :=
  md5 w (path_resolve w [codebasePath]).

Definition createFallbackIdentity (codebasePath : string)
    : RepoIdentity.RepoIdentity :=
  {| RepoIdentity.canonicalId := pathBasedCanonicalId codebasePath;
     RepoIdentity.remoteUrl := None;
     RepoIdentity.mainWorktreePath := None;
     RepoIdentity.detectedPaths := [codebasePath];
     RepoIdentity.displayName := path_basename w codebasePath;
     RepoIdentity.identitySource := RepoIdentity.PathHash;
     RepoIdentity.isGitRepo := false;
     RepoIdentity.isWorktree := false;
     RepoIdentity.repoRoot := None |}.

(** [identity?.canonicalId || this.pathBasedCanonicalId(codebasePath)] *)
Definition canonicalIdFor (codebasePath : string) : string :=
  match safeResolveIdentity codebasePath with
  | Some identity =>
      if truthy (RepoIdentity.canonicalId identity)
      then RepoIdentity.canonicalId identity
      else pathBasedCanonicalId codebasePath
  | None => pathBasedCanonicalId codebasePath
  end.

(** [identity || this.createFallbackIdentity(codebasePath)] *)
Definition identityFor (codebasePath : string) : RepoIdentity.RepoIdentity :=
  match safeResolveIdentity codebasePath with
  | Some identity => identity
  | None => createFallbackIdentity codebasePath
  end.

(** One round of the loop of [migrateV1ToV3]; [now] is the timestamp taken
    before the loop. *)
Definition groupV1 (now : string) (repoGroups : list (string * Group))
    (codebasePath : string) : list (string * Group) :=
  if negb (existsSync w codebasePath) then repoGroups
  else
    let canonicalId := canonicalIdFor codebasePath in
    let info := InfoIndexed 0 0 Completed now in
    match alist_get canonicalId repoGroups with
    | Some group =>
        alist_set canonicalId
          {| groupIdentity := groupIdentity group;
             groupPaths := RepoIdentity.push_new (groupPaths group) codebasePath;
             groupInfo := groupInfo group |}
          repoGroups
    | None =>
        alist_set canonicalId
          {| groupIdentity := identityFor codebasePath;
             groupPaths := [codebasePath];
             groupInfo := info |}
          repoGroups
    end.

(** One round of the loop of [migrateV2ToV3]. *)
Definition groupV2 (repoGroups : list (string * Group))
    (entry : string * CodebaseInfo) : list (string * Group) :=
  let '(codebasePath, info) := entry in
  if negb (existsSync w codebasePath) then repoGroups
  else
    let canonicalId := canonicalIdFor codebasePath in
    match alist_get canonicalId repoGroups with
    | Some group =>
        alist_set canonicalId
          {| groupIdentity := groupIdentity group;
             groupPaths := RepoIdentity.push_new (groupPaths group) codebasePath;
             groupInfo :=
               match statusOf info, statusOf (groupInfo group) with
               | StatusIndexed, StatusIndexed => groupInfo group
               | StatusIndexed, _ => info
               | _, _ => groupInfo group
               end |}
          repoGroups
    | None =>
        alist_set canonicalId
          {| groupIdentity := identityFor codebasePath;
             groupPaths := [codebasePath];
             groupInfo := info |}
          repoGroups
    end.

(** The [CodebaseInfo] that [populateLegacyStateFromRepo] makes of the
    default branch. *)
Definition infoOfBranch (b : BranchSnapshot) : CodebaseInfo :=
  match status b with
  | StatusIndexed =>
      InfoIndexed (indexedFiles b) (totalChunks b) Completed (lastIndexed b)
  | StatusIndexing =>
      InfoIndexing (orZero (indexingPercentage b)) (lastIndexed b)
  | StatusIndexFailed =>
      InfoIndexFailed (orUnknownError (errorMessage b)) None (lastIndexed b)
  end.

(** [repo.branches[repo.defaultBranch || 'default']] *)
Definition defaultBranchOf (repo : RepoSnapshot) : option BranchSnapshot :=
  branches repo !! (match defaultBranch repo with
                    | Some name => if truthy name then name else "default"
                    | None => "default"
                    end).

(** The body of the loop of [populateLegacyStateFromRepo]. *)
Definition populatePath (b : BranchSnapshot) (m : SnapshotManager)
    (pathItem : string) : SnapshotManager :=
  {| indexedCodebases :=
       match status b with
       | StatusIndexed => RepoIdentity.push_new (indexedCodebases m) pathItem
       | _ => indexedCodebases m
       end;
     indexingCodebases :=
       match status b with
       | StatusIndexing =>
           <[pathItem := orZero (indexingPercentage b)]> (indexingCodebases m)
       | _ => indexingCodebases m
       end;
     codebaseFileCount :=
       match status b with
       | StatusIndexed => <[pathItem := indexedFiles b]> (codebaseFileCount m)
       | _ => codebaseFileCount m
       end;
     codebaseInfoMap := <[pathItem := infoOfBranch b]> (codebaseInfoMap m);
     repositories := repositories m;
     pathToCanonicalId := pathToCanonicalId m |}.

Definition populateLegacyStateFromRepo (repo : RepoSnapshot)
    (m : SnapshotManager) : SnapshotManager :=
  match defaultBranchOf repo with
  | None => m
  | Some b => foldl (populatePath b) m (knownPaths repo)
  end.

(** [this.repositories.set(canonicalId, repo)] followed by the loop that
    fills [pathToCanonicalId]. *)
Definition fileRepository (canonicalId : string) (repo : RepoSnapshot)
    (m : SnapshotManager) : SnapshotManager :=
  {| indexedCodebases := indexedCodebases m;
     indexingCodebases := indexingCodebases m;
     codebaseFileCount := codebaseFileCount m;
     codebaseInfoMap := codebaseInfoMap m;
     repositories := alist_set canonicalId repo (repositories m);
     pathToCanonicalId :=
       foldl (fun p2c pathItem => <[pathItem := canonicalId]> p2c)
             (pathToCanonicalId m) (knownPaths repo) |}.

(** The branch and the repository that [buildV3StateFromGroups] makes of a
    group; [now] is the timestamp taken before the loop. *)
Definition branchOfInfo (info : CodebaseInfo) : BranchSnapshot :=
  {| status := statusOf info;
     indexedFiles := match info with
                     | InfoIndexed files _ _ _ => files
                     | _ => 0%Z
                     end;
     totalChunks := match info with
                    | InfoIndexed _ chunks _ _ => chunks
                    | _ => 0%Z
                    end;
     lastIndexed := lastUpdatedOf info;
     indexingPercentage := match info with
                           | InfoIndexing pct _ => Some pct
                           | _ => None
                           end;
     errorMessage := match info with
                     | InfoIndexFailed e _ _ => Some e
                     | _ => None
                     end |}.

Definition isWorktreePath (p : string) : bool :=
  match safeResolveIdentity p with
  | Some pathIdentity => RepoIdentity.isWorktree pathIdentity
  | None => false
  end.

Definition repoOfGroup (now : string) (group : Group) : RepoSnapshot :=
  {| displayName := RepoIdentity.displayName (groupIdentity group);
     remoteUrl := RepoIdentity.remoteUrl (groupIdentity group);
     identitySource := RepoIdentity.identitySource (groupIdentity group);
     knownPaths := groupPaths group;
     worktrees := filter (fun p => isWorktreePath p = true) (groupPaths group);
     branches := {[ "default" := branchOfInfo (groupInfo group) ]};
     defaultBranch := Some "default";
     repoLastIndexed := now |}.

Definition buildV3StateFromGroups (now : string)
    (groups : list (string * Group)) : SnapshotManager :=
  foldl (fun m entry =>
           let repo := repoOfGroup now entry.2 in
           populateLegacyStateFromRepo repo (fileRepository entry.1 repo m))
        newManager groups.

Definition migrateV1ToV3 (now : string) (snapshot : CodebaseSnapshotV1)
    : SnapshotManager :=
  buildV3StateFromGroups now
    (foldl (groupV1 now) [] (v1IndexedCodebases snapshot)).

Definition migrateV2ToV3 (now : string) (snapshot : CodebaseSnapshotV2)
    : SnapshotManager :=
  buildV3StateFromGroups now (foldl groupV2 [] (codebases snapshot)).

(** The loop of [loadV3Format] from the cleared state on.  The second
    component is [false] when an entry made it throw: the manager is then
    left as the rounds before have made it. *)
Fixpoint loadV3Entries (entries : list (string * option RepoSnapshot))
    (m : SnapshotManager) : SnapshotManager * bool :=
  match entries with
  | [] => (m, true)
  | (_, None) :: _ => (m, false)
  | (canonicalId, Some repoSnapshot) :: rest =>
      let validPaths :=
        filter (fun p => existsSync w p = true) (knownPaths repoSnapshot) in
      match validPaths with
      | [] => loadV3Entries rest m
      | _ :: _ =>
          let updatedSnapshot :=
            {| displayName := displayName repoSnapshot;
               remoteUrl := remoteUrl repoSnapshot;
               identitySource := identitySource repoSnapshot;
               knownPaths := validPaths;
               worktrees :=
                 filter (fun x => x ∈ validPaths) (worktrees repoSnapshot);
               branches := branches repoSnapshot;
               defaultBranch := defaultBranch repoSnapshot;
               repoLastIndexed := repoLastIndexed repoSnapshot |} in
          loadV3Entries rest
            (populateLegacyStateFromRepo updatedSnapshot
               (fileRepository canonicalId updatedSnapshot m))
      end
  end.

Definition loadV3Format (snapshot : CodebaseSnapshotV3)
    : SnapshotManager * bool :=
  loadV3Entries (v3Repositories snapshot) newManager.

(** [saveCodebaseSnapshot()]; [now] is [new Date().toISOString()]. *)
Definition saveCodebaseSnapshot (now : string) (m : SnapshotManager)
    (h : Host) : Host :=
  if writeFails h then
    {| snapshotFile := snapshotFile h; writeFails := writeFails h;
       writes := writes h;
       consoleError := consoleError h ++ [ErrorSavingSnapshot] |}
  else
    {| snapshotFile :=
         Some (JsonV3 {| v3Repositories :=
                           (fun e => (e.1, Some e.2)) <$> repositories m;
                         v3LastUpdated := now |});
       writeFails := writeFails h;
       writes := S (writes h);
       consoleError := consoleError h |}.

(** [loadCodebaseSnapshot()].  [now] is the clock while it runs. *)
Definition loadCodebaseSnapshot (now : string) (m : SnapshotManager)
    (h : Host) : SnapshotManager * Host :=
  let caught (m' : SnapshotManager) :=
    (m', {| snapshotFile := snapshotFile h; writeFails := writeFails h;
            writes := writes h;
            consoleError := consoleError h ++ [ErrorLoadingSnapshot] |}) in
  match snapshotFile h with
  | None => (m, h)
  | Some NotJson => caught m
  | Some (JsonV3 snapshot) =>
      match loadV3Format snapshot with
      | (m', true) => (m', saveCodebaseSnapshot now m' h)
      | (m', false) => caught m'
      end
  | Some (JsonV2 snapshot) =>
      let m' := migrateV2ToV3 now snapshot in
      (m', saveCodebaseSnapshot now m' h)
  | Some (JsonV1 snapshot) =>
      let m' := migrateV1ToV3 now snapshot in
      (m', saveCodebaseSnapshot now m' h)
  end.

(** *** The legacy views *)

(** [getIndexedCodebases()], which reads the file. *)
Definition getIndexedCodebases (m : SnapshotManager) (h : Host) : list string :=
  match snapshotFile h with
  | None => []
  | Some NotJson => indexedCodebases m
  | Some (JsonV3 snapshot) =>
      if bool_decide (Forall (fun e => is_Some e.2) (v3Repositories snapshot))
      then
        mjoin (omap (fun e =>
                       match e.2 with
                       | Some repo =>
                           match status <$> defaultBranchOf repo with
                           | Some StatusIndexed => Some (knownPaths repo)
                           | _ => None
                           end
                       | None => None
                       end)
                    (v3Repositories snapshot))
      else indexedCodebases m
  | Some (JsonV2 snapshot) =>
      fst <$> filter (fun e => statusOf e.2 = StatusIndexed) (codebases snapshot)
  | Some (JsonV1 snapshot) => v1IndexedCodebases snapshot
  end.

(** [getIndexingCodebasesWithProgress()] *)
Definition getIndexingCodebasesWithProgress (m : SnapshotManager)
    : gmap string Z :=
  indexingCodebases m.

(** [getCodebaseInfo(codebasePath)] *)
Definition getCodebaseInfo (m : SnapshotManager) (codebasePath : string)
    : option CodebaseInfo :=
  codebaseInfoMap m !! codebasePath.

(** *** The methods that set the state of one path *)

Definition setCodebaseIndexing (now : string) (codebasePath : string)
    (progress : Z) (m : SnapshotManager) : SnapshotManager :=
  {| indexedCodebases := filter (fun p => p <> codebasePath) (indexedCodebases m);
     indexingCodebases := <[codebasePath := progress]> (indexingCodebases m);
     codebaseFileCount := delete codebasePath (codebaseFileCount m);
     codebaseInfoMap :=
       <[codebasePath := InfoIndexing progress now]> (codebaseInfoMap m);
     repositories := repositories m;
     pathToCanonicalId := pathToCanonicalId m |}.

Definition setCodebaseIndexed (now : string) (codebasePath : string)
    (indexedFiles_ totalChunks_ : Z) (status_ : IndexStatus)
    (m : SnapshotManager) : SnapshotManager :=
  {| indexedCodebases := RepoIdentity.push_new (indexedCodebases m) codebasePath;
     indexingCodebases := delete codebasePath (indexingCodebases m);
     codebaseFileCount := <[codebasePath := indexedFiles_]> (codebaseFileCount m);
     codebaseInfoMap :=
       <[codebasePath := InfoIndexed indexedFiles_ totalChunks_ status_ now]>
         (codebaseInfoMap m);
     repositories := repositories m;
     pathToCanonicalId := pathToCanonicalId m |}.

Definition setCodebaseIndexFailed (now : string) (codebasePath : string)
    (errorMessage_ : string) (lastAttemptedPercentage : option Z)
    (m : SnapshotManager) : SnapshotManager :=
  {| indexedCodebases := filter (fun p => p <> codebasePath) (indexedCodebases m);
     indexingCodebases := delete codebasePath (indexingCodebases m);
     codebaseFileCount := delete codebasePath (codebaseFileCount m);
     codebaseInfoMap :=
       <[codebasePath :=
           InfoIndexFailed errorMessage_ lastAttemptedPercentage now]>
         (codebaseInfoMap m);
     repositories := repositories m;
     pathToCanonicalId := pathToCanonicalId m |}.

Definition removeCodebaseCompletely (codebasePath : string)
    (m : SnapshotManager) : SnapshotManager :=
  {| indexedCodebases := filter (fun p => p <> codebasePath) (indexedCodebases m);
     indexingCodebases := delete codebasePath (indexingCodebases m);
     codebaseFileCount := delete codebasePath (codebaseFileCount m);
     codebaseInfoMap := delete codebasePath (codebaseInfoMap m);
     repositories := repositories m;
     pathToCanonicalId := pathToCanonicalId m |}.

(** [getCodebaseStatus(codebasePath)], [None] for ['not_found']. *)
Definition getCodebaseStatus (m : SnapshotManager) (codebasePath : string)
    : option Status :=
  statusOf <$> codebaseInfoMap m !! codebasePath.

(** [getIndexedFileCount(codebasePath)] *)
Definition getIndexedFileCount (m : SnapshotManager) (codebasePath : string)
    : option Z :=
  codebaseFileCount m !! codebasePath.

(** The deprecated methods. *)
Definition addIndexingCodebase (now : string) (codebasePath : string)
    (progress : Z) (m : SnapshotManager) : SnapshotManager :=
  {| indexedCodebases := indexedCodebases m;
     indexingCodebases := <[codebasePath := progress]> (indexingCodebases m);
     codebaseFileCount := codebaseFileCount m;
     codebaseInfoMap :=
       <[codebasePath := InfoIndexing progress now]> (codebaseInfoMap m);
     repositories := repositories m;
     pathToCanonicalId := pathToCanonicalId m |}.

Definition updateIndexingProgress (now : string) (codebasePath : string)
    (progress : Z) (m : SnapshotManager) : SnapshotManager :=
  match indexingCodebases m !! codebasePath with
  | Some _ => addIndexingCodebase now codebasePath progress m
  | None => m
  end.

Definition removeIndexingCodebase (codebasePath : string)
    (m : SnapshotManager) : SnapshotManager :=
  {| indexedCodebases := indexedCodebases m;
     indexingCodebases := delete codebasePath (indexingCodebases m);
     codebaseFileCount := codebaseFileCount m;
     codebaseInfoMap := delete codebasePath (codebaseInfoMap m);
     repositories := repositories m;
     pathToCanonicalId := pathToCanonicalId m |}.

(** [fileCount] is [None] when the argument is left out. *)
Definition addIndexedCodebase (now : string) (codebasePath : string)
    (fileCount : option Z) (m : SnapshotManager) : SnapshotManager :=
  {| indexedCodebases := RepoIdentity.push_new (indexedCodebases m) codebasePath;
     indexingCodebases := indexingCodebases m;
     codebaseFileCount :=
       match fileCount with
       | Some n => <[codebasePath := n]> (codebaseFileCount m)
       | None => codebaseFileCount m
       end;
     codebaseInfoMap :=
       <[codebasePath := InfoIndexed (orZero fileCount) 0 Completed now]>
         (codebaseInfoMap m);
     repositories := repositories m;
     pathToCanonicalId := pathToCanonicalId m |}.

Definition removeIndexedCodebase (codebasePath : string)
    (m : SnapshotManager) : SnapshotManager :=
  {| indexedCodebases := filter (fun p => p <> codebasePath) (indexedCodebases m);
     indexingCodebases := indexingCodebases m;
     codebaseFileCount := delete codebasePath (codebaseFileCount m);
     codebaseInfoMap := delete codebasePath (codebaseInfoMap m);
     repositories := repositories m;
     pathToCanonicalId := pathToCanonicalId m |}.

Definition moveFromIndexingToIndexed (now : string) (codebasePath : string)
    (fileCount : option Z) (m : SnapshotManager) : SnapshotManager :=
  addIndexedCodebase now codebasePath fileCount
    (removeIndexingCodebase codebasePath m).

Definition setIndexedFileCount (codebasePath : string) (fileCount : Z)
    (m : SnapshotManager) : SnapshotManager :=
  {| indexedCodebases := indexedCodebases m;
     indexingCodebases := indexingCodebases m;
     codebaseFileCount := <[codebasePath := fileCount]> (codebaseFileCount m);
     codebaseInfoMap := codebaseInfoMap m;
     repositories := repositories m;
     pathToCanonicalId := pathToCanonicalId m |}.

(** A call of one of these methods, and a run of such calls, each at its
    own time. *)
Inductive PathCall : Type :=
| SetCodebaseIndexing (codebasePath : string) (progress : Z)
| SetCodebaseIndexed (codebasePath : string) (indexedFiles_ totalChunks_ : Z)
    (status_ : IndexStatus)
| SetCodebaseIndexFailed (codebasePath errorMessage_ : string)
    (lastAttemptedPercentage : option Z)
| RemoveCodebaseCompletely (codebasePath : string)
| AddIndexingCodebase (codebasePath : string) (progress : Z)
| UpdateIndexingProgress (codebasePath : string) (progress : Z)
| RemoveIndexingCodebase (codebasePath : string)
| AddIndexedCodebase (codebasePath : string) (fileCount : option Z)
| RemoveIndexedCodebase (codebasePath : string)
| MoveFromIndexingToIndexed (codebasePath : string) (fileCount : option Z)
| SetIndexedFileCount (codebasePath : string) (fileCount : Z).

Definition call (now : string) (c : PathCall) (m : SnapshotManager)
    : SnapshotManager :=
  match c with
  | SetCodebaseIndexing p progress => setCodebaseIndexing now p progress m
  | SetCodebaseIndexed p files chunks st => setCodebaseIndexed now p files chunks st m
  | SetCodebaseIndexFailed p e pct => setCodebaseIndexFailed now p e pct m
  | RemoveCodebaseCompletely p => removeCodebaseCompletely p m
  | AddIndexingCodebase p progress => addIndexingCodebase now p progress m
  | UpdateIndexingProgress p progress => updateIndexingProgress now p progress m
  | RemoveIndexingCodebase p => removeIndexingCodebase p m
  | AddIndexedCodebase p n => addIndexedCodebase now p n m
  | RemoveIndexedCodebase p => removeIndexedCodebase p m
  | MoveFromIndexingToIndexed p n => moveFromIndexingToIndexed now p n m
  | SetIndexedFileCount p n => setIndexedFileCount p n m
  end.

Definition calls (cs : list (string * PathCall)) (m : SnapshotManager)
    : SnapshotManager :=
  foldl (fun m c => call c.1 c.2 m) m cs.

(** The methods that are not marked as deprecated. *)
Definition deprecated (c : PathCall) : bool :=
  match c with
  | SetCodebaseIndexing _ _ | SetCodebaseIndexed _ _ _ _
  | SetCodebaseIndexFailed _ _ _ | RemoveCodebaseCompletely _ => false
  | _ => true
  end.

(** The four path-keyed fields tell one story: a path is listed as
    indexed, has a file count, or has a progress, exactly when its
    [CodebaseInfo] has that status; no path is listed twice. *)
Definition coherent (m : SnapshotManager) : Prop :=
  NoDup (indexedCodebases m)
  /\ forall p,
       (p ∈ indexedCodebases m <-> getCodebaseStatus m p = Some StatusIndexed)
       /\ (is_Some (codebaseFileCount m !! p)
           <-> getCodebaseStatus m p = Some StatusIndexed)
       /\ (is_Some (indexingCodebases m !! p)
           <-> getCodebaseStatus m p = Some StatusIndexing).

(** What a [CodebaseInfo] reads back as after it went through a branch of
    a v3 record. *)
Definition readBack (info : CodebaseInfo) : CodebaseInfo :=
  infoOfBranch (branchOfInfo info).

(** The entries of a v2 snapshot whose path still exists on disk. *)
Definition liveV2 (snapshot : CodebaseSnapshotV2) : list (string * CodebaseInfo) :=
  filter (fun e => existsSync w e.1 = true) (codebases snapshot).

(** The indexed paths of a v1 snapshot that still exist on disk. *)
Definition liveV1 (snapshot : CodebaseSnapshotV1) : list string :=
  filter (fun p => existsSync w p = true) (v1IndexedCodebases snapshot).

(** The progress of a path that a v2 snapshot lists as indexing. *)
Definition progressOf (info : CodebaseInfo) : option Z :=
  match info with
  | InfoIndexing pct _ => Some pct
  | _ => None
  end.

End WithWorld.

(** A host that holds [content] in the snapshot file and nothing else. *)
Definition hostWith (content : FileContent) : Host :=
  {| snapshotFile := Some content; writeFails := false; writes := 0;
     consoleError := [] |}.

(** A v2 snapshot with one codebase that stopped at the chunk limit. *)
Definition limitReachedSnapshot : CodebaseSnapshotV2 :=
  {| codebases :=
       [("/tmp/p", InfoIndexed 5 9 LimitReached "2025-06-01T00:00:00.000Z")] |}.

(** A v3 snapshot whose second repository entry is [null]. *)
Definition partlyNullSnapshot : CodebaseSnapshotV3 :=
  {| v3Repositories :=
       [("0a", Some {| displayName := "p";
                       remoteUrl := None;
                       identitySource := RepoIdentity.PathHash;
                       knownPaths := ["/tmp/p"];
                       worktrees := [];
                       branches :=
                         {[ "default" :=
                              {| status := StatusIndexed;
                                 indexedFiles := 5;
                                 totalChunks := 9;
                                 lastIndexed := "2025-06-01T00:00:00.000Z";
                                 indexingPercentage := None;
                                 errorMessage := None |} ]};
                       defaultBranch := Some "default";
                       repoLastIndexed := "2025-06-01T00:00:00.000Z" |});
        ("0b", None)];
     v3LastUpdated := "2025-06-01T00:00:00.000Z" |}.

End Snapshot.

(** ** A world to run the code in

    A POSIX file system given by a table of entries, with [/] as working
    directory, and a table of the answers of [git].  It is used to
    evaluate the definitions above on concrete inputs. *)

Module ExampleWorld.
Import JsString Node.

Inductive Entry : Type :=
| Directory
| File (content : string).

(** The segments of a path, without the empty ones. *)
Definition segments (p : string) : list string :=
  filter (fun seg => seg <> EmptyString) (split "/" p).

Definition render (segs : list string) : string :=
  "/" +:+ foldr (fun seg acc =>
                   match acc with
                   | EmptyString => seg
                   | _ => seg +:+ "/" +:+ acc
                   end) EmptyString segs.

Definition dirname (p : string) : string := render (removelast (segments p)).

Definition basename (p : string) : string := List.last (segments p) EmptyString.

Definition join (p q : string) : string := render (segments p ++ segments q).

(** [path.resolve] from the working directory [/]: [..] climbs. *)
Definition resolve (parts : list string) : string :=
  render (foldl (fun acc seg =>
                   if bool_decide (seg = "..") then removelast acc
                   else if bool_decide (seg = ".") then acc
                   else acc ++ [seg])
                [] (parts ≫= segments)).

Definition lookup {V} (k : string) (table : list (string * V)) : option V :=
  snd <$> List.find (fun e => bool_decide (e.1 = k)) table.

(** A stand-in for MD5 that keeps 32 characters. *)
Definition digest (s : string) : string :=
  take 32 (s +:+ "0123456789abcdef0123456789abcdef").

Definition world (files : list (string * Entry))
    (git : list (string * string)) : World :=
  {| path_resolve := resolve;
     path_dirname := dirname;
     path_basename := basename;
     path_join := join;
     path_root := fun _ => "/";
     statSync := fun p =>
       match lookup p files with
       | Some Directory => Some StatDirectory
       | Some (File _) => Some StatFile
       | None => None
       end;
     readFileSync := fun p =>
       match lookup p files with
       | Some (File content) => Some content
       | _ => None
       end;
     existsSync := fun p => bool_decide (is_Some (lookup p files));
     execSync := fun command cwd => lookup (cwd +:+ "$ " +:+ command) git;
     md5 := digest |}.

(** A plain directory, a repository without commits, a repository whose
    [.git] is a file that is no worktree pointer, two clones with an
    origin, and a repository with commits and no remote. *)
Definition files : list (string * Entry) :=
  [("/tmp", Directory);
   ("/tmp/p", Directory);
   ("/tmp/q", Directory);
   ("/srv/fresh", Directory);
   ("/srv/fresh/.git", Directory);
   ("/srv/odd", Directory);
   ("/srv/odd/.git", File "not a pointer");
   ("/srv/clone", Directory);
   ("/srv/clone/.git", Directory);
   ("/srv/mirror", Directory);
   ("/srv/mirror/.git", Directory);
   ("/srv/local", Directory);
   ("/srv/local/.git", Directory)].

Definition git : list (string * string) :=
  [("/srv/clone$ git config --get remote.origin.url",
    "git@github.com:x/y.git" +:+ String "010" EmptyString);
   ("/srv/clone$ git rev-list --max-parents=0 HEAD",
    "4b825dc642cb6eb9a060e54bf8d69288fbee4904" +:+ String "010" EmptyString);
   ("/srv/mirror$ git config --get remote.origin.url",
    "https://github.com/x/y" +:+ String "010" EmptyString);
   ("/srv/local$ git rev-list --max-parents=0 HEAD",
    "9fceb02d0ae598e95dc970b74767f19372d61af8" +:+ String "010" EmptyString)].

Definition example : World := world files git.

End ExampleWorld.

(** A repository with a subdirectory and a linked worktree. *)
Module WorktreeWorld.
Import JsString Node ExampleWorld.

Definition porcelain : string :=
  "worktree /srv/main" +:+ String "010"
    ("HEAD 4b825dc642cb6eb9a060e54bf8d69288fbee4904" +:+ String "010"
    ("branch refs/heads/main" +:+ String "010" (String "010"
    ("worktree /srv/feature" +:+ String "010"
    ("HEAD 9fceb02d0ae598e95dc970b74767f19372d61af8" +:+ String "010"
    ("branch refs/heads/feature" +:+ String "010" EmptyString)))))).

Definition files : list (string * Entry) :=
  [("/srv/main", Directory);
   ("/srv/main/.git", Directory);
   ("/srv/main/src", Directory);
   ("/srv/feature", Directory);
   ("/srv/feature/.git",
    File ("gitdir: /srv/main/.git/worktrees/feature" +:+ String "010" EmptyString))].

Definition git : list (string * string) :=
  [("/srv/main$ git config --get remote.origin.url",
    "git@github.com:x/y.git" +:+ String "010" EmptyString);
   ("/srv/feature$ git config --get remote.origin.url",
    "git@github.com:x/y.git" +:+ String "010" EmptyString);
   ("/srv/main$ git worktree list --porcelain", porcelain);
   ("/srv/feature$ git worktree list --porcelain", porcelain)].

Definition example : World := world files git.

End WorktreeWorld.

(** ** handlers.ts: [search_all] *)

Module SearchAll.
Import RepoRegistry.

(** Modelled from the spec: [handleSearchAll] of packages/mcp/src/handlers.ts,
    the handler that server.ts dispatches [search_all] to; handlers.ts is
    not among the sources.  The definitions below follow the description
    of the cross-repository search engine sentence by sentence.  Scores
    are rationals.  Time is not modelled: whether a per-collection call
    returns, exceeds its budget (or the budget of the whole call) or
    fails is what the vector store answers for that call. *)
Inductive Normalization : Type := Raw | MinMax.

Record Hit : Type := {
  hitRelativePath : string;
  hitStartLine : Z;
  hitEndLine : Z;
  hitLanguage : string;
  hitContent : string;
  hitScore : Q
}.

Inductive Outcome : Type :=
| Returned (hits : list Hit)
| TimedOut
| Failed.

(** The vector store: the live enumeration of its collections, and its
    hybrid search of a collection for a query, with the number of results
    asked for and the extension filter. *)
Record VectorStore : Type := {
  listCollections : list string;
  hybridSearch : string -> string -> nat -> list string -> Outcome
}.

Record Target : Type := {
  targetCollection : string;
  targetDisplayName : string;
  targetCanonicalId : option string
}.

Record SearchResult : Type := {
  repoDisplayName : string;
  canonicalRepoId : option string;
  relativePath : string;
  startLine : Z;
  endLine : Z;
  language : string;
  content : string;
  score : Q;
  normalization : Normalization;
  sourceCollection : string
}.

Record Summary : Type := {
  collectionsQueried : nat;
  collectionsSkippedByTimeout : list string;
  collectionsFailed : list string;
  totalResults : nat
}.

Record Response : Type := {
  results : list SearchResult;
  summary : Summary
}.

(** Modelled from the spec: the first source of discovery in
    [handleSearchAll], the collections referenced by the registry's indexed
    records. *)
Definition registryTargets (r : RepoRegistry) : list Target :=
  omap (fun rec =>
          (fun c => {| targetCollection := c;
                       targetDisplayName := displayName rec;
                       targetCanonicalId := Some (canonicalId rec) |})
            <$> collectionName rec)
       (listIndexed r).

(** Deduplication by collection name; the first of a name stays. *)
Fixpoint dedupe (seen : list string) (l : list Target) : list Target :=
  match l with
  | [] => []
  | t :: l' =>
      if bool_decide (targetCollection t ∈ seen) then dedupe seen l'
      else t :: dedupe (targetCollection t :: seen) l'
  end.

(** [repos] restricts the candidates by display name or canonical ID; an
    empty [repos] restricts nothing. *)
Definition selected (repos : list string) (t : Target) : bool :=
  match repos with
  | [] => true
  | _ :: _ =>
      bool_decide (targetDisplayName t ∈ repos)
      || match targetCanonicalId t with
         | Some id => bool_decide (id ∈ repos)
         | None => false
         end
  end.

(** The smallest and the largest score of a batch that starts with [s]. *)
Definition lowest (s : Q) (l : list Q) : Q := foldl Qmin s l.
Definition highest (s : Q) (l : list Q) : Q := foldl Qmax s l.

(** Modelled from the spec: score normalization in [handleSearchAll].
    Option A leaves a score as it is; option B maps the batch's minimum
    to 0 and its maximum to 1, and a batch of equal scores to 1. *)
Definition normalize (mode : Normalization) (batch : list Q) (s : Q) : Q :=
  match mode, batch with
  | Raw, _ => s
  | MinMax, [] => s
  | MinMax, s0 :: rest =>
      let lo := lowest s0 rest in
      let hi := highest s0 rest in
      if Qeq_bool lo hi then 1%Q else ((s - lo) / (hi - lo))%Q
  end.

Definition attribute (mode : Normalization) (t : Target) (batch : list Q)
    (h : Hit) : SearchResult :=
  {| repoDisplayName := targetDisplayName t;
     canonicalRepoId := targetCanonicalId t;
     relativePath := hitRelativePath h;
     startLine := hitStartLine h;
     endLine := hitEndLine h;
     language := hitLanguage h;
     content := hitContent h;
     score := normalize mode batch (hitScore h);
     normalization := mode;
     sourceCollection := targetCollection t |}.

(** Modelled from the spec: the order of the merged results of
    [handleSearchAll], score descending, then
    [(repoDisplayName, relativePath, startLine)]. *)
Definition precedesb (a b : SearchResult) : bool :=
  match (score b ?= score a)%Q with
  | Lt => true
  | Gt => false
  | Eq =>
      match String.compare (repoDisplayName a) (repoDisplayName b) with
      | Lt => true
      | Gt => false
      | Eq =>
          match String.compare (relativePath a) (relativePath b) with
          | Lt => true
          | Gt => false
          | Eq => (startLine a <=? startLine b)%Z
          end
      end
  end.

Definition precedes (a b : SearchResult) : Prop := precedesb a b = true.

#[global] Instance precedes_dec : RelDecision precedes.
Proof. intros a b. unfold precedes. apply _. Defined.

(** [limit]: 20 when absent, 50 at most. *)
Definition effectiveLimit (limit : option nat) : nat :=
  Nat.min (orElse limit 20) 50.

Section Engine.
Context (store : VectorStore).
(** The description does not say what display name and canonical ID a
    collection gets that only the live enumeration knows. *)
Context (unregistered : string -> string * option string).
Context (mode : Normalization).

Definition liveTargets : list Target :=
  (fun c => {| targetCollection := c;
               targetDisplayName := (unregistered c).1;
               targetCanonicalId := (unregistered c).2 |})
    <$> listCollections store.

(** Modelled from the spec: discovery in [handleSearchAll], both sources,
    deduplicated by collection name. *)
Definition discover (r : RepoRegistry) : list Target :=
  dedupe [] (registryTargets r ++ liveTargets).

(** The fan-out targets. *)
Definition targets (r : RepoRegistry) (repos : list string) : list Target :=
  filter (fun t => selected repos t = true) (discover r).

(** One per-collection call. *)
Definition searchCollection (query : string) (limit : nat)
    (extensionFilter : list string) (t : Target) : Outcome :=
  hybridSearch store (targetCollection t) query limit extensionFilter.

(** The normalized results of a collection; a skipped or failed collection
    contributes none. *)
Definition collected (query : string) (limit : nat)
    (extensionFilter : list string) (t : Target) : list SearchResult :=
  match searchCollection query limit extensionFilter t with
  | Returned hits => attribute mode t (hitScore <$> hits) <$> hits
  | TimedOut | Failed => []
  end.

Definition timedOut (query : string) (limit : nat)
    (extensionFilter : list string) (t : Target) : bool :=
  match searchCollection query limit extensionFilter t with
  | TimedOut => true
  | _ => false
  end.

Definition failed (query : string) (limit : nat)
    (extensionFilter : list string) (t : Target) : bool :=
  match searchCollection query limit extensionFilter t with
  | Failed => true
  | _ => false
  end.

(** Modelled from the spec: merge and rank in [handleSearchAll]:
    concatenate, sort, truncate to [limit]. *)
Definition mergeAndRank (limit : nat) (batches : list (list SearchResult))
    : list SearchResult :=
  take limit (merge_sort precedes (concat batches)).

(** Modelled from the spec: [handleSearchAll] of handlers.ts, from the
    fan-out targets to the results and the summary. *)
Definition handleSearchAll (r : RepoRegistry) (query : string)
    (limit : option nat) (repos extensionFilter : list string) : Response :=
  let n := effectiveLimit limit in
  let ts := targets r repos in
  let merged := mergeAndRank n (collected query n extensionFilter <$> ts) in
  {| results := merged;
     summary :=
       {| collectionsQueried := length ts;
          collectionsSkippedByTimeout :=
            targetCollection
              <$> filter (fun t => timedOut query n extensionFilter t = true) ts;
          collectionsFailed :=
            targetCollection
              <$> filter (fun t => failed query n extensionFilter t = true) ts;
          totalResults := length merged |} |}.

End Engine.

(** A canonical ID is present in the registry: one of its records has it. *)
Definition present (r : RepoRegistry) (id : string) : Prop :=
  exists rec, rec ∈ listAll r /\ canonicalId rec = id.

(** A store with one collection, which answers every search with one
    hit. *)
Definition exampleStore : VectorStore :=
  {| listCollections := ["code_chunks_0a1b2c3d"];
     hybridSearch := fun _ _ _ _ =>
       Returned [{| hitRelativePath := "src/a.ts";
                    hitStartLine := 1;
                    hitEndLine := 9;
                    hitLanguage := "typescript";
                    hitContent := "export {}";
                    hitScore := 1 |}] |}.

(** A registry with one indexed repository, whose collection is the one of
    [exampleStore]. *)
Definition exampleRegistry : RepoRegistry :=
  let now := "2026-01-01T00:00:00.000Z" in
  let '(rec, r) := register ExampleWorld.example "/srv/clone" noOptions now
                     empty in
  (markIndexed (canonicalId rec) "code_chunks_0a1b2c3d" 5 9 now r).2.

End SearchAll.

(** * Properties *)

Module StringFacts.
Import JsString.

Lemma sapp_cons c (s t : string) : String c s +:+ t = String c (s +:+ t).
Proof. reflexivity. Qed.

Lemma sapp_nil_l (s : string) : EmptyString +:+ s = s.
Proof. reflexivity. Qed.

Lemma sapp_nil_r (s : string) : s +:+ EmptyString = s.
Proof. induction s as [|c s IH]; [reflexivity|]. rewrite sapp_cons, IH. reflexivity. Qed.

Lemma sapp_assoc (a b c : string) : (a +:+ b) +:+ c = a +:+ (b +:+ c).
Proof.
  induction a as [|x a IH]; [reflexivity|].
  rewrite !sapp_cons, IH. reflexivity.
Qed.

Lemma sapp_eq_nil (a b : string) : a +:+ b = EmptyString -> a = EmptyString /\ b = EmptyString.
Proof. destruct a; [auto|]. rewrite sapp_cons. discriminate. Qed.

Lemma truthy_nonempty (s : string) : truthy s = true <-> s <> EmptyString.
Proof. destruct s; simpl; split; congruence. Qed.

Lemma every_app p (a b : string) : every p (a +:+ b) = every p a && every p b.
Proof.
  induction a as [|c a IH]; [reflexivity|].
  rewrite sapp_cons. simpl. rewrite IH. apply andb_assoc.
Qed.

Lemma every_impl (p q : ascii -> bool) (s : string) :
  (forall c, p c = true -> q c = true) -> every p s = true -> every q s = true.
Proof.
  intros Hpq. induction s as [|c s IH]; simpl; [done|].
  intros [Hc Hs]%andb_prop. rewrite (Hpq _ Hc), (IH Hs). reflexivity.
Qed.

(** [trimEnd] leaves a string alone whose last character is no white space. *)
Lemma trimEnd_app (a b : string) :
  b <> EmptyString -> trimEnd b = b -> trimEnd (a +:+ b) = a +:+ b.
Proof.
  intros Hb Hid. induction a as [|c a IH]; [exact Hid|].
  rewrite sapp_cons. simpl. rewrite IH.
  destruct (a +:+ b) eqn:E; [|reflexivity].
  apply sapp_eq_nil in E as [_ ?]. contradiction.
Qed.

Lemma trimEnd_every (s : string) :
  every (fun c => negb (is_ws c)) s = true -> trimEnd s = s.
Proof.
  induction s as [|c s IH]; simpl; [done|].
  intros [Hc Hs]%andb_prop. rewrite (IH Hs).
  destruct s; [|reflexivity].
  apply negb_true_iff in Hc. rewrite Hc. reflexivity.
Qed.

Lemma trim_id c (s : string) :
  is_ws c = false -> trimEnd (String c s) = String c s -> trim (String c s) = String c s.
Proof. intros Hc H. unfold trim. simpl trimStart. rewrite Hc. exact H. Qed.

Lemma startsWith_app (p s : string) : startsWith p (p +:+ s) = true.
Proof.
  induction p as [|c p IH]; [reflexivity|].
  rewrite sapp_cons. simpl. rewrite Ascii.eqb_refl. exact IH.
Qed.

Lemma rev_app_app (a b c : string) : String.rev_app (a +:+ b) c = String.rev_app b (String.rev_app a c).
Proof.
  revert c. induction a as [|x a IH]; intros c; [reflexivity|].
  rewrite sapp_cons. simpl. apply IH.
Qed.

Lemma rev_app_acc (a c : string) : String.rev_app a c = String.rev_app a EmptyString +:+ c.
Proof.
  revert c. induction a as [|x a IH]; intros c; [reflexivity|].
  simpl. rewrite (IH (String x c)), (IH (String x EmptyString)), sapp_assoc.
  reflexivity.
Qed.

Lemma endsWith_app (pre sfx : string) : endsWith sfx (pre +:+ sfx) = true.
Proof.
  unfold endsWith, String.rev. rewrite rev_app_app.
  rewrite (rev_app_acc sfx (String.rev_app pre _)). apply startsWith_app.
Qed.

End StringFacts.

Module RegexFacts.
Import JsString Regex StringFacts.

Section Plus.
Context {A : Type}.
Implicit Types (k : string -> string -> option A).

Lemma plus_stops p b k : stops p b = true -> plus p b k = None.
Proof.
  destruct b as [|c b]; simpl; [done|].
  intros ->%negb_true_iff. reflexivity.
Qed.

(** The longest run wins when the continuation accepts it. *)
Lemma plus_greedy p a b k :
  a <> EmptyString -> every p a = true -> stops p b = true ->
  is_Some (k a b) -> plus p (a +:+ b) k = k a b.
Proof.
  revert k. induction a as [|c a IH]; intros k Hne Hall Hstop Hk; [done|].
  simpl in Hall. apply andb_prop in Hall as [Hc Ha].
  rewrite sapp_cons. simpl. rewrite Hc.
  destruct a as [|c' a].
  - rewrite sapp_nil_l, (plus_stops _ _ _ Hstop). reflexivity.
  - rewrite (IH (fun t rest => k (String c t) rest)); [|done..].
    destruct Hk as [x ->]. reflexivity.
Qed.

(** No split of the run is accepted: the match fails. *)
Lemma plus_none p a b k :
  every p a = true -> stops p b = true ->
  (forall a1 a2, a1 <> EmptyString -> a = a1 +:+ a2 -> k a1 (a2 +:+ b) = None) ->
  plus p (a +:+ b) k = None.
Proof.
  revert k. induction a as [|c a IH]; intros k Hall Hstop Hk.
  - rewrite sapp_nil_l. by apply plus_stops.
  - simpl in Hall. apply andb_prop in Hall as [Hc Ha].
    rewrite sapp_cons. simpl. rewrite Hc.
    rewrite (IH (fun t rest => k (String c t) rest)); [| done | done |].
    + apply (Hk (String c EmptyString) a); done.
    + intros a1 a2 Hne ->. apply (Hk (String c a1) a2); done.
Qed.
End Plus.

Section Steps.
Context {A : Type}.
Implicit Types (k : string -> string -> list string -> option A).

Lemma exec_lit (l s : string) caps k :
  exec (lit l) (l +:+ s) caps k = k l s caps.
Proof.
  revert k. induction l as [|c l IH]; intros k; [reflexivity|].
  rewrite sapp_cons. simpl. rewrite Ascii.eqb_refl. rewrite IH. reflexivity.
Qed.

Lemma exec_seq r1 r2 s caps k :
  exec (Seq r1 r2) s caps k
  = exec r1 s caps (fun t1 s1 c1 =>
      exec r2 s1 c1 (fun t2 s2 c2 => k (t1 +:+ t2) s2 c2)).
Proof. reflexivity. Qed.

Lemma exec_plus p s caps k :
  exec (Plus p) s caps k = plus p s (fun t rest => k t rest caps).
Proof. reflexivity. Qed.

(** Backward steps: a match succeeds when its continuation does. *)
Lemma exec_seq_some r1 r2 s caps k x :
  exec r1 s caps (fun t1 s1 c1 =>
    exec r2 s1 c1 (fun t2 s2 c2 => k (t1 +:+ t2) s2 c2)) = Some x ->
  exec (Seq r1 r2) s caps k = Some x.
Proof. done. Qed.

Lemma exec_lit_some (l s : string) caps k x :
  k l s caps = Some x -> exec (lit l) (l +:+ s) caps k = Some x.
Proof. by rewrite exec_lit. Qed.

Lemma exec_chr_some c (s : string) caps k x :
  k (String c EmptyString) s caps = Some x ->
  exec (Chr c) (String c s) caps k = Some x.
Proof. simpl. by rewrite Ascii.eqb_refl. Qed.

Lemma exec_grp_plus_some p (a b : string) caps k x :
  a <> EmptyString -> every p a = true -> stops p b = true ->
  k a b (caps ++ [a]) = Some x ->
  exec (Grp (Plus p)) (a +:+ b) caps k = Some x.
Proof.
  intros Hne Ha Hb Hk. cbn [exec].
  rewrite plus_greedy; rewrite ?Hk; done.
Qed.

Lemma exec_plus_some p (a b : string) caps k x :
  a <> EmptyString -> every p a = true -> stops p b = true ->
  k a b caps = Some x ->
  exec (Plus p) (a +:+ b) caps k = Some x.
Proof.
  intros Hne Ha Hb Hk. cbn [exec].
  rewrite plus_greedy; rewrite ?Hk; done.
Qed.

Lemma exec_eos_some caps k x :
  k EmptyString EmptyString caps = Some x -> exec Eos EmptyString caps k = Some x.
Proof. done. Qed.

Lemma exec_alt_l r1 r2 s caps k x :
  exec r1 s caps k = Some x -> exec (Alt r1 r2) s caps k = Some x.
Proof. cbn [exec]. by intros ->. Qed.

Lemma exec_alt_r r1 r2 s caps k x :
  exec r1 s caps k = None -> exec r2 s caps k = Some x ->
  exec (Alt r1 r2) s caps k = Some x.
Proof. cbn [exec]. by intros ->. Qed.

Lemma exec_opt_take r s caps k x :
  exec r s caps k = Some x -> exec (Opt r) s caps k = Some x.
Proof. cbn [exec]. by intros ->. Qed.

Lemma exec_opt_skip r s caps k x :
  exec r s caps k = None -> k EmptyString s caps = Some x ->
  exec (Opt r) s caps k = Some x.
Proof. cbn [exec]. by intros ->. Qed.

(** A literal character is refused after a run that excludes it. *)
Lemma exec_chr_refuses c (a1 a2 : string) caps k :
  every (notc c) (a1 +:+ a2) = true ->
  exec (Chr c) (a2 +:+ EmptyString) caps k = None.
Proof.
  rewrite every_app, sapp_nil_r. intros [_ H]%andb_prop.
  destruct a2 as [|x a2]; simpl in *; [done|].
  apply andb_prop in H as [Hx _]. unfold notc in Hx.
  apply negb_true_iff in Hx. rewrite Hx. reflexivity.
Qed.

End Steps.

End RegexFacts.

Module GitUrlFacts.
Import JsString Regex StringFacts RegexFacts GitUtils.

Lemma urlChar_dot c : isUrlChar c = true -> dot c = true.
Proof.
  unfold isUrlChar, dot. intros [H _]%andb_prop.
  destruct c as [[] [] [] [] [] [] [] []]; simpl in *; done.
Qed.

Lemma urlChar_not_ws c : isUrlChar c = true -> negb (is_ws c) = true.
Proof. unfold isUrlChar. by intros [H _]%andb_prop. Qed.

Lemma urlChar_not_at c : isUrlChar c = true -> notc "@" c = true.
Proof. unfold isUrlChar, notc. by intros [_ H]%andb_prop. Qed.

Lemma hostChar_urlChar c : isHostChar c = true -> isUrlChar c = true.
Proof. unfold isHostChar. by intros [[H _]%andb_prop _]%andb_prop. Qed.

Lemma hostChar_not_slash c : isHostChar c = true -> notc "/" c = true.
Proof. unfold isHostChar, notc. by intros [[_ H]%andb_prop _]%andb_prop. Qed.

Lemma hostChar_not_colon c : isHostChar c = true -> notc ":" c = true.
Proof. unfold isHostChar, notc. by intros [_ H]%andb_prop. Qed.

Lemma wellFormedHost_inv host :
  wellFormedHost host = true -> host <> EmptyString /\ every isHostChar host = true.
Proof. unfold wellFormedHost. intros [?%truthy_nonempty ?]%andb_prop. done. Qed.

Lemma wellFormedSegment_inv s :
  wellFormedSegment s = true -> s <> EmptyString /\ every isUrlChar s = true.
Proof. unfold wellFormedSegment. intros [?%truthy_nonempty ?]%andb_prop. done. Qed.

Lemma wellFormedUser_inv s :
  wellFormedUser s = true -> s <> EmptyString /\ every (notc "@") s = true.
Proof. unfold wellFormedUser. intros [?%truthy_nonempty ?]%andb_prop. done. Qed.

(** The tail [(.+)$] takes a whole line. *)
Lemma exec_rest_of_line {A} (path : string) caps
    (k : string -> string -> list string -> option A) x :
  path <> EmptyString -> every dot path = true ->
  k (path +:+ EmptyString) EmptyString (caps ++ [path]) = Some x ->
  exec (Seq (Grp (Plus dot)) Eos) path caps k = Some x.
Proof.
  intros Hne Hdot Hk. apply exec_seq_some.
  rewrite <- (sapp_nil_r path) at 1.
  apply exec_grp_plus_some; [done..|]. by apply exec_eos_some.
Qed.

Lemma match_sshRe (host path : string) :
  host <> EmptyString -> every (notc ":") host = true ->
  path <> EmptyString -> every dot path = true ->
  match_at_start sshRe ("git@" +:+ host +:+ ":" +:+ path) = Some [host; path].
Proof.
  intros Hh Hhc Hp Hpd. unfold match_at_start, sshRe.
  apply exec_seq_some, exec_lit_some, exec_seq_some.
  apply exec_grp_plus_some; [done | done | reflexivity |].
  apply exec_seq_some. rewrite sapp_cons, sapp_nil_l. apply exec_chr_some.
  apply exec_rest_of_line; done.
Qed.

Lemma exec_host_path {A} (host path : string) caps
    (k : string -> string -> list string -> option A) x :
  host <> EmptyString -> every (notc "/") host = true ->
  path <> EmptyString -> every dot path = true ->
  (forall t, k t EmptyString (caps ++ [host] ++ [path]) = Some x) ->
  exec (Seq (Grp (Plus (notc "/"))) (Seq (Chr "/") (Seq (Grp (Plus dot)) Eos)))
    (host +:+ "/" +:+ path) caps k = Some x.
Proof.
  intros Hh Hhc Hp Hpd Hk. apply exec_seq_some.
  apply exec_grp_plus_some; [done | done | reflexivity |].
  apply exec_seq_some. rewrite sapp_cons, sapp_nil_l. apply exec_chr_some.
  apply exec_rest_of_line; [done..|]. rewrite <- List.app_assoc. apply Hk.
Qed.

Lemma no_at (host path : string) :
  every isHostChar host = true -> every isUrlChar path = true ->
  every (notc "@") (host +:+ "/" +:+ path) = true.
Proof.
  intros Hh Hp. rewrite !every_app.
  rewrite (every_impl isHostChar (notc "@") host), (every_impl _ _ _ urlChar_not_at Hp);
    [reflexivity | | done].
  intros c Hc. by apply urlChar_not_at, hostChar_urlChar.
Qed.

Lemma exec_urlReTail_plain {A} (host path : string) caps
    (k : string -> string -> list string -> option A) x :
  host <> EmptyString -> every isHostChar host = true ->
  path <> EmptyString -> every isUrlChar path = true ->
  (forall t, k t EmptyString (caps ++ [host] ++ [path]) = Some x) ->
  exec urlReTail (host +:+ "/" +:+ path) caps k = Some x.
Proof.
  intros Hh Hhc Hp Hpc Hk. unfold urlReTail. apply exec_seq_some.
  apply exec_opt_skip.
  - rewrite exec_seq, exec_plus.
    rewrite <- (sapp_nil_r (host +:+ "/" +:+ path)).
    apply plus_none; [| done |].
    + by apply no_at.
    + intros a1 a2 _ E. apply (exec_chr_refuses _ a1). rewrite <- E.
      by apply no_at.
  - apply exec_host_path; [done | | done | | ].
    + by apply (every_impl _ _ _ hostChar_not_slash).
    + by apply (every_impl _ _ _ urlChar_dot).
    + intros t. apply Hk.
Qed.

Lemma exec_urlReTail_user {A} (user host path : string) caps
    (k : string -> string -> list string -> option A) x :
  user <> EmptyString -> every (notc "@") user = true ->
  host <> EmptyString -> every isHostChar host = true ->
  path <> EmptyString -> every isUrlChar path = true ->
  (forall t, k t EmptyString (caps ++ [host] ++ [path]) = Some x) ->
  exec urlReTail (user +:+ "@" +:+ host +:+ "/" +:+ path) caps k = Some x.
Proof.
  intros Hu Huc Hh Hhc Hp Hpc Hk. unfold urlReTail. apply exec_seq_some.
  apply exec_opt_take, exec_seq_some.
  apply exec_plus_some; [done | done | reflexivity |].
  rewrite sapp_cons, sapp_nil_l. apply exec_chr_some.
  apply exec_host_path; [done | | done | | ].
  - by apply (every_impl _ _ _ hostChar_not_slash).
  - by apply (every_impl _ _ _ urlChar_dot).
  - intros t. apply Hk.
Qed.

Lemma match_urlRe (scheme rest host path : string) :
  scheme ∈ schemes ->
  (forall (k : string -> string -> list string -> option (list string)) x,
     (forall t, k t EmptyString ([] ++ [host] ++ [path]) = Some x) ->
     exec urlReTail rest [] k = Some x) ->
  match_at_start urlRe (scheme +:+ "://" +:+ rest) = Some [host; path].
Proof.
  intros Hs Hrest. unfold match_at_start, urlRe.
  unfold schemes in Hs. rewrite !elem_of_cons in Hs.
  destruct Hs as [-> | [-> | [-> | [-> | Hs]]]]; [| | | | by apply elem_of_nil in Hs].
  - apply exec_seq_some, exec_alt_l, exec_lit_some, exec_seq_some, exec_lit_some.
    apply Hrest. reflexivity.
  - apply exec_seq_some, exec_alt_r; [reflexivity|].
    apply exec_alt_l, exec_seq_some, exec_lit_some, exec_opt_skip; [reflexivity|].
    apply exec_seq_some, exec_lit_some. apply Hrest. reflexivity.
  - apply exec_seq_some, exec_alt_r; [reflexivity|].
    apply exec_alt_l, exec_seq_some.
    change ("https" +:+ ?r) with ("http" +:+ String "s" r).
    apply exec_lit_some, exec_opt_take, exec_chr_some.
    apply exec_seq_some, exec_lit_some. apply Hrest. reflexivity.
  - apply exec_seq_some, exec_alt_r; [reflexivity|].
    apply exec_alt_r; [reflexivity|].
    apply exec_lit_some, exec_seq_some, exec_lit_some. apply Hrest. reflexivity.
Qed.

(** [sshRe] refuses what starts with a scheme of [urlRe]. *)
Lemma match_sshRe_scheme (scheme rest : string) :
  scheme ∈ schemes ->
  match_at_start sshRe (scheme +:+ "://" +:+ rest) = None.
Proof.
  unfold schemes. rewrite !elem_of_cons.
  intros [-> | [-> | [-> | [-> | Hs]]]]; [| | | | by apply elem_of_nil in Hs];
    reflexivity.
Qed.

(** [/\.git$/] matches at one place only: in front of a final [.git]. *)
Lemma exec_dotGitSuffix (s : string) :
  exec dotGitSuffixRe s [] (fun _ rest _ => Some rest)
  = if decide (s = ".git") then Some EmptyString else None.
Proof.
  unfold dotGitSuffixRe. cbn [exec lit].
  repeat (destruct s as [|? s]; [by case_decide|];
          match goal with
          | |- context [Ascii.eqb ?a ?b] =>
              destruct (Ascii.eqb_spec a b) as [->|?]; [|by case_decide; simplify_eq]
          end).
  destruct s; [by case_decide|]. by case_decide.
Qed.

Lemma remove_first_dotGit (p : string) :
  remove_first dotGitSuffixRe (p +:+ ".git") = p.
Proof.
  induction p as [|c p IH].
  - reflexivity.
  - rewrite sapp_cons.
    change (remove_first dotGitSuffixRe (String c (p +:+ ".git")))
      with (match exec dotGitSuffixRe (String c (p +:+ ".git")) []
                    (fun _ rest _ => Some rest) with
            | Some rest => rest
            | None => String c (remove_first dotGitSuffixRe (p +:+ ".git"))
            end).
    rewrite exec_dotGitSuffix, IH. case_decide as E; [|reflexivity].
    exfalso. apply (f_equal String.length) in E. simpl in E.
    assert (forall a b : string, String.length (a +:+ b) = String.length a + String.length b) as L.
    { clear. intros a b. induction a as [|x a IH]; [reflexivity|].
      rewrite sapp_cons. simpl. by rewrite IH. }
    rewrite L in E. simpl in E. lia.
Qed.

Lemma remove_first_no_dotGit (p : string) :
  (forall pre, p <> pre +:+ ".git") ->
  remove_first dotGitSuffixRe p = p.
Proof.
  induction p as [|c p IH]; intros Hno; [reflexivity|].
  change (remove_first dotGitSuffixRe (String c p))
    with (match exec dotGitSuffixRe (String c p) [] (fun _ rest _ => Some rest) with
          | Some rest => rest
          | None => String c (remove_first dotGitSuffixRe p)
          end).
  rewrite exec_dotGitSuffix. case_decide as E.
  - exfalso. apply (Hno EmptyString). by rewrite E.
  - rewrite IH; [reflexivity|]. intros pre ->. by apply (Hno (String c pre)).
Qed.

(** A suffix without [c] lies behind the last [c]. *)
Lemma suffix_after (c : ascii) (x y pre z : string) :
  every (notc c) z = true ->
  x +:+ String c y = pre +:+ z -> exists pre', y = pre' +:+ z.
Proof.
  intros Hz. revert pre. induction x as [|a x IH]; intros pre E.
  - rewrite sapp_nil_l in E. destruct pre as [|b pre].
    + rewrite sapp_nil_l in E. subst z. simpl in Hz. unfold notc in Hz.
      by rewrite Ascii.eqb_refl in Hz.
    + rewrite sapp_cons in E. injection E as _ ->. by eexists.
  - rewrite sapp_cons in E. destruct pre as [|b pre].
    + rewrite sapp_nil_l in E. subst z. simpl in Hz.
      apply andb_prop in Hz as [_ Hz]. rewrite every_app in Hz.
      apply andb_prop in Hz as [_ Hz]. simpl in Hz. unfold notc in Hz.
      by rewrite Ascii.eqb_refl in Hz.
    + rewrite sapp_cons in E. injection E as _ E. by apply (IH pre).
Qed.

Lemma no_dotGit_path (owner name : string) :
  endsWith ".git" name = false ->
  forall pre, owner +:+ "/" +:+ name <> pre +:+ ".git".
Proof.
  intros Hn pre E. rewrite sapp_cons, sapp_nil_l in E.
  apply suffix_after in E as [pre' ->]; [|reflexivity].
  by rewrite endsWith_app in Hn.
Qed.

End GitUrlFacts.

Module NormalizeGitUrl.
Import JsString Regex StringFacts RegexFacts GitUtils GitUrlFacts.

(** Both sides are the same string up to the grouping of [+:+]. *)
Ltac same_string :=
  repeat (rewrite sapp_assoc || rewrite sapp_cons || rewrite sapp_nil_l);
  reflexivity.

Lemma trim_tail (c : ascii) (pre tail : string) :
  is_ws c = false -> tail <> EmptyString -> every isUrlChar tail = true ->
  trim (String c pre +:+ tail) = String c pre +:+ tail.
Proof.
  intros Hc Hne Htail. unfold trim. rewrite sapp_cons. simpl trimStart.
  rewrite Hc, <- sapp_cons. apply trimEnd_app; [done|].
  apply trimEnd_every. by apply (every_impl _ _ _ urlChar_not_ws).
Qed.

Lemma trim_head (c : ascii) (s : string) :
  is_ws c = false -> exists s', trim (String c s) = String c s'.
Proof.
  intros Hc. unfold trim. simpl. rewrite Hc. simpl.
  destruct (trimEnd s); rewrite ?Hc; eauto.
Qed.

(** The path [owner/name] with an optional [.git]: what [(.+)$] captures
    and what is left of it without the suffix. *)
Lemma path_with_suffix (owner name sfx : string) :
  wellFormedSegment owner = true -> wellFormedSegment name = true ->
  endsWith ".git" name = false -> sfx ∈ [EmptyString; ".git"] ->
  let path := (owner +:+ "/" +:+ name) +:+ sfx in
  path <> EmptyString /\ every isUrlChar path = true
  /\ remove_first dotGitSuffixRe path = owner +:+ "/" +:+ name.
Proof.
  intros [Ho Hoc]%wellFormedSegment_inv [Hn Hnc]%wellFormedSegment_inv Hgit Hs.
  assert (every isUrlChar sfx = true) as Hsc.
  { rewrite !elem_of_cons in Hs. destruct Hs as [-> | [-> | Hs]];
      [done | done | by apply elem_of_nil in Hs]. }
  simpl. split; [|split].
  - intros [[E _]%sapp_eq_nil _]%sapp_eq_nil. done.
  - rewrite !every_app, Hoc, Hnc, Hsc. reflexivity.
  - rewrite !elem_of_cons in Hs. destruct Hs as [-> | [-> | Hs]];
      [| | by apply elem_of_nil in Hs].
    + rewrite sapp_nil_r. apply remove_first_no_dotGit. by apply no_dotGit_path.
    + apply remove_first_dotGit.
Qed.

Lemma normalize_ssh_form (host path : string) :
  wellFormedHost host = true ->
  path <> EmptyString -> every isUrlChar path = true ->
  normalizeGitUrl ("git@" +:+ host +:+ ":" +:+ path)
  = Some (host +:+ "/" +:+ remove_first dotGitSuffixRe path).
Proof.
  intros [Hh Hhc]%wellFormedHost_inv Hp Hpc. unfold normalizeGitUrl.
  replace ("git@" +:+ host +:+ ":" +:+ path)
    with (String "g" ("it@" +:+ host +:+ ":") +:+ path) by same_string.
  rewrite trim_tail by done.
  replace (String "g" ("it@" +:+ host +:+ ":") +:+ path)
    with ("git@" +:+ host +:+ ":" +:+ path) by same_string.
  rewrite match_sshRe; [reflexivity | done | | done |].
  - by apply (every_impl _ _ _ hostChar_not_colon).
  - by apply (every_impl _ _ _ urlChar_dot).
Qed.

Lemma trim_scheme (scheme middle tail : string) :
  scheme ∈ schemes -> tail <> EmptyString -> every isUrlChar tail = true ->
  truthy (scheme +:+ middle +:+ tail) = true
  /\ trim (scheme +:+ middle +:+ tail) = scheme +:+ middle +:+ tail.
Proof.
  intros Hs Hne Htail. unfold schemes in Hs. rewrite !elem_of_cons in Hs.
  destruct Hs as [-> | [-> | [-> | [-> | Hs]]]];
    [| | | | by apply elem_of_nil in Hs];
    (split; [reflexivity|]);
    rewrite <- sapp_assoc, sapp_cons; by apply trim_tail.
Qed.

Lemma normalize_url_form (scheme creds host path : string) :
  scheme ∈ schemes ->
  creds = EmptyString \/
    (exists user, wellFormedUser user = true /\ creds = user +:+ "@") ->
  wellFormedHost host = true ->
  path <> EmptyString -> every isUrlChar path = true ->
  normalizeGitUrl (scheme +:+ "://" +:+ creds +:+ host +:+ "/" +:+ path)
  = Some (host +:+ "/" +:+ remove_first dotGitSuffixRe path).
Proof.
  intros Hs Hcreds [Hh Hhc]%wellFormedHost_inv Hp Hpc. unfold normalizeGitUrl.
  replace (scheme +:+ "://" +:+ creds +:+ host +:+ "/" +:+ path)
    with (scheme +:+ ("://" +:+ creds +:+ host +:+ "/") +:+ path) by same_string.
  destruct (trim_scheme scheme ("://" +:+ creds +:+ host +:+ "/") path)
    as [-> ->]; [done..|].
  replace (scheme +:+ ("://" +:+ creds +:+ host +:+ "/") +:+ path)
    with (scheme +:+ "://" +:+ (creds +:+ host +:+ "/" +:+ path)) by same_string.
  rewrite match_sshRe_scheme by done. simpl negb. cbv iota.
  rewrite (match_urlRe scheme _ host path); [reflexivity | done |].
  intros k x Hk. destruct Hcreds as [-> | (user & [Hu Huc]%wellFormedUser_inv & ->)].
  - rewrite sapp_nil_l. by apply exec_urlReTail_plain.
  - replace ((user +:+ "@") +:+ host +:+ "/" +:+ path)
      with (user +:+ "@" +:+ host +:+ "/" +:+ path) by same_string.
    by apply exec_urlReTail_user.
Qed.

(** Where no component holds an [@]: [normalizeGitUrl] sends
    [git@host:owner/name], and [scheme://host/owner/name] and
    [scheme://user@host/owner/name] for the schemes ssh, http, https and
    git, each with or without a final [.git], to [host/owner/name]; hence
    the SSH and the HTTPS form of one repository normalize to the same
    string.  It answers nothing for a [file://] URL and for any input that
    neither pattern matches. *)
Lemma normalizeGitUrl_without_at_sign (host owner name : string) :
  wellFormedHost host = true ->
  wellFormedSegment owner = true ->
  wellFormedSegment name = true ->
  endsWith ".git" name = false ->
  let normal := Some (host +:+ "/" +:+ owner +:+ "/" +:+ name) in
  (forall sfx, sfx ∈ [EmptyString; ".git"] ->
     normalizeGitUrl
       ("git@" +:+ host +:+ ":" +:+ owner +:+ "/" +:+ name +:+ sfx) = normal
     /\ forall scheme, scheme ∈ schemes ->
          normalizeGitUrl
            (scheme +:+ "://" +:+ host +:+ "/" +:+ owner +:+ "/" +:+ name +:+ sfx)
          = normal
          /\ forall user, wellFormedUser user = true ->
               normalizeGitUrl
                 (scheme +:+ "://" +:+ user +:+ "@" +:+ host +:+ "/"
                    +:+ owner +:+ "/" +:+ name +:+ sfx)
               = normal)
  /\ (forall rest, normalizeGitUrl ("file://" +:+ rest) = None)
  /\ (forall url,
        match_at_start sshRe (trim url) = None ->
        match_at_start urlRe (trim url) = None ->
        normalizeGitUrl url = None).
Proof.
  intros Hhost Howner Hname Hgit normal. split; [|split].
  - intros sfx Hsfx.
    destruct (path_with_suffix owner name sfx) as (Hp & Hpc & Hrm); [done..|].
    split; [|intros scheme Hscheme; split; [|intros user Huser]].
    + replace ("git@" +:+ host +:+ ":" +:+ owner +:+ "/" +:+ name +:+ sfx)
        with ("git@" +:+ host +:+ ":" +:+ ((owner +:+ "/" +:+ name) +:+ sfx))
        by same_string.
      rewrite normalize_ssh_form by done. by rewrite Hrm.
    + replace (scheme +:+ "://" +:+ host +:+ "/" +:+ owner +:+ "/" +:+ name +:+ sfx)
        with (scheme +:+ "://" +:+ EmptyString +:+ host +:+ "/"
                +:+ ((owner +:+ "/" +:+ name) +:+ sfx)) by same_string.
      rewrite normalize_url_form; [by rewrite Hrm | done | by left | done..].
    + replace (scheme +:+ "://" +:+ user +:+ "@" +:+ host +:+ "/"
                 +:+ owner +:+ "/" +:+ name +:+ sfx)
        with (scheme +:+ "://" +:+ (user +:+ "@") +:+ host +:+ "/"
                +:+ ((owner +:+ "/" +:+ name) +:+ sfx)) by same_string.
      rewrite normalize_url_form; [by rewrite Hrm | done | | done..].
      right. by exists user.
  - intros rest. unfold normalizeGitUrl.
    change ("file://" +:+ rest) with (String "f" ("ile://" +:+ rest)).
    destruct (trim_head "f" ("ile://" +:+ rest)) as [s' ->]; [done|].
    assert (match_at_start sshRe (String "f" s') = None) as -> by reflexivity.
    assert (match_at_start urlRe (String "f" s') = None) as -> by reflexivity.
    simpl negb. cbv iota. by destruct (startsWith _ _).
  - intros url Hssh Hurl. unfold normalizeGitUrl. rewrite Hssh, Hurl.
    destruct (negb (truthy url)), (startsWith "file://" (trim url)); reflexivity.
Qed.

Lemma normalizeGitUrl_without_at_sign_witness :
  wellFormedHost "github.com" = true
  /\ wellFormedSegment "u" = true
  /\ wellFormedSegment "r" = true
  /\ endsWith ".git" "r" = false
  /\ normalizeGitUrl "git@github.com:u/r.git" = Some "github.com/u/r"
  /\ normalizeGitUrl "https://github.com/u/r.git" = Some "github.com/u/r".
Proof.
  pose proof (normalizeGitUrl_without_at_sign "github.com" "u" "r"
                eq_refl eq_refl eq_refl eq_refl) as [H _].
  destruct (H ".git") as [Hssh Hurl].
  { apply elem_of_cons. right. apply elem_of_cons. by left. }
  destruct (Hurl "https") as [Hhttps _].
  { unfold schemes. apply elem_of_cons. right. apply elem_of_cons. right.
    apply elem_of_cons. by left. }
  do 4 (split; [reflexivity|]). split; [exact Hssh | exact Hhttps].
Defined.

(** C3.  An [@] in the path of an HTTPS URL: the optional credentials
    of the URL pattern, [(?:[^@]+@)?], then take the host and the path up
    to the [@] for credentials, and [normalizeGitUrl] answers what is left
    without the host, while the SSH form of the same repository keeps
    host, owner and name. *)
Theorem normalizeGitUrl_credentials_swallow_host :
  normalizeGitUrl "https://github.com/a@b/c.git" = Some "b/c"
  /\ normalizeGitUrl "git@github.com:a@b/c.git" = Some "github.com/a@b/c"
  /\ normalizeGitUrl "https://github.com/a@b/c.git"
     <> Some ("github.com" +:+ "/" +:+ "a@b" +:+ "/" +:+ "c").
Proof.
  split; [vm_compute; reflexivity|]. split; [vm_compute; reflexivity|].
  vm_compute. discriminate.
Qed.

End NormalizeGitUrl.

Module ExampleWorldFacts.
Import JsString Node StringFacts.

Lemma take_length (n : nat) (a b : string) :
  n <= String.length b -> String.length (take n (a +:+ b)) = n.
Proof.
  revert n. induction a as [|c a IH]; intros n Hn.
  - rewrite sapp_nil_l. revert n Hn.
    induction b as [|c b IHb]; intros [|n] Hn; simpl in *; try lia.
    rewrite IHb by lia. reflexivity.
  - rewrite sapp_cons. destruct n; simpl; [done|].
    simpl in Hn. rewrite IH by lia. reflexivity.
Qed.

Lemma world_md5 files git : md5_is_hex32 (ExampleWorld.world files git).
Proof. intros s. apply take_length. simpl. lia. Qed.

End ExampleWorldFacts.

Module GitUtilsFacts.
Import JsString Regex Node GitUtils StringFacts.

(** The loop of [findGitPath] does not depend on how much fuel is left once
    there is more of it than the path has characters: on a walk along
    which [path.dirname] shortens the path, the loop ends by itself. *)
Lemma findGitPath_loop_fuel (w : World) (root : string) (fuel1 fuel2 : nat)
    (start : string) :
  walk_shortens w root start ->
  String.length start < fuel1 -> String.length start < fuel2 ->
  findGitPath_loop w fuel1 root start = findGitPath_loop w fuel2 root start.
Proof.
  revert fuel2 start. induction fuel1 as [|fuel1 IH]; intros fuel2 start Hwalk H1 H2;
    [lia|].
  destruct fuel2 as [|fuel2]; [lia|]. simpl.
  case_decide as Hroot; [reflexivity|].
  assert (String.length (path_dirname w start) < String.length start) as Hlt
    by apply (Hwalk 0 Hroot).
  assert (walk_shortens w root (path_dirname w start)) as Hwalk'.
  { intros n. pose proof (Hwalk (S n)) as H. cbv zeta in *.
    rewrite Nat.iter_succ_r in H. exact H. }
  destruct (statSync w _) as [[]|]; try reflexivity; apply IH; (done || lia).
Qed.

(** C10.  When the [.git] entry found above a path is a file that cannot be
    read, or whose trimmed content is no [gitdir: <path>] pointer,
    [detectGitRepo] answers as for a regular repository rooted at the
    directory of that file. *)
Theorem detectGitRepo_unparsable_git_file (w : World)
    (targetPath gitFile : string) :
  findGitPath w (path_resolve w [targetPath]) = Some (gitFile, true) ->
  (readFileSync w gitFile = None
   \/ exists content,
        readFileSync w gitFile = Some content
        /\ match_at_start gitdirRe (trim content) = None) ->
  detectGitRepo w targetPath
  = {| isGitRepo := true;
       repoRoot := Some (path_dirname w gitFile);
       isWorktree := false;
       mainGitDir := None;
       gitPath := Some gitFile |}.
Proof.
  intros Hfind Hfile. unfold detectGitRepo. rewrite Hfind. simpl.
  unfold readWorktreePointer.
  destruct Hfile as [-> | (content & -> & ->)]; reflexivity.
Qed.

Lemma detectGitRepo_unparsable_git_file_witness :
  detectGitRepo ExampleWorld.example "/srv/odd/sub"
  = {| isGitRepo := true;
       repoRoot := Some "/srv/odd";
       isWorktree := false;
       mainGitDir := None;
       gitPath := Some "/srv/odd/.git" |}.
Proof.
  apply (detectGitRepo_unparsable_git_file ExampleWorld.example
           "/srv/odd/sub" "/srv/odd/.git").
  - vm_compute. reflexivity.
  - right. exists "not a pointer". split; vm_compute; reflexivity.
Defined.

End GitUtilsFacts.

Module RepoIdentityFacts.
Import JsString Regex Node StringFacts.
Import RepoIdentity.

Lemma md5_truthy (w : World) (s : string) :
  md5_is_hex32 w -> truthy (md5 w s) = true.
Proof.
  intros H. specialize (H s). destruct (md5 w s); [discriminate|reflexivity].
Qed.

(** A canonical ID is an MD5 digest, whichever way it is derived. *)
Lemma canonicalId_is_digest (w : World) (includeWorktrees : bool) (p : string) :
  exists s, canonicalId (resolveIdentity_with w includeWorktrees p) = md5 w s.
Proof.
  unfold resolveIdentity_with. repeat case_match; eexists; reflexivity.
Qed.

Lemma canonicalId_truthy (w : World) (p : string) :
  md5_is_hex32 w -> truthy (canonicalId (resolveIdentity w p)) = true.
Proof.
  intros H. destruct (canonicalId_is_digest w true p) as [s Hs].
  unfold resolveIdentity. rewrite Hs. by apply md5_truthy.
Qed.

Lemma normalizeGitUrl_truthy (url normalized : string) :
  GitUtils.normalizeGitUrl url = Some normalized -> truthy normalized = true.
Proof.
  unfold GitUtils.normalizeGitUrl. intros H.
  repeat case_match; simplify_eq;
    match goal with
    | |- truthy (?host +:+ _) = true =>
        destruct host; [reflexivity | by rewrite sapp_cons]
    end.
Qed.

(** C2.  The canonical ID is derived by the first of three ways that
    succeeds.  When [git config --get remote.origin.url] answers and its
    trimmed output normalizes, the ID is the hash of the normalized URL,
    with source ['remote-url'].  Else, when
    [git rev-list --max-parents=0 HEAD] answers a commit, the ID is the
    hash of [commit:] followed by the trimmed output, with source
    ['initial-commit'].  Else, as in a repository without commits, it is
    the hash of the repository root, with source ['path-hash'].  Outside
    a git repository it is the hash of the resolved path, which is then
    the only detected path. *)
Theorem resolveIdentity_first_success (w : World) (targetPath : string) :
  let resolvedPath := path_resolve w [targetPath] in
  let gitInfo := GitUtils.detectGitRepo w resolvedPath in
  let id := resolveIdentity w targetPath in
  (GitUtils.isGitRepo gitInfo = false ->
     canonicalId id = md5 w resolvedPath
     /\ identitySource id = PathHash
     /\ detectedPaths id = [resolvedPath]
     /\ isGitRepo id = false)
  /\ (forall root,
        GitUtils.isGitRepo gitInfo = true ->
        GitUtils.repoRoot gitInfo = Some root -> truthy root = true ->
        let originOut := execSync w "git config --get remote.origin.url" root in
        let commitOut := execSync w "git rev-list --max-parents=0 HEAD" root in
        let noOrigin :=
          forall out,
            originOut = Some out -> GitUtils.normalizeGitUrl (trim out) = None in
        (forall out url,
           originOut = Some out ->
           GitUtils.normalizeGitUrl (trim out) = Some url ->
           canonicalId id = md5 w url
           /\ identitySource id = RemoteUrl
           /\ remoteUrl id = Some url)
        /\ (noOrigin ->
            forall out,
              commitOut = Some out -> trim out <> EmptyString ->
              canonicalId id = md5 w ("commit:" +:+ trim out)
              /\ identitySource id = InitialCommit)
        /\ (noOrigin ->
            (forall out, commitOut = Some out -> trim out = EmptyString) ->
            canonicalId id = md5 w root
            /\ identitySource id = PathHash
            /\ isGitRepo id = true)).
Proof.
  intros resolvedPath gitInfo id. subst id.
  unfold resolveIdentity, resolveIdentity_with.
  fold resolvedPath. fold gitInfo. split.
  - intros ->. done.
  - intros root -> -> ->. cbv zeta.
    unfold GitUtils.getRemoteOriginUrl, GitUtils.getInitialCommitSha,
      GitUtils.execGitCommand.
    assert (forall out,
              execSync w "git config --get remote.origin.url" root = Some out ->
              GitUtils.normalizeGitUrl (trim out) = None ->
              and_then_truthy
                (and_then_truthy (Some (trim out)) GitUtils.normalizeGitUrl)
                Some = None) as Hnone.
    { intros out _ Hn. simpl. destruct (truthy (trim out)); [|done].
      by rewrite Hn. }
    split; [|split].
    + intros out url -> Hurl. simpl.
      destruct (truthy (trim out)) eqn:Hout.
      * rewrite Hurl. simpl. rewrite (normalizeGitUrl_truthy _ _ Hurl). done.
      * destruct (trim out); [|discriminate Hout]. discriminate Hurl.
    + intros Hno out Hcommit Hsha.
      destruct (execSync w "git config --get remote.origin.url" root)
        as [origin|] eqn:Horigin.
      * rewrite (Hnone origin eq_refl (Hno origin eq_refl)).
        rewrite Hcommit. simpl.
        destruct (trim out) eqn:Htrim; [done|]. done.
      * simpl. rewrite Hcommit. simpl.
        destruct (trim out) eqn:Htrim; [done|]. done.
    + intros Hno Hcommit.
      assert (and_then_truthy
                match execSync w "git rev-list --max-parents=0 HEAD" root with
                | Some result => Some (trim result)
                | None => None
                end Some = None) as Hsha.
      { destruct (execSync w "git rev-list --max-parents=0 HEAD" root)
          as [out|]; [|done].
        by rewrite (Hcommit out eq_refl). }
      destruct (execSync w "git config --get remote.origin.url" root)
        as [origin|] eqn:Horigin.
      * rewrite (Hnone origin eq_refl (Hno origin eq_refl)).
        by rewrite Hsha.
      * simpl. by rewrite Hsha.
Qed.

Lemma resolveIdentity_first_success_witness :
  (canonicalId (resolveIdentity ExampleWorld.example "/srv/clone")
     = ExampleWorld.digest "github.com/x/y"
   /\ identitySource (resolveIdentity ExampleWorld.example "/srv/clone")
      = RemoteUrl)
  /\ (canonicalId (resolveIdentity ExampleWorld.example "/srv/local")
        = ExampleWorld.digest "commit:9fceb02d0ae598e95dc970b74767f19372d61af8"
      /\ identitySource (resolveIdentity ExampleWorld.example "/srv/local")
         = InitialCommit)
  /\ (canonicalId (resolveIdentity ExampleWorld.example "/srv/fresh")
        = ExampleWorld.digest "/srv/fresh"
      /\ identitySource (resolveIdentity ExampleWorld.example "/srv/fresh")
         = PathHash
      /\ isGitRepo (resolveIdentity ExampleWorld.example "/srv/fresh") = true)
  /\ (canonicalId (resolveIdentity ExampleWorld.example "/tmp/p")
        = ExampleWorld.digest "/tmp/p"
      /\ identitySource (resolveIdentity ExampleWorld.example "/tmp/p") = PathHash
      /\ detectedPaths (resolveIdentity ExampleWorld.example "/tmp/p") = ["/tmp/p"]
      /\ isGitRepo (resolveIdentity ExampleWorld.example "/tmp/p") = false).
Proof.
  split; [|split; [|split]].
  - destruct (resolveIdentity_first_success ExampleWorld.example "/srv/clone")
      as [_ H].
    destruct (H "/srv/clone") as (Hurl & _); [vm_compute; reflexivity..|].
    destruct (Hurl ("git@github.com:x/y.git" +:+ String "010" EmptyString)
                "github.com/x/y") as (Hid & Hsource & _);
      [vm_compute; reflexivity..|].
    split; [exact Hid | exact Hsource].
  - destruct (resolveIdentity_first_success ExampleWorld.example "/srv/local")
      as [_ H].
    destruct (H "/srv/local") as (_ & Hcommit & _); [vm_compute; reflexivity..|].
    apply (Hcommit ltac:(intros out Hout; vm_compute in Hout; discriminate Hout)
             ("9fceb02d0ae598e95dc970b74767f19372d61af8"
                +:+ String "010" EmptyString));
      [vm_compute; reflexivity | vm_compute; discriminate].
  - destruct (resolveIdentity_first_success ExampleWorld.example "/srv/fresh")
      as [_ H].
    destruct (H "/srv/fresh") as (_ & _ & Hnone); [vm_compute; reflexivity..|].
    apply Hnone; intros out Hout; vm_compute in Hout; discriminate Hout.
  - apply (resolveIdentity_first_success ExampleWorld.example "/tmp/p").
    vm_compute. reflexivity.
Defined.

End RepoIdentityFacts.

Module RepoRegistryFacts.
Import JsString Node.
Import RepoRegistry.

Section WithWorld.
Context (w : World).

(** The canonical ID that [resolve] and [register] compute for a path. *)
Local Abbreviation cidOf p :=
  (RepoIdentity.canonicalId
     (RepoIdentity.resolveIdentity w (path_resolve w [p]))).

Lemma push_new_elem (l : list string) (p q : string) :
  q ∈ RepoIdentity.push_new l p <-> q ∈ l \/ q = p.
Proof.
  unfold RepoIdentity.push_new, RepoIdentity.includes.
  case_bool_decide as Hin.
  - split; [by left|]. intros [?| ->]; done.
  - rewrite elem_of_app, list_elem_of_singleton. done.
Qed.

Lemma empty_consistent : consistent w empty.
Proof. intros p c H. simpl in H. by rewrite lookup_empty in H. Qed.

(** What [register] leaves behind: the record it answers is filed under
    the canonical ID of the path, and the path is filed under that ID. *)
Lemma register_files (targetPath : string) (options : RegisterOptions)
    (now : string) (r : RepoRegistry) :
  let '(rec, r') := register w targetPath options now r in
  repositories r' !! cidOf targetPath = Some rec
  /\ path_resolve w [targetPath] ∈ knownPaths rec
  /\ (forall c, c <> cidOf targetPath ->
        repositories r' !! c = repositories r !! c)
  /\ (forall rec0, repositories r !! cidOf targetPath = Some rec0 ->
        forall q, q ∈ knownPaths rec0 -> q ∈ knownPaths rec)
  /\ (forall q, q <> path_resolve w [targetPath] ->
        pathToCanonicalId r' !! q = pathToCanonicalId r !! q)
  /\ (pathToCanonicalId r' !! path_resolve w [targetPath] = Some (cidOf targetPath)
      \/ pathToCanonicalId r' !! path_resolve w [targetPath]
         = pathToCanonicalId r !! path_resolve w [targetPath]).
Proof.
  unfold register, bind, this, put, ret.
  destruct (repositories r !! cidOf targetPath) as [rec0|] eqn:Hrec; simpl.
  - rewrite lookup_insert_eq. split; [done|]. split; [|split; [|split; [|split]]].
    + apply push_new_elem. by right.
    + intros c Hc. by rewrite lookup_insert_ne.
    + intros ? [= <-] q Hq. apply push_new_elem. by left.
    + intros q Hq. destruct (RepoIdentity.includes _ _); [done|].
      by rewrite lookup_insert_ne.
    + destruct (RepoIdentity.includes _ _); [by right|].
      left. by rewrite lookup_insert_eq.
  - rewrite !lookup_insert_eq. split; [done|]. split; [|split; [|split; [|split]]].
    + apply list_elem_of_singleton. done.
    + intros c Hc. by rewrite lookup_insert_ne.
    + done.
    + intros q Hq. by rewrite lookup_insert_ne.
    + by left.
Qed.

Lemma register_consistent (targetPath : string) (options : RegisterOptions)
    (now : string) (r : RepoRegistry) :
  consistent w r -> consistent w (register w targetPath options now r).2.
Proof.
  intros Hr. pose proof (register_files targetPath options now r) as H.
  destruct (register w targetPath options now r) as [rec r']. simpl.
  destruct H as (Hrec & Hin & Hother & Hkeep & Hpaths & Hpath).
  intros q c Hq.
  destruct (decide (q = path_resolve w [targetPath])) as [-> | Hne].
  - destruct Hpath as [Hpath | Hpath]; rewrite Hpath in Hq.
    + injection Hq as <-. split; [done|]. by exists rec.
    + destruct (Hr _ _ Hq) as [-> (rec0 & Hrec0 & Hin0)].
      split; [done|]. by exists rec.
  - rewrite Hpaths in Hq by done.
    destruct (Hr _ _ Hq) as [-> (rec0 & Hrec0 & Hin0)]. split; [done|].
    destruct (decide (RepoIdentity.canonicalId (RepoIdentity.resolveIdentity w q)
                      = cidOf targetPath)) as [E | E].
    + exists rec. rewrite E. split; [done|].
      rewrite E in Hrec0. by apply (Hkeep rec0).
    + exists rec0. by rewrite Hother.
Qed.

(** [register] files the path it is given, and nothing else. *)
Lemma register_tracks (targetPath : string) (options : RegisterOptions)
    (now : string) (paths : list string) (r : RepoRegistry) :
  tracks w paths r ->
  tracks w (paths ++ [path_resolve w [targetPath]])
    (register w targetPath options now r).2.
Proof.
  intros (Hr & Hback & Hdom).
  split; [by apply register_consistent|].
  unfold register, bind, this, put, ret.
  destruct (repositories r !! cidOf targetPath) as [rec0|] eqn:Hrec; simpl.
  - destruct (RepoIdentity.includes (path_resolve w [targetPath])
                (knownPaths rec0)) eqn:Hinc.
    + assert (pathToCanonicalId r !! path_resolve w [targetPath]
              = Some (cidOf targetPath)) as Hfiled.
      { apply (Hback _ rec0); [done|].
        unfold RepoIdentity.includes in Hinc. by apply bool_decide_eq_true in Hinc. }
      split.
      * intros id rec p Hid Hp.
        destruct (decide (id = cidOf targetPath)) as [-> | Hne].
        -- rewrite lookup_insert_eq in Hid. injection Hid as <-. simpl in Hp.
           apply push_new_elem in Hp as [Hp | ->]; [|done].
           by apply (Hback _ rec0).
        -- rewrite lookup_insert_ne in Hid by done. by apply (Hback _ rec).
      * intros p. rewrite Hdom, elem_of_app, list_elem_of_singleton.
        split; [by left|]. intros [?| ->]; [done|].
        apply Hdom. by eexists.
    + split.
      * intros id rec p Hid Hp.
        destruct (decide (id = cidOf targetPath)) as [-> | Hne].
        -- rewrite lookup_insert_eq in Hid. injection Hid as <-. simpl in Hp.
           apply push_new_elem in Hp as [Hp | ->];
             [|by rewrite lookup_insert_eq].
           destruct (decide (p = path_resolve w [targetPath])) as [-> | Hp'];
             [by rewrite lookup_insert_eq|].
           rewrite lookup_insert_ne by done. by apply (Hback _ rec0).
        -- rewrite lookup_insert_ne in Hid by done.
           pose proof (Hback _ _ _ Hid Hp) as Hfiled.
           destruct (decide (p = path_resolve w [targetPath])) as [-> | Hp'].
           ++ destruct (Hr _ _ Hfiled) as [E _]. by destruct Hne.
           ++ by rewrite lookup_insert_ne.
      * intros p. rewrite elem_of_app, list_elem_of_singleton, <- Hdom.
        destruct (decide (p = path_resolve w [targetPath])) as [-> | Hp'].
        -- rewrite lookup_insert_eq. split; [by right | by eexists].
        -- rewrite lookup_insert_ne by done. split; [by left|].
           by intros [?|?].
  - split.
    + intros id rec p Hid Hp.
      destruct (decide (id = cidOf targetPath)) as [-> | Hne].
      * rewrite lookup_insert_eq in Hid. injection Hid as <-. simpl in Hp.
        apply list_elem_of_singleton in Hp as ->. by rewrite lookup_insert_eq.
      * rewrite lookup_insert_ne in Hid by done.
        pose proof (Hback _ _ _ Hid Hp) as Hfiled.
        destruct (decide (p = path_resolve w [targetPath])) as [-> | Hp'].
        -- destruct (Hr _ _ Hfiled) as [E _]. by destruct Hne.
        -- by rewrite lookup_insert_ne.
    + intros p. rewrite elem_of_app, list_elem_of_singleton, <- Hdom.
      destruct (decide (p = path_resolve w [targetPath])) as [-> | Hp'].
      * rewrite lookup_insert_eq. split; [by right | by eexists].
      * rewrite lookup_insert_ne by done. split; [by left|].
        by intros [?|?].
Qed.

Lemma empty_tracks : tracks w [] empty.
Proof.
  split; [apply empty_consistent|]. split.
  - intros id rec p H. simpl in H. by rewrite lookup_empty in H.
  - intros p. simpl. rewrite lookup_empty. split; [by intros [? ?]|].
    by intros ?%elem_of_nil.
Qed.

Lemma registerAll_tracks (calls : list (string * RegisterOptions * string))
    (paths : list string) (r : RepoRegistry) :
  tracks w paths r ->
  tracks w (paths ++ registeredPaths w calls) (registerAll w calls r).
Proof.
  revert paths r. induction calls as [|[[p o] now] calls IH]; intros paths r Hr.
  - simpl. by rewrite app_nil_r.
  - change (registerAll w ((p, o, now) :: calls) r)
      with (registerAll w calls (register w p o now r).2).
    change (registeredPaths w ((p, o, now) :: calls))
      with ([path_resolve w [p]] ++ registeredPaths w calls).
    rewrite List.app_assoc. apply IH. by apply register_tracks.
Qed.

(** C1.  In a registry filled by [register] calls, one of them for [p1],
    a path [p2] with the canonical ID of [p1] resolves to the record of
    that ID, which lists [p1]: [found] is true, the flag
    [isNewPathForExistingRepo] is true exactly when no call registered
    [p2] itself, and the registry is left as it was, so its size does not
    change. *)
Theorem resolve_same_repository
    (calls : list (string * RegisterOptions * string)) (p1 p2 : string) :
  md5_is_hex32 w ->
  path_resolve w [p1] ∈ registeredPaths w calls ->
  cidOf p2 = cidOf p1 ->
  let r1 := registerAll w calls empty in
  exists res rec,
    resolve w p2 r1 = (Some res, r1)
    /\ found res = true
    /\ record res = Some rec
    /\ repositories r1 !! cidOf p2 = Some rec
    /\ path_resolve w [p1] ∈ knownPaths rec
    /\ (isNewPathForExistingRepo res = true
        <-> path_resolve w [p2] ∉ registeredPaths w calls)
    /\ size (resolve w p2 r1).2 = size r1.
Proof.
  intros Hmd5 Hp1 Hcid r1.
  destruct (registerAll_tracks calls [] empty empty_tracks)
    as (Hr1 & Hback & Hdom). fold r1 in Hr1, Hback, Hdom.
  rewrite app_nil_l in Hdom.
  apply Hdom in Hp1 as [c Hc]. destruct (Hr1 _ _ Hc) as [-> (rec & Hrec & Hin)].
  fold (cidOf p1) in Hrec. rewrite <- Hcid in Hrec.
  unfold resolve, bind, this, ret. simpl.
  destruct (pathToCanonicalId r1 !! path_resolve w [p2]) as [direct|] eqn:Hdirect.
  - destruct (Hr1 _ _ Hdirect) as [-> _].
    rewrite RepoIdentityFacts.canonicalId_truthy by done. rewrite Hrec.
    exists {| found := true; record := Some rec;
              identity := RepoIdentity.resolveIdentity w (path_resolve w [p2]);
              isNewPathForExistingRepo := false;
              primaryPath := head (knownPaths rec) |}, rec.
    simpl. repeat split; try done. intros Hnot. exfalso. apply Hnot, Hdom.
    by eexists.
  - rewrite Hrec.
    exists {| found := true; record := Some rec;
              identity := RepoIdentity.resolveIdentity w (path_resolve w [p2]);
              isNewPathForExistingRepo := true;
              primaryPath := head (knownPaths rec) |}, rec.
    simpl. repeat split; try done. intros _ [c Hc']%Hdom. congruence.
Qed.

End WithWorld.

Lemma resolve_same_repository_witness :
  let now := "2026-01-01T00:00:00.000Z" in
  let r1 := registerAll ExampleWorld.example [("/srv/clone", noOptions, now)]
              empty in
  (exists res rec,
     resolve ExampleWorld.example "/srv/mirror" r1 = (Some res, r1)
     /\ found res = true /\ record res = Some rec
     /\ "/srv/clone" ∈ knownPaths rec
     /\ isNewPathForExistingRepo res = true)
  /\ (exists res rec,
        resolve ExampleWorld.example "/srv/clone" r1 = (Some res, r1)
        /\ found res = true /\ record res = Some rec
        /\ isNewPathForExistingRepo res = false).
Proof.
  intros now r1. split.
  - destruct (resolve_same_repository ExampleWorld.example
                [("/srv/clone", noOptions, now)] "/srv/clone" "/srv/mirror")
      as (res & rec & Hres & Hfound & Hrecord & _ & Hin & Hnew & _).
    + apply ExampleWorldFacts.world_md5.
    + vm_compute. left.
    + vm_compute. reflexivity.
    + exists res, rec. split; [exact Hres|]. split; [exact Hfound|].
      split; [exact Hrecord|]. split; [exact Hin|].
      apply Hnew. vm_compute. intros Hclone.
      apply list_elem_of_singleton in Hclone. discriminate Hclone.
  - destruct (resolve_same_repository ExampleWorld.example
                [("/srv/clone", noOptions, now)] "/srv/clone" "/srv/clone")
      as (res & rec & Hres & Hfound & Hrecord & _ & _ & Hnew & _).
    + apply ExampleWorldFacts.world_md5.
    + vm_compute. left.
    + reflexivity.
    + exists res, rec. split; [exact Hres|]. split; [exact Hfound|].
      split; [exact Hrecord|].
      destruct (isNewPathForExistingRepo res); [|reflexivity].
      exfalso. apply (proj1 Hnew eq_refl). vm_compute. left.
Defined.

End RepoRegistryFacts.

Module CollectionMigratorFacts.
Import JsString Node.
Import CollectionMigrator.

(** After [addMigrationMapping], the first mapping with the old name is the
    one just recorded. *)
Lemma addMigrationMapping_found (l : list CollectionMigrationMapping)
    (oldName_ newName_ canonicalId_ path_ now : string) :
  exists previous,
    findMappingByLegacyName
      (addMigrationMapping {| mappings := l |} oldName_ newName_ canonicalId_
         path_ now) oldName_
    = Some {| oldName := oldName_; newName := newName_;
              canonicalId := canonicalId_; path := path_;
              createdAt := now; migrated := false; migratedAt := previous |}.
Proof.
  unfold findMappingByLegacyName, addMigrationMapping. simpl.
  induction l as [|x l IH]; simpl.
  - exists None. by rewrite bool_decide_eq_true_2.
  - destruct (bool_decide (oldName x = oldName_) || bool_decide (path x = path_))
      eqn:Hx; simpl.
    + eexists. by rewrite bool_decide_eq_true_2.
    + apply orb_false_elim in Hx as [Hx _].
      destruct IH as [previous IH].
      destruct (findIndex _ l) as [i|]; simpl in *; rewrite Hx; eauto.
Qed.

Section WithWorld.
Context (w : World).

(** C4.  With the legacy name in the set of existing collections,
    [resolveCollectionName] answers the legacy name, flags it as legacy and
    records the mapping to the canonical name; otherwise it answers the
    canonical name, flags it as not legacy and records nothing.  Both names
    are the prefix followed by the first 8, respectively 12, characters of
    an MD5 digest.  A second call with the same set of collections answers
    the same name. *)
Theorem resolveCollectionName_policy (codebasePath : string) (isHybrid : bool)
    (now now' : string) (m : Migrator) :
  let legacy :=
    prefix isHybrid +:+ "_" +:+ take 8 (md5 w (path_resolve w [codebasePath])) in
  let canonicalId_ :=
    RepoIdentity.canonicalId (RepoIdentity.resolveIdentity w codebasePath) in
  let canonical := prefix isHybrid +:+ "_" +:+ take 12 (md5 w canonicalId_) in
  let res := (resolveCollectionName w codebasePath isHybrid now m).1 in
  let m' := (resolveCollectionName w codebasePath isHybrid now m).2 in
  (legacy ∈ existingCollections m ->
     collectionName res = legacy /\ isLegacy res = true
     /\ exists previous,
          findMappingByLegacyName (state m') legacy
          = Some {| oldName := legacy; newName := canonical;
                    canonicalId := canonicalId_;
                    path := path_resolve w [codebasePath];
                    createdAt := now; migrated := false;
                    migratedAt := previous |})
  /\ (legacy ∉ existingCollections m ->
        collectionName res = canonical /\ isLegacy res = false /\ m' = m)
  /\ existingCollections m' = existingCollections m
  /\ collectionName (resolveCollectionName w codebasePath isHybrid now' m').1
     = collectionName res.
Proof.
  intros legacy canonicalId_ canonical res m'. subst res m'.
  unfold resolveCollectionName, generateCollectionNames,
    generateLegacyCollectionName, generateCanonicalCollectionName, hasCollection.
  fold legacy. fold canonicalId_. fold canonical.
  case_bool_decide as Hlegacy; simpl.
  - rewrite (bool_decide_eq_true_2 _ Hlegacy). simpl.
    split; [|done]. intros _. split; [done|]. split; [done|].
    destruct (state m) as [l]. apply addMigrationMapping_found.
  - case_bool_decide as Hcanonical; simpl;
      rewrite (bool_decide_eq_false_2 _ Hlegacy), ?Hcanonical; simpl;
      try rewrite (bool_decide_eq_true_2 _ Hcanonical);
      try rewrite (bool_decide_eq_false_2 _ Hcanonical); done.
Qed.

End WithWorld.

Lemma resolveCollectionName_policy_witness :
  let m := setExistingCollections ["hybrid_code_chunks_/tmp/p01"]
             {| state := {| mappings := [] |}; existingCollections := ∅ |} in
  let res := (resolveCollectionName ExampleWorld.example "/tmp/p" true
                "2026-01-01T00:00:00.000Z" m).1 in
  collectionName res = "hybrid_code_chunks_/tmp/p01" /\ isLegacy res = true.
Proof.
  intros m res.
  destruct (resolveCollectionName_policy ExampleWorld.example "/tmp/p" true
              "2026-01-01T00:00:00.000Z" "2026-01-02T00:00:00.000Z" m)
    as [Hlegacy _].
  destruct Hlegacy as (Hname & Hflag & _).
  - vm_compute. reflexivity.
  - split; [exact Hname | exact Hflag].
Defined.

End CollectionMigratorFacts.

Module AuthFacts.
Import JsString StringFacts.
Import Http.

Lemma split_nonempty (c : ascii) (s : string) : split c s <> [].
Proof.
  induction s as [|x s IH]; simpl; [done|].
  destruct (Ascii.eqb x c); [done|]. by destruct (split c s).
Qed.

Lemma split_one (c : ascii) (s b : string) : split c s = [b] -> s = b.
Proof.
  revert b. induction s as [|x s IH]; intros b; simpl.
  - by intros [= <-].
  - destruct (Ascii.eqb x c).
    + intros [= _ H]. by apply split_nonempty in H.
    + destruct (split c s) as [|w ws] eqn:E; [by apply split_nonempty in E|].
      intros [= <- ->]. by rewrite (IH w).
Qed.

Lemma split_two (c : ascii) (s a b : string) :
  split c s = [a; b] -> s = a +:+ String c b.
Proof.
  revert a. induction s as [|x s IH]; intros a; simpl; [done|].
  destruct (Ascii.eqb_spec x c) as [-> | Hx].
  - intros [= <- H]. by rewrite (split_one _ _ _ H).
  - destruct (split c s) as [|w ws] eqn:E; [by apply split_nonempty in E|].
    intros [= <- ->]. by rewrite (IH w).
Qed.

(** [authenticate] accepts valid bearer tokens only, and answers 401
    otherwise. *)
Lemma authenticate_sound (a : AuthMiddleware) (req : Request) :
  authenticated (authenticate a req) = true -> validBearer (token a) req.
Proof.
  unfold authenticate, validBearer.
  destruct (authorization req) as [h|]; [|done].
  destruct (truthy h); simpl; [|done].
  destruct (split " " h) as [|scheme [|tok [|]]] eqn:E; simpl; try done.
  case_bool_decide as Hs; simpl; [|done].
  case_bool_decide as Ht; simpl; [|done].
  intros _. exists scheme. split; [|done].
  apply split_two in E. rewrite E, Ht. reflexivity.
Qed.

Lemma authenticate_401 (a : AuthMiddleware) (req : Request) :
  authenticated (authenticate a req) = false ->
  authStatusCode (authenticate a req) = Some 401%Z.
Proof.
  unfold authenticate.
  destruct (authorization req) as [h|]; [|done].
  destruct (truthy h); simpl; [|done].
  destruct (split " " h) as [|scheme [|tok [|]]]; simpl; try done.
  case_bool_decide; simpl; [|done]. case_bool_decide; simpl; done.
Qed.

Lemma handleUnauthorized_challenge soFar result :
  authStatusCode result = Some 401%Z ->
  unauthorized (Responds (handleUnauthorized soFar result)).
Proof.
  intros H. eexists. split; [reflexivity|]. unfold handleUnauthorized, writeHead.
  rewrite H. simpl. split; [done|]. apply lookup_insert_eq.
Qed.

Lemma handle_keeps_authMiddleware (now : Z) (req : Request) (t : HttpTransport) :
  authMiddleware (handle now req t).2 = authMiddleware t.
Proof.
  unfold handle. repeat case_match; done.
Qed.

Lemma serve_keeps_authMiddleware (reqs : list (Z * Request)) (t : HttpTransport) :
  authMiddleware (serve reqs t).2 = authMiddleware t.
Proof.
  revert t. induction reqs as [|[now req] reqs IH]; intros t; simpl; [done|].
  pose proof (handle_keeps_authMiddleware now req t) as H.
  destruct (handle now req t) as [o t1]. specialize (IH t1).
  destruct (serve reqs t1) as [os t2]. simpl in *. congruence.
Qed.

(** A request that needs a token and has none that is valid gets the 401. *)
Lemma handle_unauthorized (now : Z) (req : Request) (t : HttpTransport)
    (a : AuthMiddleware) (pathname_ : string) :
  authMiddleware t = Some a ->
  method req <> "OPTIONS" ->
  pathname req = Some pathname_ ->
  requiresAuth a pathname_ = true ->
  ~ validBearer (token a) req ->
  unauthorized (handle now req t).1 /\ (handle now req t).2 = t.
Proof.
  intros Ha Hm Hpath Hp Hinvalid. unfold handle.
  rewrite (bool_decide_eq_false_2 _ Hm), Hpath, Ha, Hp.
  destruct (authenticated (authenticate a req)) eqn:Hauth.
  - exfalso. by apply Hinvalid, authenticate_sound.
  - simpl. split; [|done].
    by apply handleUnauthorized_challenge, authenticate_401.
Qed.

(** The health path is answered without looking at the token, and without
    counting the request. *)
Lemma handle_health (now : Z) (req : Request) (t : HttpTransport) :
  (forall a, authMiddleware t = Some a -> "/health" ∈ authExcludePaths a) ->
  "/health" ∈ limitExcludePaths (rateLimiter t) ->
  method req <> "OPTIONS" ->
  pathname req = Some "/health" ->
  exists r,
    handle now req t = (Responds r, t)
    /\ statusCode r = 200%Z /\ body r = HealthBody.
Proof.
  intros Ha Hl Hm Hp. unfold handle.
  rewrite (bool_decide_eq_false_2 _ Hm), Hp.
  assert (match authMiddleware t with
          | Some a =>
              if requiresAuth a "/health"
              then if negb (authenticated (authenticate a req))
                   then Some (a, authenticate a req) else None
              else None
          | None => None
          end = None) as ->.
  { destruct (authMiddleware t) as [a|]; [|done].
    unfold requiresAuth. by rewrite (bool_decide_eq_true_2 _ (Ha a eq_refl)). }
  unfold shouldLimit. rewrite (bool_decide_eq_true_2 _ Hl). simpl.
  unfold route. simpl. eexists. split; [reflexivity|]. done.
Qed.

Lemma startHttp_cases (mode : TransportMode) (envToken envLimit : option string) :
  mode <> Stdio ->
  (unset envToken /\ startHttp mode envToken envLimit = Exits 2)
  \/ (exists tok,
        envToken = Some tok /\ trim tok <> EmptyString
        /\ startHttp mode envToken envLimit
           = Returns (Some (newHttpTransport None (Some tok) None envLimit))
        /\ authMiddleware (newHttpTransport None (Some tok) None envLimit)
           = Some (newAuthMiddleware tok (Some ["/health"]))).
Proof.
  intros Hmode. unfold startHttp. destruct mode; [done| |];
    unfold validateAuthToken, unset;
    (destruct envToken as [tok|]; [|by left]);
    (destruct tok as [|c tok]; [by left|]); simpl;
    (case_bool_decide as Hblank; [by left|]);
    right; exists (String c tok); done.
Qed.

Lemma check_keeps_excludes (ip : string) (now : Z) (l : RateLimiter) :
  limitExcludePaths (check ip now l).2 = limitExcludePaths l
  /\ requestsPerMinute (check ip now l).2 = requestsPerMinute l
  /\ windowMs (check ip now l).2 = windowMs l.
Proof. unfold check. repeat case_match; done. Qed.

Lemma handle_keeps_excludes (now : Z) (req : Request) (t : HttpTransport) :
  limitExcludePaths (rateLimiter (handle now req t).2)
  = limitExcludePaths (rateLimiter t).
Proof.
  unfold handle. repeat case_match; try done; simpl;
    match goal with
    | H : check ?ip ?n ?l = (_, ?l') |- _ =>
        pose proof (check_keeps_excludes ip n l) as [E _]; rewrite H in E;
        exact E
    end.
Qed.

Lemma serve_keeps_excludes (reqs : list (Z * Request)) (t : HttpTransport) :
  limitExcludePaths (rateLimiter (serve reqs t).2)
  = limitExcludePaths (rateLimiter t).
Proof.
  revert t. induction reqs as [|[now req] reqs IH]; intros t; simpl; [done|].
  pose proof (handle_keeps_excludes now req t) as H.
  destruct (handle now req t) as [o t1]. specialize (IH t1).
  destruct (serve reqs t1) as [os t2]. simpl in *. congruence.
Qed.

(** C7, as stated, fails on a preflight request: the server started with
    the secret [tok] answers [OPTIONS /mcp] without token with 204, not
    401. *)
Lemma preflight_is_not_authenticated :
  exists t0,
    startHttp HttpOnly (Some "tok") None = Returns (Some t0)
    /\ pathname preflight = Some "/mcp"
    /\ ~ validBearer "tok" preflight
    /\ ~ unauthorized (handle 0 preflight t0).1
    /\ exists r, (handle 0 preflight t0).1 = Responds r /\ statusCode r = 204%Z.
Proof.
  eexists. split; [reflexivity|]. split; [done|]. split; [|split].
  - intros (scheme & H & _). discriminate H.
  - intros (r & H & Hcode & _). vm_compute in H. injection H as Hr.
    subst r. discriminate Hcode.
  - eexists. split; [reflexivity|]. reflexivity.
Qed.

(** A request whose target [new URL] rejects is not answered by the
    handler. *)
Lemma handle_unparsable_target (now : Z) (req : Request) (t : HttpTransport) :
  method req <> "OPTIONS" -> pathname req = None ->
  handle now req t = (Throws, t).
Proof.
  intros Hm Hp. unfold handle. by rewrite (bool_decide_eq_false_2 _ Hm), Hp.
Qed.

(** C7, amended.  With the network transport enabled, an unset secret ends
    the process with status 2.  Once the server runs, every request whose
    target parses as a URL, other than an [OPTIONS] preflight, to a path
    other than [/health] that has no valid bearer token is answered 401
    with the header [WWW-Authenticate: Bearer realm="MCP Server"];
    [/health] is answered 200 whatever the token; a preflight is answered
    204 before any token is looked at. *)
Theorem bearer_authentication (mode : TransportMode)
    (envToken envLimit : option string) :
  mode <> Stdio ->
  (unset envToken -> startHttp mode envToken envLimit = Exits 2)
  /\ (forall t0,
        startHttp mode envToken envLimit = Returns (Some t0) ->
        exists tok,
          envToken = Some tok
          /\ forall reqs now req,
               let t := (serve reqs t0).2 in
               (forall pathname_,
                  method req <> "OPTIONS" ->
                  pathname req = Some pathname_ -> pathname_ <> "/health" ->
                  ~ validBearer tok req -> unauthorized (handle now req t).1)
               /\ (method req <> "OPTIONS" -> pathname req = Some "/health" ->
                   exists r,
                     handle now req t = (Responds r, t)
                     /\ statusCode r = 200%Z /\ body r = HealthBody)
               /\ (method req = "OPTIONS" ->
                   exists r,
                     handle now req t = (Responds r, t)
                     /\ statusCode r = 204%Z)).
Proof.
  intros Hmode.
  destruct (startHttp_cases mode envToken envLimit Hmode)
    as [[Hunset Hexit] | (tok & -> & Htok & Hstart & Hauth)].
  - split; [done|]. intros t0 H. by rewrite Hexit in H.
  - split; [intros Hunset; by simpl in Hunset|].
    intros t0 H. rewrite Hstart in H. simplify_eq.
    exists tok. split; [done|]. intros reqs now req t.
    assert (authMiddleware t = Some (newAuthMiddleware tok (Some ["/health"])))
      as Ht by (subst t; by rewrite serve_keeps_authMiddleware).
    assert ("/health" ∈ limitExcludePaths (rateLimiter t)) as Hl.
    { subst t. rewrite serve_keeps_excludes. simpl. set_solver. }
    split; [|split].
    + intros pathname_ Hm Hpath Hp Hinvalid.
      apply (handle_unauthorized now req t _ pathname_ Ht Hm Hpath); [|done].
      unfold requiresAuth. simpl. apply negb_true_iff, bool_decide_eq_false_2.
      intros [Hin%elem_of_singleton | Hin%elem_of_empty]%elem_of_union; done.
    + intros Hm Hp. apply handle_health; [|done..].
      intros a Ha. rewrite Ht in Ha. simplify_eq. simpl. set_solver.
    + intros Hm. unfold handle. rewrite (bool_decide_eq_true_2 _ Hm).
      eexists. split; [reflexivity|]. done.
Qed.

Lemma bearer_authentication_witness :
  let wrongToken :=
    {| method := "POST"; pathname := Some "/mcp";
       authorization := Some "Bearer guess";
       forwardedFor := None; remoteAddress := Some "10.0.0.1" |} in
  let noHeader :=
    {| method := "GET"; pathname := Some "/mcp"; authorization := None;
       forwardedFor := None; remoteAddress := Some "10.0.0.1" |} in
  startHttp HttpOnly None (Some "5") = Exits 2
  /\ exists t0,
       startHttp HttpOnly (Some "tok") (Some "5") = Returns (Some t0)
       /\ unauthorized (handle 0 wrongToken t0).1
       /\ unauthorized (handle 7 noHeader (serve [(0%Z, wrongToken)] t0).2).1.
Proof.
  intros wrongToken noHeader. split.
  - apply (bearer_authentication HttpOnly None (Some "5")); [discriminate|].
    exact I.
  - eexists. split; [reflexivity|].
    destruct (bearer_authentication HttpOnly (Some "tok") (Some "5"))
      as [_ Hruns]; [discriminate|].
    destruct (Hruns _ eq_refl) as (tok & Htok & Hreq).
    injection Htok as <-. split.
    + destruct (Hreq [] 0%Z wrongToken) as (H401 & _).
      apply (H401 "/mcp"); [discriminate | reflexivity | discriminate |].
      intros (scheme & Hheader & _). simpl in Hheader.
      injection Hheader as Hheader.
      pose proof (endsWith_app scheme (" " +:+ "tok")) as Hends.
      rewrite <- Hheader in Hends. vm_compute in Hends. discriminate Hends.
    + destruct (Hreq [(0%Z, wrongToken)] 7%Z noHeader) as (H401 & _).
      apply (H401 "/mcp"); [discriminate | reflexivity | discriminate |].
      intros (scheme & Hheader & _). discriminate Hheader.
Defined.

End AuthFacts.

Module RateLimiterFacts.
Import JsString StringFacts.
Import Http AuthFacts.
Local Open Scope Z_scope.

Lemma ceil_seconds_bounds (ms : Z) :
  1 <= ms <= 60000 -> 1 <= ceil_seconds ms <= 60.
Proof. intros H. unfold ceil_seconds. Z.div_mod_to_equations. lia. Qed.

(** The first request of a window opens it and is let through. *)
Lemma check_opens_window (ip : string) (now : Z) (l : RateLimiter) :
  noWindow ip now l ->
  allowed (check ip now l).1 = true
  /\ limits (check ip now l).2 !! ip
     = Some {| count := 1; resetTime := now + windowMs l |}.
Proof.
  unfold noWindow, check. destruct (limits l !! ip) as [entry|].
  - intros H. apply Z.leb_le in H. rewrite H. simpl.
    by rewrite lookup_insert_eq.
  - intros _. simpl. by rewrite lookup_insert_eq.
Qed.



(** Inside the window every request is counted, and let through as long as
    the count stays within the budget. *)
Lemma check_in_window (ip : string) (now : Z) (l : RateLimiter)
    (entry : RateLimitEntry) (budget : Z) :
  requestsPerMinute l = Some budget ->
  limits l !! ip = Some entry -> now < resetTime entry ->
  allowed (check ip now l).1 = bool_decide (count entry + 1 <= budget)
  /\ limits (check ip now l).2 !! ip
     = Some {| count := count entry + 1; resetTime := resetTime entry |}
  /\ (allowed (check ip now l).1 = false ->
      retryAfter (check ip now l).1
      = Some (ceil_seconds (resetTime entry - now))).
Proof.
  intros Hb He Hnow. unfold check. rewrite He, Hb.
  assert ((resetTime entry <=? now) = false) as -> by (apply Z.leb_gt; lia).
  unfold gt_number. simpl.
  destruct (Z.ltb_spec budget (count entry + 1)); simpl;
    rewrite lookup_insert_eq.
  - rewrite bool_decide_eq_false_2 by lia. done.
  - rewrite bool_decide_eq_true_2 by lia. done.
Qed.

Lemma checks_in_window (ip : string) (times : list Z) (l : RateLimiter)
    (entry : RateLimitEntry) (budget : Z) :
  requestsPerMinute l = Some budget ->
  limits l !! ip = Some entry ->
  (forall now, now ∈ times -> now < resetTime entry <= now + 60000) ->
  forall (k : nat) result,
    (checks ip times l).1 !! k = Some result ->
    allowed result = bool_decide (count entry + 1 + Z.of_nat k <= budget)
    /\ (allowed result = false ->
        exists n, retryAfter result = Some n /\ 1 <= n <= 60).
Proof.
  revert l entry. induction times as [|now times IH]; intros l entry Hb He Htimes k result;
    simpl; [done|].
  destruct (check_in_window ip now l entry budget Hb He) as (Hallowed & Hentry & Hretry).
  { apply Htimes. by left. }
  pose proof (check_keeps_excludes ip now l) as (_ & Hb' & _).
  destruct (check ip now l) as [r1 l1]. simpl in *.
  specialize (IH l1 _ ltac:(congruence) Hentry).
  destruct (checks ip times l1) as [rs l2]. simpl in *.
  destruct k as [|k]; simpl.
  - intros [= <-]. rewrite Z.add_0_r. split; [done|].
    intros Hno. eexists. split; [by apply Hretry|].
    apply ceil_seconds_bounds. specialize (Htimes now ltac:(by left)). lia.
  - intros Hk. destruct (IH ltac:(intros; apply Htimes; by right) k result Hk)
      as [H1 H2].
    split; [|done]. rewrite H1. simpl. f_equal. apply bool_decide_ext. lia.
Qed.

(** A client that starts a window at [t0] and keeps asking within the
    minute: request number [k + 1] is let through exactly when it is
    within the budget. *)
Lemma checks_window (ip : string) (t0 : Z) (later : list Z) (l : RateLimiter)
    (budget : Z) :
  requestsPerMinute l = Some budget -> 1 <= budget -> windowMs l = 60000 ->
  noWindow ip t0 l ->
  (forall now, now ∈ later -> t0 <= now < t0 + 60000) ->
  forall (k : nat) result,
    (checks ip (t0 :: later) l).1 !! k = Some result ->
    allowed result = bool_decide (Z.of_nat k + 1 <= budget)
    /\ (allowed result = false ->
        exists n, retryAfter result = Some n /\ 1 <= n <= 60).
Proof.
  intros Hb Hpos Hw Hfresh Hlater k result. simpl.
  destruct (check_opens_window ip t0 l Hfresh) as [Hallowed Hentry].
  pose proof (check_keeps_excludes ip t0 l) as (_ & Hb' & _).
  destruct (check ip t0 l) as [r1 l1]. simpl in *.
  pose proof (checks_in_window ip later l1 _ budget ltac:(congruence) Hentry) as H.
  destruct (checks ip later l1) as [rs l2]. simpl in *.
  destruct k as [|k]; simpl.
  - intros [= <-]. rewrite Hallowed, bool_decide_eq_true_2 by lia.
    split; [done|]. done.
  - intros Hk. destruct (H ltac:(intros now Hnow; specialize (Hlater now Hnow); lia)
                           k result Hk) as [H1 H2].
    split; [|done]. rewrite H1. apply bool_decide_ext. lia.
Qed.

(** Requests of one client do not touch the window of another, and the
    answer to a client depends on its own window only. *)
Lemma check_other (ip other : string) (now : Z) (l : RateLimiter) :
  other <> ip -> limits (check ip now l).2 !! other = limits l !! other.
Proof.
  intros Hne. unfold check. repeat case_match; simpl;
    by rewrite ?lookup_insert_ne.
Qed.


(** What the handler does with a request that reaches the limiter. *)
Lemma handle_counted (now : Z) (req : Request) (t : HttpTransport)
    (pathname_ : string) :
  method req <> "OPTIONS" ->
  pathname req = Some pathname_ ->
  passesAuth t pathname_ req ->
  pathname_ ∉ limitExcludePaths (rateLimiter t) ->
  let ip := getClientIp req in
  let result := (check ip now (rateLimiter t)).1 in
  (handle now req t).2 = withLimiter t (check ip now (rateLimiter t)).2
  /\ (allowed result = true ->
      exists soFar,
        (handle now req t).1 = route pathname_ soFar ip
        /\ soFar !! "X-RateLimit-Limit"
           = Some (NumberText (requestsPerMinute (rateLimiter t)))
        /\ soFar !! "X-RateLimit-Remaining"
           = Some (NumberText (remaining result)))
  /\ (allowed result = false ->
      exists r,
        (handle now req t).1 = Responds r
        /\ statusCode r = 429
        /\ headers r !! "Retry-After"
           = Some (NumberText (Some (orDefault (retryAfter result) 60)))
        /\ headers r !! "X-RateLimit-Limit"
           = Some (NumberText (requestsPerMinute (rateLimiter t)))
        /\ headers r !! "X-RateLimit-Remaining" = Some (Text "0")
        /\ headers r !! "X-RateLimit-Reset"
           = Some (NumberText (Some (orDefault (retryAfter result) 60)))).
Proof.
  intros Hm Hpath Hauth Hlimit ip result. subst ip result. unfold handle.
  rewrite (bool_decide_eq_false_2 _ Hm), Hpath.
  assert (match authMiddleware t with
          | Some a =>
              if requiresAuth a pathname_
              then if negb (authenticated (authenticate a req))
                   then Some (a, authenticate a req) else None
              else None
          | None => None
          end = None) as ->.
  { unfold passesAuth in Hauth. destruct (authMiddleware t) as [a|]; [|done].
    destruct Hauth as [-> | ->]; [done|]. simpl. by destruct (requiresAuth _ _). }
  unfold shouldLimit. rewrite (bool_decide_eq_false_2 _ Hlimit). simpl.
  pose proof (check_keeps_excludes (getClientIp req) now (rateLimiter t))
    as (_ & Hb & _).
  destruct (check (getClientIp req) now (rateLimiter t)) as [result l'].
  simpl in *. split; [by destruct (allowed result)|]. split.
  - intros ->. simpl. eexists. split; [reflexivity|].
    unfold addHeaders. rewrite Hb.
    destruct (retryAfter result) as [n|]; [case_bool_decide|];
      (split; rewrite ?lookup_insert_ne by done; by rewrite lookup_insert_eq).
  - intros ->. simpl. eexists. split; [reflexivity|].
    unfold handleLimited, writeHead. simpl. rewrite Hb.
    split; [done|]. split; [|split; [|split]].
    + rewrite !lookup_insert_ne by done. by rewrite lookup_insert_eq.
    + rewrite !lookup_insert_ne by done. by rewrite lookup_insert_eq.
    + rewrite !lookup_insert_ne by done. by rewrite lookup_insert_eq.
    + by rewrite lookup_insert_eq.
Qed.

(** A request touches the window of its own source only. *)
Lemma handle_other (now : Z) (req : Request) (t : HttpTransport)
    (other : string) :
  other <> getClientIp req ->
  limits (rateLimiter (handle now req t).2) !! other
  = limits (rateLimiter t) !! other.
Proof.
  intros Hne. unfold handle. repeat case_match; try done; simpl;
    match goal with
    | H : check ?ip ?n ?l = (_, ?l') |- _ =>
        pose proof (check_other ip other n l Hne) as E; rewrite H in E;
        exact E
    end.
Qed.

Lemma handle_keeps_budget (now : Z) (req : Request) (t : HttpTransport) :
  requestsPerMinute (rateLimiter (handle now req t).2)
  = requestsPerMinute (rateLimiter t)
  /\ windowMs (rateLimiter (handle now req t).2) = windowMs (rateLimiter t).
Proof.
  unfold handle. repeat case_match; try done; simpl;
    match goal with
    | H : check ?ip ?n ?l = (_, ?l') |- _ =>
        pose proof (check_keeps_excludes ip n l) as (_ & E1 & E2);
        rewrite H in E1, E2; done
    end.
Qed.

Lemma serve_keeps_budget (reqs : list (Z * Request)) (t : HttpTransport) :
  requestsPerMinute (rateLimiter (serve reqs t).2)
  = requestsPerMinute (rateLimiter t)
  /\ windowMs (rateLimiter (serve reqs t).2) = windowMs (rateLimiter t).
Proof.
  revert t. induction reqs as [|[now req] reqs IH]; intros t; simpl; [done|].
  pose proof (handle_keeps_budget now req t) as [H1 H2].
  destruct (handle now req t) as [o t1]. specialize (IH t1).
  destruct (serve reqs t1) as [os t2]. simpl in *.
  destruct IH as [IH1 IH2]. split; congruence.
Qed.












End RateLimiterFacts.

Module SnapshotFacts.
Import JsString Node.
Import Snapshot.

(** A file that is not JSON leaves the manager as it was and is reported
    on [console.error]; nothing is written. *)
Lemma load_not_json (w : World) (now : string) (m : SnapshotManager) (h : Host) :
  snapshotFile h = Some NotJson ->
  loadCodebaseSnapshot w now m h
  = (m, {| snapshotFile := snapshotFile h; writeFails := writeFails h;
           writes := writes h;
           consoleError := consoleError h ++ [ErrorLoadingSnapshot] |}).
Proof. intros H. unfold loadCodebaseSnapshot. by rewrite H. Qed.

(** C6.  A snapshot file that parses as JSON but holds [null] where the
    second repository should be: loading it raises nothing and reports the
    error, yet the manager does not start empty.  It keeps the repository
    read before the malformed entry, and the file is not rewritten. *)
Theorem load_malformed_entry_keeps_partial_state :
  let now := "2026-01-01T00:00:00.000Z" in
  let started :=
    loadCodebaseSnapshot ExampleWorld.example now newManager
      (hostWith (JsonV3 partlyNullSnapshot)) in
  consoleError started.2 = [ErrorLoadingSnapshot]
  /\ writes started.2 = 0
  /\ started.1 <> newManager
  /\ indexedCodebases started.1 = ["/tmp/p"]
  /\ fst <$> repositories started.1 = ["0a"].
Proof.
  cbv zeta. split; [reflexivity|]. split; [reflexivity|].
  split; [|split; reflexivity].
  intros H. apply (f_equal indexedCodebases) in H. discriminate H.
Qed.

(** *** Maps in insertion order *)

Lemma alist_set_fresh {V} (k : string) (v : V) (l : list (string * V)) :
  alist_get k l = None -> alist_set k v l = l ++ [(k, v)].
Proof.
  induction l as [|[k' v'] l IH]; simpl; [done|].
  case_decide as E; [done|]. intros Hl. by rewrite IH.
Qed.

Lemma alist_get_snoc_ne {V} (k k' : string) (v : V) (l : list (string * V)) :
  k <> k' -> alist_get k (l ++ [(k', v)]) = alist_get k l.
Proof.
  intros Hne. induction l as [|[k0 v0] l IH]; simpl.
  - by rewrite decide_False.
  - by case_decide.
Qed.

Lemma alist_get_None {V} (k : string) (l : list (string * V)) :
  alist_get k l = None <-> k ∉ l.*1.
Proof.
  induction l as [|[k' v'] l IH]; simpl.
  - split; [intros _; apply not_elem_of_nil | done].
  - rewrite not_elem_of_cons. case_decide as E.
    + split; [done|]. by intros [? _].
    + rewrite IH. split; [done|]. by intros [_ ?].
Qed.

Lemma alist_get_constant {V} (k : string) (v : V) (l : list string) :
  alist_get k ((fun p => (p, v)) <$> l)
  = if decide (k ∈ l) then Some v else None.
Proof.
  induction l as [|p l IH]; cbn [fmap list_fmap alist_get].
  - destruct (decide (k ∈ [])) as [E|E]; [by apply elem_of_nil in E | done].
  - destruct (decide (k = p)) as [->|E].
    + rewrite decide_True; [done | by left].
    + change (list_fmap _ _ ?f l) with (f <$> l). rewrite IH.
      destruct (decide (k ∈ l)) as [E1|E1].
      * rewrite decide_True; [done | by right].
      * rewrite decide_False; [done|].
        intros [?|?]%elem_of_cons; [by apply E | by apply E1].
Qed.

Section Migration.
Context (w : World) (now : string).

Local Abbreviation cid := (canonicalIdFor w).

(** The group that a path makes on its own. *)
Local Abbreviation alone e :=
  (cid e.1, {| groupIdentity := identityFor w e.1;
               groupPaths := [e.1];
               groupInfo := e.2 |}).

Local Abbreviation live l :=
  (filter (fun e : string * CodebaseInfo => existsSync w e.1 = true) l).

Lemma groupV2_missing (acc : list (string * Group)) (p : string)
    (info : CodebaseInfo) :
  existsSync w p = false -> groupV2 w acc (p, info) = acc.
Proof. intros H. unfold groupV2. by rewrite H. Qed.

Lemma groupV2_fresh (acc : list (string * Group)) (p : string)
    (info : CodebaseInfo) :
  existsSync w p = true -> alist_get (cid p) acc = None ->
  groupV2 w acc (p, info) = acc ++ [alone (p, info)].
Proof.
  intros Hp Hacc. unfold groupV2. rewrite Hp, Hacc. simpl.
  by apply alist_set_fresh.
Qed.

(** When the existing paths belong to different repositories, every one
    of them makes a group of its own, in the order of the input. *)
Lemma groupV2_distinct (entries : list (string * CodebaseInfo))
    (acc : list (string * Group)) :
  NoDup (cid <$> (live entries).*1) ->
  (forall e, e ∈ live entries -> alist_get (cid e.1) acc = None) ->
  foldl (groupV2 w) acc entries = acc ++ ((fun e => alone e) <$> live entries).
Proof.
  revert acc. induction entries as [|[p info] entries IH]; intros acc Hnd Hacc;
    cbn [foldl].
  - by rewrite app_nil_r.
  - destruct (existsSync w p) eqn:Hp.
    + rewrite filter_cons_True in Hnd, Hacc |- * by done. simpl in Hnd.
      apply NoDup_cons in Hnd as [Hfresh Hnd].
      rewrite groupV2_fresh; [|done|by apply (Hacc (p, info)); left].
      rewrite IH; [by rewrite <- app_assoc | done |].
      intros e He. rewrite alist_get_snoc_ne.
      * apply Hacc. by right.
      * intros E. apply Hfresh. simpl in E. rewrite <- E.
        apply list_elem_of_fmap_2, list_elem_of_fmap_2, He.
    + rewrite filter_cons_False in Hnd, Hacc |- * by (simpl; congruence).
      rewrite groupV2_missing by done. by apply IH.
Qed.

(** *** From groups to the v3 state *)

Local Abbreviation repoAlone e := (repoOfGroup w now (alone e).2).

(** One round of [buildV3StateFromGroups]. *)
Local Abbreviation step :=
  (fun (m : SnapshotManager) (entry : string * Group) =>
     populateLegacyStateFromRepo (repoOfGroup w now entry.2)
       (fileRepository entry.1 (repoOfGroup w now entry.2) m)).

Lemma defaultBranch_repoOfGroup (g : Group) :
  defaultBranchOf (repoOfGroup w now g) = Some (branchOfInfo (groupInfo g)).
Proof. unfold defaultBranchOf. simpl. apply lookup_singleton_eq. Qed.

Lemma readBack_cases (info : CodebaseInfo) :
  readBack info
  = match info with
    | InfoIndexed files chunks _ t => InfoIndexed files chunks Completed t
    | InfoIndexing pct t => InfoIndexing pct t
    | InfoIndexFailed e _ t => InfoIndexFailed (orUnknownError (Some e)) None t
    end.
Proof. by destruct info. Qed.

(** The round for a path that is alone in its group. *)
Lemma step_alone (m : SnapshotManager) (e : string * CodebaseInfo) :
  step m (alone e)
  = {| indexedCodebases :=
         match statusOf e.2 with
         | StatusIndexed => RepoIdentity.push_new (indexedCodebases m) e.1
         | _ => indexedCodebases m
         end;
       indexingCodebases :=
         match progressOf e.2 with
         | Some pct => <[e.1 := pct]> (indexingCodebases m)
         | None => indexingCodebases m
         end;
       codebaseFileCount :=
         match e.2 with
         | InfoIndexed files _ _ _ => <[e.1 := files]> (codebaseFileCount m)
         | _ => codebaseFileCount m
         end;
       codebaseInfoMap := <[e.1 := readBack e.2]> (codebaseInfoMap m);
       repositories := alist_set (cid e.1) (repoAlone e) (repositories m);
       pathToCanonicalId := <[e.1 := cid e.1]> (pathToCanonicalId m) |}.
Proof.
  unfold populateLegacyStateFromRepo. rewrite defaultBranch_repoOfGroup.
  destruct e as [p []]; reflexivity.
Qed.

Lemma build_repositories (l : list (string * CodebaseInfo)) (m0 : SnapshotManager) :
  NoDup (cid <$> l.*1) ->
  (forall e, e ∈ l -> alist_get (cid e.1) (repositories m0) = None) ->
  repositories (foldl step m0 ((fun e => alone e) <$> l))
  = repositories m0 ++ ((fun e => (cid e.1, repoAlone e)) <$> l).
Proof.
  revert m0. induction l as [|e l IH]; intros m0 Hnd Hm0; cbn [foldl fmap list_fmap].
  - by rewrite app_nil_r.
  - simpl in Hnd. apply NoDup_cons in Hnd as [Hfresh Hnd].
    rewrite IH; [|done|].
    + rewrite step_alone. simpl.
      rewrite alist_set_fresh by (apply Hm0; by left).
      by rewrite <- app_assoc.
    + intros e' He'. rewrite step_alone. simpl.
      rewrite alist_set_fresh by (apply Hm0; by left).
      rewrite alist_get_snoc_ne; [apply Hm0; by right|].
      intros E. apply Hfresh. rewrite <- E.
      apply list_elem_of_fmap_2, list_elem_of_fmap_2, He'.
Qed.

Lemma build_indexed (l : list (string * CodebaseInfo)) (m0 : SnapshotManager) :
  NoDup l.*1 ->
  (forall e, e ∈ l -> e.1 ∉ indexedCodebases m0) ->
  indexedCodebases (foldl step m0 ((fun e => alone e) <$> l))
  = indexedCodebases m0
    ++ (filter (fun e => statusOf e.2 = StatusIndexed) l).*1.
Proof.
  revert m0. induction l as [|e l IH]; intros m0 Hnd Hm0; cbn [foldl fmap list_fmap].
  - by rewrite app_nil_r.
  - simpl in Hnd. apply NoDup_cons in Hnd as [Hfresh Hnd].
    assert (e.1 ∉ indexedCodebases m0) as He by (apply Hm0; by left).
    rewrite IH; [|done|]; rewrite step_alone; simpl.
    + destruct (statusOf e.2) eqn:Hs.
      * rewrite filter_cons_True by done. simpl.
        unfold RepoIdentity.push_new, RepoIdentity.includes.
        rewrite bool_decide_eq_false_2 by done. by rewrite <- app_assoc.
      * by rewrite filter_cons_False by (simpl; congruence).
      * by rewrite filter_cons_False by (simpl; congruence).
    + intros e' He'.
      assert (e'.1 ∉ indexedCodebases m0) as Hold by (apply Hm0; by right).
      destruct (statusOf e.2); [|done..].
      intros [Hin | E]%RepoRegistryFacts.push_new_elem; [done|].
      apply Hfresh. rewrite <- E. by apply list_elem_of_fmap_2.
Qed.

Lemma build_info (l : list (string * CodebaseInfo)) (m0 : SnapshotManager)
    (p : string) :
  NoDup l.*1 ->
  codebaseInfoMap (foldl step m0 ((fun e => alone e) <$> l)) !! p
  = match alist_get p l with
    | Some info => Some (readBack info)
    | None => codebaseInfoMap m0 !! p
    end.
Proof.
  revert m0. induction l as [|e l IH]; intros m0 Hnd; cbn [foldl fmap list_fmap].
  - done.
  - simpl in Hnd. apply NoDup_cons in Hnd as [Hfresh Hnd].
    rewrite IH by done. rewrite step_alone. destruct e as [q info]. simpl.
    case_decide as E.
    + subst q. simpl in Hfresh. apply alist_get_None in Hfresh.
      rewrite Hfresh. by rewrite lookup_insert_eq.
    + destruct (alist_get p l); [done|]. by rewrite lookup_insert_ne.
Qed.

Lemma build_indexing (l : list (string * CodebaseInfo)) (m0 : SnapshotManager)
    (p : string) :
  NoDup l.*1 ->
  indexingCodebases (foldl step m0 ((fun e => alone e) <$> l)) !! p
  = match alist_get p l ≫= progressOf with
    | Some pct => Some pct
    | None => indexingCodebases m0 !! p
    end.
Proof.
  revert m0. induction l as [|e l IH]; intros m0 Hnd; cbn [foldl fmap list_fmap].
  - done.
  - simpl in Hnd. apply NoDup_cons in Hnd as [Hfresh Hnd].
    rewrite IH by done. rewrite step_alone. destruct e as [q info]. simpl.
    case_decide as E.
    + subst q. simpl in Hfresh. apply alist_get_None in Hfresh.
      rewrite Hfresh. simpl.
      destruct (progressOf info); [by rewrite lookup_insert_eq|done].
    + destruct (alist_get p l ≫= progressOf); [done|].
      destruct (progressOf info); [by rewrite lookup_insert_ne|done].
Qed.



(** What [getIndexedCodebases] reads from the file that was written. *)
Lemma written_indexed (l : list (string * CodebaseInfo)) :
  mjoin (omap (fun e : string * option RepoSnapshot =>
                 match e.2 with
                 | Some repo =>
                     match status <$> defaultBranchOf repo with
                     | Some StatusIndexed => Some (knownPaths repo)
                     | _ => None
                     end
                 | None => None
                 end)
              ((fun e => (e.1, Some e.2))
                 <$> ((fun e => (cid e.1, repoAlone e)) <$> l)))
  = (filter (fun e => statusOf e.2 = StatusIndexed) l).*1.
Proof.
  induction l as [|e l IH]; [done|]. cbn [fmap list_fmap omap list_omap].
  cbn [snd]. rewrite defaultBranch_repoOfGroup. simpl.
  destruct (statusOf e.2) eqn:Hs.
  - rewrite filter_cons_True by done. simpl. by f_equal.
  - by rewrite filter_cons_False by (simpl; congruence).
  - by rewrite filter_cons_False by (simpl; congruence).
Qed.

Lemma written_well_formed (l : list (string * RepoSnapshot)) :
  Forall (fun e : string * option RepoSnapshot => is_Some e.2)
         ((fun e => (e.1, Some e.2)) <$> l).
Proof. apply Forall_fmap, Forall_forall. intros e _. by eexists. Qed.

(** The state that migration builds from entries that are alone in their
    groups, and what is written back. *)
Lemma build_alone (l : list (string * CodebaseInfo)) (h : Host) :
  writeFails h = false ->
  NoDup l.*1 -> NoDup (cid <$> l.*1) ->
  let m := buildV3StateFromGroups w now ((fun e => alone e) <$> l) in
  let h' := saveCodebaseSnapshot now m h in
  writes h' = S (writes h)
  /\ (exists v3, snapshotFile h' = Some (JsonV3 v3))
  /\ getIndexedCodebases m h'
     = (filter (fun e => statusOf e.2 = StatusIndexed) l).*1
  /\ (forall p, getCodebaseInfo m p = readBack <$> alist_get p l)
  /\ (forall p,
        getIndexingCodebasesWithProgress m !! p = alist_get p l ≫= progressOf).
Proof.
  intros Hw Hpaths Hcids m h'. subst m h'.
  unfold buildV3StateFromGroups, saveCodebaseSnapshot. rewrite Hw.
  split; [done|]. split; [by eexists|]. split; [|split].
  - unfold getIndexedCodebases. cbn [snapshotFile v3Repositories].
    rewrite bool_decide_eq_true_2 by apply written_well_formed.
    rewrite build_repositories; [|done|done]. apply written_indexed.
  - intros p. unfold getCodebaseInfo. rewrite build_info by done.
    by destruct (alist_get p l).
  - intros p. unfold getIndexingCodebasesWithProgress.
    rewrite build_indexing by done.
    by destruct (alist_get p l ≫= progressOf).
Qed.

Lemma groupV1_distinct (paths : list string) (acc : list (string * Group)) :
  let info0 := InfoIndexed 0 0 Completed now in
  let live1 := filter (fun p => existsSync w p = true) paths in
  NoDup (cid <$> live1) ->
  (forall p, p ∈ live1 -> alist_get (cid p) acc = None) ->
  foldl (groupV1 w now) acc paths
  = acc ++ ((fun p => alone (p, info0)) <$> live1).
Proof.
  intros info0. simpl.
  revert acc. induction paths as [|p paths IH]; intros acc Hnd Hacc; cbn [foldl].
  - by rewrite app_nil_r.
  - destruct (existsSync w p) eqn:Hp.
    + rewrite filter_cons_True in Hnd, Hacc |- * by done. simpl in Hnd.
      apply NoDup_cons in Hnd as [Hfresh Hnd].
      assert (groupV1 w now acc p = acc ++ [alone (p, info0)]) as ->.
      { unfold groupV1. rewrite Hp, (Hacc p) by (by left). simpl.
        apply alist_set_fresh, Hacc. by left. }
      rewrite IH; [by rewrite <- app_assoc | done |].
      intros q Hq. rewrite alist_get_snoc_ne.
      * apply Hacc. by right.
      * intros E. apply Hfresh. simpl in E. rewrite <- E.
        by apply list_elem_of_fmap_2.
    + rewrite filter_cons_False in Hnd, Hacc |- * by congruence.
      assert (groupV1 w now acc p = acc) as ->.
      { unfold groupV1. by rewrite Hp. }
      by apply IH.
Qed.

End Migration.

(** C5, as stated, fails on a codebase that stopped at the chunk limit:
    its [indexStatus] reads back as ['completed']. *)
Lemma limit_reached_is_not_preserved :
  let now := "2026-01-01T00:00:00.000Z" in
  let started :=
    loadCodebaseSnapshot ExampleWorld.example now newManager
      (hostWith (JsonV2 limitReachedSnapshot)) in
  existsSync ExampleWorld.example "/tmp/p" = true
  /\ alist_get "/tmp/p" (codebases limitReachedSnapshot)
     = Some (InfoIndexed 5 9 LimitReached "2025-06-01T00:00:00.000Z")
  /\ getCodebaseInfo started.1 "/tmp/p"
     = Some (InfoIndexed 5 9 Completed "2025-06-01T00:00:00.000Z")
  /\ getCodebaseInfo started.1 "/tmp/p"
     <> alist_get "/tmp/p" (codebases limitReachedSnapshot).
Proof.
  cbv zeta. split; [reflexivity|]. split; [reflexivity|].
  split; [reflexivity|]. vm_compute. discriminate.
Qed.

(** Two paths of one repository are filed under one record: after
    migration both read back the first one's state. *)
Lemma shared_repository_paths_are_merged :
  let now := "2026-01-01T00:00:00.000Z" in
  let before := "2025-06-01T00:00:00.000Z" in
  let s := {| codebases := [("/srv/clone", InfoIndexed 5 9 Completed before);
                            ("/srv/mirror", InfoIndexing 40 before)] |} in
  let started :=
    loadCodebaseSnapshot ExampleWorld.example now newManager
      (hostWith (JsonV2 s)) in
  canonicalIdFor ExampleWorld.example "/srv/clone"
  = canonicalIdFor ExampleWorld.example "/srv/mirror"
  /\ getIndexedCodebases started.1 started.2 = ["/srv/clone"; "/srv/mirror"]
  /\ getCodebaseInfo started.1 "/srv/mirror"
     = Some (InfoIndexed 5 9 Completed before)
  /\ getIndexingCodebasesWithProgress started.1 = ∅.
Proof. cbv zeta. repeat split; vm_compute; reflexivity. Qed.

(** The paths that a v1 snapshot lists as indexing are not migrated. *)
Lemma v1_progress_is_dropped :
  let now := "2026-01-01T00:00:00.000Z" in
  let s := {| v1IndexedCodebases := ["/tmp/p"];
              v1IndexingCodebases := IndexingRecord [("/tmp/q", 40%Z)] |} in
  let started :=
    loadCodebaseSnapshot ExampleWorld.example now newManager
      (hostWith (JsonV1 s)) in
  getIndexedCodebases started.1 started.2 = ["/tmp/p"]
  /\ getCodebaseInfo started.1 "/tmp/q" = None
  /\ getIndexingCodebasesWithProgress started.1 = ∅.
Proof. cbv zeta. repeat split; vm_compute; reflexivity. Qed.

(** C5, amended.  Loading a v1 or v2 snapshot writes the file back once,
    in the v3 format.  When the paths that still exist on disk belong to
    different repositories, the legacy views afterwards are these.  For a
    v2 snapshot: the indexed paths are the existing indexed paths of the
    input, in order; a path has progress exactly when the input lists it
    as indexing, with the input's percentage; and every existing path
    reads back its [CodebaseInfo] with the input's status, counts,
    percentage, error message (['Unknown error'] for an empty one) and
    timestamp, [indexStatus] being ['completed'] and
    [lastAttemptedPercentage] absent.  For a v1
    snapshot: the indexed paths are the existing ones of the input, each
    with zero counts, and no path has progress. *)
Theorem migration_keeps_legacy_views (w : World) (now : string) (h : Host) :
  writeFails h = false ->
  let started := loadCodebaseSnapshot w now newManager h in
  (forall s,
     snapshotFile h = Some (JsonV2 s) ->
     NoDup (canonicalIdFor w <$> (liveV2 w s).*1) ->
     writes started.2 = S (writes h)
     /\ (exists v3, snapshotFile started.2 = Some (JsonV3 v3))
     /\ getIndexedCodebases started.1 started.2
        = (filter (fun e => statusOf e.2 = StatusIndexed) (liveV2 w s)).*1
     /\ (forall p,
           getCodebaseInfo started.1 p
           = match alist_get p (liveV2 w s) with
             | Some (InfoIndexed files chunks _ t) =>
                 Some (InfoIndexed files chunks Completed t)
             | Some (InfoIndexing pct t) => Some (InfoIndexing pct t)
             | Some (InfoIndexFailed e _ t) =>
                 Some (InfoIndexFailed
                         (if truthy e then e else "Unknown error") None t)
             | None => None
             end)
     /\ (forall p,
           getIndexingCodebasesWithProgress started.1 !! p
           = alist_get p (liveV2 w s) ≫= progressOf))
  /\ (forall s,
        snapshotFile h = Some (JsonV1 s) ->
        NoDup (canonicalIdFor w <$> liveV1 w s) ->
        writes started.2 = S (writes h)
        /\ (exists v3, snapshotFile started.2 = Some (JsonV3 v3))
        /\ getIndexedCodebases started.1 started.2 = liveV1 w s
        /\ (forall p,
              getCodebaseInfo started.1 p
              = if decide (p ∈ liveV1 w s)
                then Some (InfoIndexed 0 0 Completed now) else None)
        /\ getIndexingCodebasesWithProgress started.1 = ∅).
Proof.
  intros Hw started. subst started. split.
  - intros s Hfile Hcids. unfold loadCodebaseSnapshot. rewrite Hfile.
    cbn [fst snd]. unfold migrateV2ToV3.
    rewrite groupV2_distinct; [| done | done]. rewrite app_nil_l.
    destruct (build_alone w now (liveV2 w s) h Hw (NoDup_fmap_1 _ _ Hcids)
                Hcids) as (Hwrites & Hv3 & Hindexed & Hinfo & Hprogress).
    split; [done|]. split; [done|]. split; [done|]. split; [|done].
    intros p. rewrite Hinfo.
    destruct (alist_get p (liveV2 w s)) as [info|]; [|done].
    simpl. by rewrite readBack_cases; destruct info.
  - intros s Hfile Hcids. unfold loadCodebaseSnapshot. rewrite Hfile.
    cbn [fst snd]. unfold migrateV1ToV3.
    rewrite groupV1_distinct; [| done | done]. rewrite app_nil_l.
    fold (liveV1 w s).
    set (info0 := InfoIndexed 0 0 Completed now).
    set (l := (fun p => (p, info0)) <$> liveV1 w s).
    assert (l.*1 = liveV1 w s) as Hfst.
    { subst l. rewrite <- list_fmap_compose. apply list_fmap_id. }
    pose proof (build_alone w now l h Hw) as Hb. cbv zeta in Hb.
    rewrite Hfst in Hb.
    destruct (Hb (NoDup_fmap_1 _ _ Hcids) Hcids)
      as (Hwrites & Hv3 & Hindexed & Hinfo & Hprogress).
    assert (((fun p : string =>
                (canonicalIdFor w (p, info0).1,
                 {| groupIdentity := identityFor w (p, info0).1;
                    groupPaths := [(p, info0).1];
                    groupInfo := (p, info0).2 |})) <$> liveV1 w s)
            = (fun e : string * CodebaseInfo =>
                 (canonicalIdFor w e.1,
                  {| groupIdentity := identityFor w e.1;
                     groupPaths := [e.1];
                     groupInfo := e.2 |})) <$> l) as ->.
    { subst l. by rewrite <- list_fmap_compose. }
    split; [done|]. split; [done|]. split; [|split].
    + rewrite Hindexed. subst l. clear.
      induction (liveV1 w s) as [|p ps IH]; [done|].
      cbn [fmap list_fmap]. rewrite filter_cons_True by done.
      cbn [fmap list_fmap fst]. f_equal. exact IH.
    + intros p. rewrite Hinfo. subst l. rewrite alist_get_constant.
      by case_decide.
    + apply map_eq. intros p. rewrite Hprogress, lookup_empty.
      subst l. rewrite alist_get_constant. by case_decide.
Qed.

Lemma migration_keeps_legacy_views_witness :
  let now := "2026-01-01T00:00:00.000Z" in
  let before := "2025-06-01T00:00:00.000Z" in
  let s := {| codebases := [("/tmp/p", InfoIndexed 5 9 Completed before);
                            ("/tmp/q", InfoIndexing 40 before);
                            ("/tmp/gone", InfoIndexFailed "disk" None before)] |} in
  let started :=
    loadCodebaseSnapshot ExampleWorld.example now newManager
      (hostWith (JsonV2 s)) in
  writes started.2 = 1
  /\ getIndexedCodebases started.1 started.2 = ["/tmp/p"]
  /\ getCodebaseInfo started.1 "/tmp/q" = Some (InfoIndexing 40 before)
  /\ getCodebaseInfo started.1 "/tmp/gone" = None
  /\ getIndexingCodebasesWithProgress started.1 !! "/tmp/q" = Some 40%Z.
Proof.
  intros now before s started.
  destruct (migration_keeps_legacy_views ExampleWorld.example now
              (hostWith (JsonV2 s)) eq_refl) as [Hv2 _].
  destruct (Hv2 s eq_refl) as (Hwrites & _ & Hindexed & Hinfo & Hprogress).
  - refine (@bool_decide_unpack _ (NoDup_dec _) _). vm_compute. exact I.
  - split; [exact Hwrites|]. split; [exact Hindexed|].
    split; [exact (Hinfo "/tmp/q")|]. split; [exact (Hinfo "/tmp/gone")|].
    exact (Hprogress "/tmp/q").
Defined.

End SnapshotFacts.

Module SearchAllFacts.
Import RepoRegistry SearchAll.

Lemma precedes_total : Total precedes.
Proof.
  intros a b. unfold precedes, precedesb.
  rewrite <- (Qcompare_antisym (score b) (score a)).
  rewrite (String.compare_antisym (repoDisplayName b) (repoDisplayName a)).
  rewrite (String.compare_antisym (relativePath b) (relativePath a)).
  destruct (score b ?= score a)%Q; simpl; [|by left|by right].
  destruct (String.compare (repoDisplayName a) (repoDisplayName b));
    simpl; [|by left|by right].
  destruct (String.compare (relativePath a) (relativePath b));
    simpl; [|by left|by right].
  destruct (Z.leb_spec (startLine a) (startLine b)); [by left | right].
  apply Z.leb_le. lia.
Qed.

Lemma precedes_score (a b : SearchResult) :
  precedes a b -> (score b <= score a)%Q.
Proof.
  unfold precedes, precedesb. intros H. apply Qle_alt. intros Hgt.
  by rewrite Hgt in H.
Qed.

Lemma Sorted_take {A} (R : relation A) (n : nat) (l : list A) :
  Sorted R l -> Sorted R (take n l).
Proof.
  intros H. revert n. induction H as [|a l Hl IH Hhd]; intros [|n]; simpl;
    try by constructor.
  constructor; [apply IH|]. destruct Hhd; destruct n; simpl; by constructor.
Qed.

Lemma Sorted_weaken {A} (R S : relation A) (l : list A) :
  (forall a b, R a b -> S a b) -> Sorted R l -> Sorted S l.
Proof.
  intros HRS H. induction H as [|a l Hl IH Hhd]; constructor; [done|].
  destruct Hhd; constructor; auto.
Qed.

Lemma mergeAndRank_length (limit : nat) (batches : list (list SearchResult)) :
  length (mergeAndRank limit batches) <= limit.
Proof. unfold mergeAndRank. rewrite length_take. lia. Qed.

Lemma mergeAndRank_sorted (limit : nat) (batches : list (list SearchResult)) :
  Sorted precedes (mergeAndRank limit batches).
Proof. apply Sorted_take, Sorted_merge_sort, precedes_total. Qed.

Lemma mergeAndRank_elem (limit : nat) (batches : list (list SearchResult))
    (x : SearchResult) :
  x ∈ mergeAndRank limit batches -> exists batch, batch ∈ batches /\ x ∈ batch.
Proof.
  unfold mergeAndRank. intros (i & Hx%list_elem_of_lookup_2 & _)%elem_of_take.
  rewrite merge_sort_Permutation in Hx.
  apply list_elem_of_In, in_concat in Hx as (batch & ? & ?).
  exists batch. by rewrite !list_elem_of_In.
Qed.

Lemma dedupe_elem (seen : list string) (l : list Target) (t : Target) :
  t ∈ dedupe seen l -> t ∈ l /\ targetCollection t ∉ seen.
Proof.
  revert seen. induction l as [|t0 l IH]; intros seen; simpl.
  - by intros ?%elem_of_nil.
  - case_bool_decide as Hseen.
    + intros [? ?]%IH. split; [by right | done].
    + intros [->|[? Hnot]%IH]%elem_of_cons; [split; [by left | done]|].
      split; [by right|]. intros ?. apply Hnot. by right.
Qed.

(** Deduplication keeps the first target of a name. *)
Lemma dedupe_first (seen : list string) (l1 l2 : list Target) (t t' : Target) :
  t ∈ dedupe seen (l1 ++ l2) ->
  t' ∈ l1 -> targetCollection t' = targetCollection t ->
  t ∈ l1.
Proof.
  revert seen. induction l1 as [|t1 l1 IH]; intros seen Ht Ht' Hname.
  - by apply elem_of_nil in Ht'.
  - simpl in Ht. case_bool_decide as Hseen.
    + apply elem_of_cons in Ht' as [->|Ht'].
      * apply dedupe_elem in Ht as [_ Hnot]. by rewrite Hname in Hseen.
      * right. by apply (IH seen).
    + apply elem_of_cons in Ht as [->|Ht]; [by left|].
      apply elem_of_cons in Ht' as [->|Ht'].
      * apply dedupe_elem in Ht as [_ Hnot]. exfalso. apply Hnot.
        rewrite Hname. by left.
      * right. by apply (IH (targetCollection t1 :: seen)).
Qed.

Lemma registryTargets_elem (r : RepoRegistry) (t : Target) :
  t ∈ registryTargets r <->
  exists rec, rec ∈ listIndexed r
              /\ collectionName rec = Some (targetCollection t)
              /\ targetDisplayName t = displayName rec
              /\ targetCanonicalId t = Some (canonicalId rec).
Proof.
  unfold registryTargets. rewrite list_elem_of_omap. split.
  - intros (rec & Hrec & Ht). exists rec. split; [done|].
    destruct (collectionName rec); simplify_eq/=. done.
  - intros (rec & Hrec & Hc & Hd & Hid). exists rec. split; [done|].
    rewrite Hc. simpl. f_equal. destruct t; simpl in *. by subst.
Qed.

Lemma listIndexed_listAll (r : RepoRegistry) (rec : RepoRecord) :
  rec ∈ listIndexed r -> rec ∈ listAll r.
Proof. unfold listIndexed. by intros [_ ?]%list_elem_of_filter. Qed.

Lemma not_present_empty (id : string) : ~ present empty id.
Proof. intros (rec & Hrec & _). by apply elem_of_nil in Hrec. Qed.

Section Engine.
Context (store : VectorStore).
Context (unregistered : string -> string * option string).
Context (mode : Normalization).

(** A result is attributed to the fan-out target it was found in. *)
Lemma result_target (r : RepoRegistry) (query : string) (limit : option nat)
    (repos extensionFilter : list string) (x : SearchResult) :
  x ∈ results (handleSearchAll store unregistered mode r query limit repos
                 extensionFilter) ->
  exists t, t ∈ targets store unregistered r repos
            /\ sourceCollection x = targetCollection t
            /\ repoDisplayName x = targetDisplayName t
            /\ canonicalRepoId x = targetCanonicalId t
            /\ normalization x = mode.
Proof.
  unfold handleSearchAll. cbn [results].
  intros (batch & Hbatch & Hx)%mergeAndRank_elem.
  apply list_elem_of_fmap in Hbatch as (t & -> & Ht). exists t.
  split; [done|]. unfold collected in Hx.
  destruct (searchCollection _ _ _ _ t); try by apply elem_of_nil in Hx.
  by apply list_elem_of_fmap in Hx as (h & -> & _).
Qed.

(** The target of a collection that an indexed record references is the
    one made from the registry. *)
Lemma target_of_registered (r : RepoRegistry) (repos : list string)
    (t : Target) (rec : RepoRecord) :
  t ∈ targets store unregistered r repos ->
  rec ∈ listIndexed r -> collectionName rec = Some (targetCollection t) ->
  t ∈ registryTargets r.
Proof.
  unfold targets, discover. intros [_ Ht]%list_elem_of_filter Hrec Hc.
  eapply (dedupe_first [] _ _ t
            {| targetCollection := targetCollection t;
               targetDisplayName := displayName rec;
               targetCanonicalId := Some (canonicalId rec) |});
    [exact Ht | | done].
  apply registryTargets_elem. by exists rec.
Qed.

End Engine.

(** Whatever a collection outside the registry is attributed to, its
    results carry no canonical ID of an empty registry. *)
Lemma live_collection_any_attribution
    (unregistered : string -> string * option string) (mode : Normalization) :
  exists x,
    x ∈ results (handleSearchAll exampleStore unregistered mode empty "auth"
                   (Some 5) [] [])
    /\ ~ exists id, canonicalRepoId x = Some id /\ present empty id.
Proof.
  eexists. split.
  - unfold handleSearchAll, targets, discover, liveTargets. cbn [results].
    vm_compute registryTargets. simpl.
    unfold mergeAndRank, collected. simpl. by left.
  - intros (id & _ & Hid). by apply not_present_empty in Hid.
Qed.

(** C9, as stated, fails for a collection that only the live enumeration
    of the vector store finds: its results carry no canonical ID that is
    present in the registry. *)
Lemma live_collection_is_outside_registry :
  exists x,
    x ∈ results (handleSearchAll exampleStore (fun c => (c, None)) Raw empty
                   "auth" (Some 5) [] [])
    /\ canonicalRepoId x = None
    /\ ~ exists id, canonicalRepoId x = Some id /\ present empty id.
Proof.
  eexists. split; [|split].
  - vm_compute. by left.
  - reflexivity.
  - intros (id & Hid & _). discriminate Hid.
Qed.

(** C9, amended.  For every query and every limit [N], [search_all]
    returns at most [N] results; the results are sorted non-increasingly
    by score, with ties ordered by [(repoDisplayName, relativePath,
    startLine)]; [collectionsQueried] is the number of fan-out targets;
    and every result whose source collection is referenced by an indexed
    record of the registry carries a non-null [canonicalRepoId] that is
    present in the registry. *)
Theorem search_all_contract (store : VectorStore)
    (unregistered : string -> string * option string) (mode : Normalization)
    (r : RepoRegistry) (query : string) (N : nat)
    (repos extensionFilter : list string) :
  let response :=
    handleSearchAll store unregistered mode r query (Some N) repos
      extensionFilter in
  length (results response) <= N
  /\ Sorted precedes (results response)
  /\ Sorted (fun a b => (score b <= score a)%Q) (results response)
  /\ collectionsQueried (summary response)
     = length (targets store unregistered r repos)
  /\ forall x rec,
       x ∈ results response ->
       rec ∈ listIndexed r ->
       collectionName rec = Some (sourceCollection x) ->
       exists id, canonicalRepoId x = Some id /\ present r id.
Proof.
  intros response. subst response. split; [|split; [|split; [|split]]].
  - unfold handleSearchAll. cbn [results].
    etrans; [apply mergeAndRank_length|]. unfold effectiveLimit. simpl. lia.
  - apply mergeAndRank_sorted.
  - eapply Sorted_weaken; [|apply mergeAndRank_sorted].
    apply precedes_score.
  - reflexivity.
  - intros x rec Hx Hrec Hc.
    apply result_target in Hx as (t & Ht & Hsrc & _ & Hid & _).
    rewrite Hsrc in Hc.
    pose proof (target_of_registered _ _ _ _ _ rec Ht Hrec Hc) as Hreg.
    apply registryTargets_elem in Hreg as (rec' & Hrec' & _ & _ & Hid').
    exists (canonicalId rec'). split; [congruence|].
    exists rec'. split; [by apply listIndexed_listAll | done].
Qed.

Lemma search_all_contract_witness :
  let response :=
    handleSearchAll exampleStore (fun c => (c, None)) MinMax exampleRegistry
      "auth" (Some 5) [] [] in
  length (results response) = 1
  /\ exists x id,
       x ∈ results response
       /\ canonicalRepoId x = Some id
       /\ present exampleRegistry id.
Proof.
  intros response. split; [vm_compute; reflexivity|].
  destruct (search_all_contract exampleStore (fun c => (c, None)) MinMax
              exampleRegistry "auth" 5 [] []) as (_ & _ & _ & _ & Hid).
  fold response in Hid.
  remember (results response) as found eqn:Hfound.
  remember (listIndexed exampleRegistry) as indexed eqn:Hindexed.
  vm_compute in Hfound, Hindexed. subst found indexed.
  destruct (Hid _ _ (list_elem_of_here _ _) (list_elem_of_here _ _) eq_refl)
    as (id & Hx & Hpresent).
  eexists _, id. split; [apply list_elem_of_here|]. split; [exact Hx|exact Hpresent].
Defined.

End SearchAllFacts.

Module RegistryLaws.
Import JsString Node.
Import RepoRegistry RepoRegistryFacts.

Lemma push_new_NoDup (l : list string) (p : string) :
  NoDup l -> NoDup (RepoIdentity.push_new l p).
Proof.
  intros Hl. unfold RepoIdentity.push_new, RepoIdentity.includes.
  case_bool_decide as Hin; [done|].
  apply NoDup_app. split; [done|]. split; [|apply NoDup_singleton].
  intros q Hq ->%list_elem_of_singleton. done.
Qed.

Lemma push_new_nonempty (l : list string) (p : string) :
  RepoIdentity.push_new l p <> [].
Proof.
  unfold RepoIdentity.push_new. destruct (RepoIdentity.includes p l) eqn:E.
  - unfold RepoIdentity.includes in E. apply bool_decide_eq_true in E.
    intros ->. by apply elem_of_nil in E.
  - by destruct l.
Qed.

Lemma without_elem (x p : string) (l : list string) :
  p ∈ without x l <-> p <> x /\ p ∈ l.
Proof. unfold without. by rewrite list_elem_of_filter. Qed.

Lemma empty_wellKept : wellKept empty.
Proof. intros id rec H. simpl in H. by rewrite lookup_empty in H. Qed.

Section WithWorld.
Context (w : World).

Lemma register_wellKept (p : string) (o : RegisterOptions) (now : string)
    (r : RepoRegistry) :
  wellKept r -> wellKept (register w p o now r).2.
Proof.
  intros Hr. unfold register, bind, this, put, ret.
  set (cid := RepoIdentity.canonicalId
                (RepoIdentity.resolveIdentity w (path_resolve w [p]))).
  destruct (repositories r !! cid) as [rec0|] eqn:Hrec;
    simpl; intros id rec Hid; simpl in Hid;
    (destruct (decide (id = cid)) as [-> | Hne];
     [rewrite lookup_insert_eq in Hid; injection Hid as <-
     |rewrite lookup_insert_ne in Hid by done; by apply Hr]); simpl.
  - destruct (Hr _ _ Hrec) as (Hid & Hne & Hk & Hw & Hsub).
    split; [done|]. split; [apply push_new_nonempty|].
    split; [by apply push_new_NoDup|].
    destruct (RepoIdentity.isWorktree _).
    + split; [by apply push_new_NoDup|].
      intros q [Hq | ->]%push_new_elem; apply push_new_elem; auto.
    + split; [done|]. intros q Hq. apply push_new_elem. auto.
  - split; [done|]. split; [done|]. split; [apply NoDup_singleton|].
    destruct (RepoIdentity.isWorktree _).
    + split; [apply NoDup_singleton | done].
    + split; [apply NoDup_nil_2 | by intros q ?%elem_of_nil].
Qed.

Lemma removePath_wellKept (p : string) (r : RepoRegistry) :
  wellKept r -> wellKept (removePath w p r).2.
Proof.
  intros Hr. unfold removePath, bind, this, put, ret.
  destruct (pathToCanonicalId r !! path_resolve w [p]) as [c|]; [|done].
  destruct (truthy c); [|done].
  destruct (repositories r !! c) as [rec0|] eqn:Hrec; [|done].
  destruct (Hr _ _ Hrec) as (Hid & Hne & Hk & Hw & Hsub).
  simpl. destruct (without (path_resolve w [p]) (knownPaths rec0)) eqn:Hleft;
    simpl; intros id rec Hlook; simpl in Hlook.
  - destruct (decide (id = c)) as [-> | Hidc].
    + by rewrite lookup_delete_eq in Hlook.
    + rewrite lookup_delete_ne in Hlook by done. by apply Hr.
  - destruct (decide (id = c)) as [-> | Hidc].
    + rewrite lookup_insert_eq in Hlook. injection Hlook as <-. simpl.
      split; [done|]. split; [done|].
      rewrite <- Hleft. split; [by apply NoDup_filter|].
      split; [by apply NoDup_filter|].
      intros q [Hq1 Hq2]%without_elem. apply without_elem. auto.
    + rewrite lookup_insert_ne in Hlook by done. by apply Hr.
Qed.

End WithWorld.

Lemma markIndexed_wellKept (id coll : string) (files chunks : Z) (now : string)
    (r : RepoRegistry) :
  wellKept r -> wellKept (markIndexed id coll files chunks now r).2.
Proof.
  intros Hr. unfold markIndexed, bind, this, put, ret.
  destruct (repositories r !! id) as [rec0|] eqn:Hrec; [|done]. simpl.
  intros id' rec Hlook. simpl in Hlook. destruct (decide (id' = id)) as [-> | Hne].
  - rewrite lookup_insert_eq in Hlook. injection Hlook as <-. simpl.
    by apply Hr.
  - rewrite lookup_insert_ne in Hlook by done. by apply Hr.
Qed.

Lemma markNotIndexed_wellKept (id : string) (r : RepoRegistry) :
  wellKept r -> wellKept (markNotIndexed id r).2.
Proof.
  intros Hr. unfold markNotIndexed, bind, this, put, ret.
  destruct (repositories r !! id) as [rec0|] eqn:Hrec; [|done]. simpl.
  intros id' rec Hlook. simpl in Hlook. destruct (decide (id' = id)) as [-> | Hne].
  - rewrite lookup_insert_eq in Hlook. injection Hlook as <-. simpl.
    by apply Hr.
  - rewrite lookup_insert_ne in Hlook by done. by apply Hr.
Qed.

Lemma removeByCanonicalId_wellKept (id : string) (r : RepoRegistry) :
  wellKept r -> wellKept (removeByCanonicalId id r).2.
Proof.
  intros Hr. unfold removeByCanonicalId, bind, this, put, ret.
  destruct (repositories r !! id) as [rec0|] eqn:Hrec; [|done]. simpl.
  intros id' rec Hlook. simpl in Hlook. destruct (decide (id' = id)) as [-> | Hne].
  - by rewrite lookup_delete_eq in Hlook.
  - rewrite lookup_delete_ne in Hlook by done. by apply Hr.
Qed.

Lemma lookup_foldl_delete (l : list string) (m : gmap string string)
    (q : string) :
  foldl (fun m k => delete k m) m l !! q
  = if decide (q ∈ l) then None else m !! q.
Proof.
  revert m. induction l as [|k l IH]; intros m; simpl.
  - destruct (decide (q ∈ [])) as [H|H]; [by apply elem_of_nil in H | done].
  - rewrite IH. destruct (decide (q ∈ l)) as [Hl|Hl].
    + rewrite decide_True; [done | by right].
    + destruct (decide (q = k)) as [-> | Hk].
      * rewrite decide_True by (by left). apply lookup_delete_eq.
      * rewrite decide_False by (by intros [?|?]%elem_of_cons).
        by apply lookup_delete_ne.
Qed.

Section Laws.
Context (w : World).

Local Abbreviation cidOf p :=
  (RepoIdentity.canonicalId
     (RepoIdentity.resolveIdentity w (path_resolve w [p]))).

(** [resolve] on a registry whose index agrees with its records. *)
Lemma resolve_closed_form (p : string) (r : RepoRegistry) :
  md5_is_hex32 w -> consistent w r ->
  resolve w p r
  = (Some {| found := bool_decide (is_Some (repositories r !! cidOf p));
             record := repositories r !! cidOf p;
             identity := RepoIdentity.resolveIdentity w (path_resolve w [p]);
             isNewPathForExistingRepo :=
               bool_decide (is_Some (repositories r !! cidOf p)
                            /\ pathToCanonicalId r !! path_resolve w [p] = None);
             primaryPath :=
               repositories r !! cidOf p ≫= fun rec => head (knownPaths rec) |},
     r).
Proof.
  intros Hmd5 Hr. unfold resolve, bind, this, ret. simpl.
  destruct (pathToCanonicalId r !! path_resolve w [p]) as [c|] eqn:Hc.
  - destruct (Hr _ _ Hc) as [-> (rec & Hrec & _)].
    rewrite RepoIdentityFacts.canonicalId_truthy by done.
    by rewrite Hrec.
  - by destruct (repositories r !! cidOf p) as [rec|] eqn:Hrec.
Qed.

Lemma removePath_tracks (p : string) (paths : list string) (r : RepoRegistry) :
  md5_is_hex32 w ->
  tracks w paths r ->
  tracks w (without (path_resolve w [p]) paths) (removePath w p r).2.
Proof.
  intros Hmd5 (Hr & Hback & Hdom).
  assert (forall q, q ∈ without (path_resolve w [p]) paths
                    <-> q <> path_resolve w [p] /\ q ∈ paths) as Hwithout
    by (intros q; apply without_elem).
  unfold removePath, bind, this, put, ret.
  destruct (pathToCanonicalId r !! path_resolve w [p]) as [c|] eqn:Hc.
  2:{ simpl. split; [done|]. split; [done|]. intros q.
      rewrite Hwithout, <- Hdom. split; [|by intros [_ ?]].
      intros Hq. split; [|done]. intros ->. rewrite Hc in Hq.
      by destruct Hq. }
  assert (truthy c = true) as ->.
  { destruct (Hr _ _ Hc) as [-> _].
    by apply RepoIdentityFacts.canonicalId_truthy. }
  destruct (Hr _ _ Hc) as [Hcid (rec0 & Hrec & Hin)].
  rewrite Hrec. simpl.
  assert (forall q, delete (path_resolve w [p]) (pathToCanonicalId r) !! q
                    = if decide (q = path_resolve w [p]) then None
                      else pathToCanonicalId r !! q) as Hidx.
  { intros q. rewrite lookup_delete. by repeat case_decide. }
  destruct (without (path_resolve w [p]) (knownPaths rec0)) eqn:Hleft; simpl.
  - split; [|split].
    + intros q c' Hq. simpl in Hq. rewrite Hidx in Hq.
      case_decide as Hqp; [done|]. destruct (Hr _ _ Hq) as [-> (rec & Hrec' & Hin')].
      split; [done|]. exists rec. split; [|done]. simpl.
      rewrite lookup_delete_ne; [done|]. intros E. rewrite <- E in Hrec'.
      rewrite Hrec in Hrec'. injection Hrec' as <-.
      assert (q ∈ without (path_resolve w [p]) (knownPaths rec0)) as Hq'
        by (by apply without_elem).
      rewrite Hleft in Hq'. by apply elem_of_nil in Hq'.
    + intros id rec q Hid Hq. simpl in Hid |- *.
      destruct (decide (id = c)) as [-> | Hne];
        [by rewrite lookup_delete_eq in Hid|].
      rewrite lookup_delete_ne in Hid by done.
      pose proof (Hback _ _ _ Hid Hq) as E. rewrite Hidx.
      case_decide as Hqp; [|done]. subst q. rewrite Hc in E. congruence.
    + intros q. simpl. rewrite Hidx, Hwithout, <- Hdom.
      case_decide; split; try done; try (by intros [? ?]); tauto.
  - split; [|split].
    + intros q c' Hq. simpl in Hq. rewrite Hidx in Hq.
      case_decide as Hqp; [done|].
      destruct (Hr _ _ Hq) as [-> (rec & Hrec' & Hin')].
      split; [done|]. simpl.
      destruct (decide (RepoIdentity.canonicalId
                          (RepoIdentity.resolveIdentity w q) = c)) as [E | E].
      * rewrite E, lookup_insert_eq. eexists. split; [done|]. simpl.
        rewrite <- Hleft. apply without_elem. split; [done|].
        rewrite E, Hrec in Hrec'. by injection Hrec' as <-.
      * rewrite lookup_insert_ne by done. by exists rec.
    + intros id rec q Hid Hq. simpl in Hid |- *. rewrite Hidx.
      destruct (decide (id = c)) as [-> | Hne].
      * rewrite lookup_insert_eq in Hid. injection Hid as <-. simpl in Hq.
        rewrite <- Hleft in Hq. apply without_elem in Hq as [Hqp Hq].
        rewrite decide_False by done. by apply (Hback _ rec0).
      * rewrite lookup_insert_ne in Hid by done.
        pose proof (Hback _ _ _ Hid Hq) as E.
        case_decide as Hqp; [|done]. subst q. rewrite Hc in E. congruence.
    + intros q. simpl. rewrite Hidx, Hwithout, <- Hdom.
      case_decide; split; try done; try (by intros [? ?]); tauto.
Qed.

Lemma removeByCanonicalId_tracks (id : string) (paths : list string)
    (r : RepoRegistry) :
  tracks w paths r ->
  tracks w (filter (fun q => pathToCanonicalId r !! q <> Some id) paths)
    (removeByCanonicalId id r).2.
Proof.
  intros (Hr & Hback & Hdom).
  unfold removeByCanonicalId, bind, this, put, ret.
  destruct (repositories r !! id) as [rec0|] eqn:Hrec; simpl.
  - assert (forall q, q ∈ knownPaths rec0 <-> pathToCanonicalId r !! q = Some id)
      as Hknown.
    { intros q. split; [by apply Hback|]. intros Hq.
      destruct (Hr _ _ Hq) as [E (rec & Hrec' & Hin)].
      rewrite Hrec in Hrec'. by injection Hrec' as <-. }
    split; [|split].
    + intros q c Hq. simpl in Hq. rewrite lookup_foldl_delete in Hq.
      case_decide as Hin; [done|]. destruct (Hr _ _ Hq) as [-> (rec & Hrec' & Hin')].
      split; [done|]. exists rec. split; [|done]. simpl.
      rewrite lookup_delete_ne; [done|]. intros E. apply Hin, Hknown.
      by rewrite E.
    + intros id' rec q Hid Hq. simpl in Hid |- *.
      destruct (decide (id' = id)) as [-> | Hne];
        [by rewrite lookup_delete_eq in Hid|].
      rewrite lookup_delete_ne in Hid by done.
      pose proof (Hback _ _ _ Hid Hq) as E. rewrite lookup_foldl_delete.
      case_decide as Hin; [|done]. apply Hknown in Hin. congruence.
    + intros q. simpl. rewrite lookup_foldl_delete, list_elem_of_filter, <- Hdom.
      case_decide as Hin.
      * split; [by intros [? ?]|]. intros [Hne _]. by apply Hknown in Hin.
      * split; [|by intros [_ ?]]. intros Hq. split; [|done].
        intros E. by apply Hin, Hknown.
  - split; [done|]. split; [done|]. intros q.
    rewrite list_elem_of_filter, <- Hdom. split; [|by intros [_ ?]].
    intros Hq. split; [|done]. intros E.
    destruct (Hr _ _ E) as [E' (rec & Hrec' & _)]. congruence.
Qed.

(** X1.  Whatever method changes the registry, every record stays filed
    under its own canonical ID, keeps at least one known path, lists no
    known path and no worktree twice, and counts every worktree among its
    known paths. *)
Theorem registry_records_stay_well_kept (r : RepoRegistry) :
  wellKept r ->
  (forall p options now, wellKept (register w p options now r).2)
  /\ (forall id collection files chunks now,
        wellKept (markIndexed id collection files chunks now r).2)
  /\ (forall id, wellKept (markNotIndexed id r).2)
  /\ (forall p, wellKept (removePath w p r).2)
  /\ (forall id, wellKept (removeByCanonicalId id r).2)
  /\ wellKept (clear r).2.
Proof.
  intros Hr. split; [|split; [|split; [|split; [|split]]]].
  - intros p options now. by apply register_wellKept.
  - intros id collection files chunks now. by apply markIndexed_wellKept.
  - intros id. by apply markNotIndexed_wellKept.
  - intros p. by apply removePath_wellKept.
  - intros id. by apply removeByCanonicalId_wellKept.
  - apply empty_wellKept.
Qed.


(** X3.  Removing keeps the path index in step with the records: after
    [removePath] the index holds the paths it held but the removed one,
    after [removeByCanonicalId] the paths it held but those of the removed
    repository, and in both cases every path left is filed under the ID
    it resolves to, whose record lists it. *)
Theorem removals_keep_index_in_step (paths : list string) (r : RepoRegistry) :
  md5_is_hex32 w -> tracks w paths r ->
  (forall p,
     tracks w (without (path_resolve w [p]) paths) (removePath w p r).2)
  /\ (forall id,
        tracks w (filter (fun q => pathToCanonicalId r !! q <> Some id) paths)
          (removeByCanonicalId id r).2).
Proof.
  intros Hmd5 Hr. split.
  - intros p. by apply removePath_tracks.
  - intros id. by apply removeByCanonicalId_tracks.
Qed.

(** X4.  [removePath] undoes the [register] of a path of a repository
    that the registry did not hold: the registry is as before. *)
Theorem removePath_undoes_register (p : string) (options : RegisterOptions)
    (now : string) (r : RepoRegistry) :
  md5_is_hex32 w ->
  repositories r !! cidOf p = None ->
  pathToCanonicalId r !! path_resolve w [p] = None ->
  removePath w p (register w p options now r).2 = (true, r).
Proof.
  intros Hmd5 Hrec Hidx. unfold register, bind, this, put, ret.
  rewrite Hrec. simpl. unfold removePath, bind, this, put, ret. simpl.
  rewrite !lookup_insert_eq.
  rewrite RepoIdentityFacts.canonicalId_truthy by done. simpl.
  unfold without. rewrite filter_cons_False by (by intros H; apply H).
  rewrite filter_nil. simpl.
  rewrite delete_insert_id by done. rewrite delete_insert_id by done.
  by destruct r.
Qed.

(** X5.  Once a repository is marked indexed through one of its paths,
    every path with the same canonical ID is reported as already indexed,
    registered or not; after [markNotIndexed] none is. *)
Theorem indexed_through_any_path (paths : list string) (p q : string)
    (options : RegisterOptions) (collection : string) (files chunks : Z)
    (now : string) (r : RepoRegistry) :
  md5_is_hex32 w -> tracks w paths r -> cidOf q = cidOf p ->
  let r1 := (register w p options now r).2 in
  let r2 := (markIndexed (cidOf p) collection files chunks now r1).2 in
  let r3 := (markNotIndexed (cidOf p) r2).2 in
  isPathAlreadyIndexed w q r2 = (Some true, r2)
  /\ isPathAlreadyIndexed w q r3 = (Some false, r3).
Proof.
  intros Hmd5 Hr Hcid r1 r2 r3.
  pose proof (register_tracks w p options now paths r Hr) as (Hr1 & _).
  pose proof (register_files w p options now r) as Hfiles.
  fold r1 in Hr1. subst r2 r3.
  destruct (register w p options now r) as [rec r1'] eqn:Hreg.
  simpl in r1. subst r1. destruct Hfiles as (Hrec & _).
  assert (forall r', pathToCanonicalId r' = pathToCanonicalId r1' ->
            (forall c, is_Some (repositories r' !! c)
                       <-> is_Some (repositories r1' !! c)) ->
            (forall c rec', repositories r' !! c = Some rec' ->
               exists rec0, repositories r1' !! c = Some rec0
                            /\ knownPaths rec' = knownPaths rec0) ->
            consistent w r') as Hsame.
  { intros r' Eidx Edom Eknown x c Hx. rewrite Eidx in Hx.
    destruct (Hr1 _ _ Hx) as [-> (rec0 & Hrec0 & Hin)]. split; [done|].
    destruct (proj2 (Edom _) ltac:(by eexists)) as [rec' Hrec'].
    exists rec'. split; [done|].
    destruct (Eknown _ _ Hrec') as (rec1 & Hrec1 & ->). congruence. }
  unfold markIndexed, bind, this, put, ret. rewrite Hrec. simpl.
  unfold markNotIndexed, bind, this, put, ret. simpl.
  rewrite lookup_insert_eq. simpl. split.
  - unfold isPathAlreadyIndexed, bind, ret.
    rewrite resolve_closed_form; [|done|].
    + simpl. by rewrite Hcid, lookup_insert_eq.
    + apply Hsame; [done| |]; intros c; simpl.
      * destruct (decide (c = cidOf p)) as [-> | Hne].
        -- rewrite lookup_insert_eq, Hrec. split; by eexists.
        -- by rewrite lookup_insert_ne.
      * intros rec'. destruct (decide (c = cidOf p)) as [-> | Hne].
        -- rewrite lookup_insert_eq. intros [= <-]. by exists rec.
        -- rewrite lookup_insert_ne by done. intros H. by exists rec'.
  - unfold isPathAlreadyIndexed, bind, ret.
    rewrite resolve_closed_form; [|done|].
    + simpl. by rewrite Hcid, lookup_insert_eq.
    + apply Hsame; [done| |]; intros c; simpl.
      * destruct (decide (c = cidOf p)) as [-> | Hne].
        -- rewrite lookup_insert_eq, Hrec. split; by eexists.
        -- by rewrite !lookup_insert_ne.
      * intros rec'. destruct (decide (c = cidOf p)) as [-> | Hne].
        -- rewrite lookup_insert_eq. intros [= <-]. by exists rec.
        -- rewrite !lookup_insert_ne by done. intros H. by exists rec'.
Qed.

End Laws.

Lemma registry_records_stay_well_kept_witness :
  let now := "2026-01-01T00:00:00.000Z" in
  let r1 := (register ExampleWorld.example "/srv/clone" noOptions now empty).2 in
  wellKept r1
  /\ wellKept (register ExampleWorld.example "/srv/mirror" noOptions now r1).2
  /\ wellKept (removePath ExampleWorld.example "/srv/clone" r1).2.
Proof.
  intros now r1.
  assert (wellKept r1) as H1.
  { apply (registry_records_stay_well_kept ExampleWorld.example empty).
    apply empty_wellKept. }
  split; [exact H1|].
  split; apply (registry_records_stay_well_kept ExampleWorld.example r1 H1).
Defined.


Lemma removals_keep_index_in_step_witness :
  let now := "2026-01-01T00:00:00.000Z" in
  let r2 :=
    registerAll ExampleWorld.example
      [("/srv/clone", noOptions, now); ("/srv/mirror", noOptions, now)] empty in
  tracks ExampleWorld.example ["/srv/mirror"]
    (removePath ExampleWorld.example "/srv/clone" r2).2.
Proof.
  intros now r2.
  destruct (removals_keep_index_in_step ExampleWorld.example
              ["/srv/clone"; "/srv/mirror"] r2) as [Hpath _].
  - apply ExampleWorldFacts.world_md5.
  - exact (registerAll_tracks ExampleWorld.example
             [("/srv/clone", noOptions, now); ("/srv/mirror", noOptions, now)]
             [] empty (empty_tracks ExampleWorld.example)).
  - apply (Hpath "/srv/clone").
Defined.

Lemma removePath_undoes_register_witness :
  removePath ExampleWorld.example "/tmp/p"
    (register ExampleWorld.example "/tmp/p" noOptions
       "2026-01-01T00:00:00.000Z" empty).2
  = (true, empty).
Proof.
  apply removePath_undoes_register.
  - apply ExampleWorldFacts.world_md5.
  - reflexivity.
  - reflexivity.
Defined.

Lemma indexed_through_any_path_witness :
  let now := "2026-01-01T00:00:00.000Z" in
  let r1 := (register ExampleWorld.example "/srv/clone" noOptions now empty).2 in
  let r2 :=
    (markIndexed
       (RepoIdentity.canonicalId
          (RepoIdentity.resolveIdentity ExampleWorld.example "/srv/clone"))
       "code_chunks_0a1b2c3d" 5 9 now r1).2 in
  (isPathAlreadyIndexed ExampleWorld.example "/srv/mirror" r2).1 = Some true.
Proof.
  intros now r1 r2.
  destruct (indexed_through_any_path ExampleWorld.example [] "/srv/clone"
              "/srv/mirror" noOptions "code_chunks_0a1b2c3d" 5 9 now empty)
    as [Hyes _].
  - apply ExampleWorldFacts.world_md5.
  - apply empty_tracks.
  - vm_compute. reflexivity.
  - exact (f_equal fst Hyes).
Defined.

End RegistryLaws.

Module IdentityLaws.
Import JsString Regex Node StringFacts RegexFacts.
Import GitUtils RepoIdentity.

Lemma foldl_push_new_NoDup (ws l : list string) :
  NoDup l -> NoDup (foldl push_new l ws).
Proof.
  revert l. induction ws as [|x ws IH]; intros l Hl; [done|].
  simpl. by apply IH, RegistryLaws.push_new_NoDup.
Qed.

Lemma foldl_push_new_elem (ws l : list string) (q : string) :
  q ∈ foldl push_new l ws <-> q ∈ l \/ q ∈ ws.
Proof.
  revert l. induction ws as [|x ws IH]; intros l; simpl.
  - rewrite elem_of_nil. tauto.
  - rewrite IH, RepoRegistryFacts.push_new_elem, elem_of_cons. tauto.
Qed.

Lemma push_new_head (l : list string) (p x : string) :
  head l = Some x -> head (push_new l p) = Some x.
Proof.
  unfold push_new. destruct (includes p l); [done|]. by destruct l.
Qed.

Lemma foldl_push_new_head (ws l : list string) (x : string) :
  head l = Some x -> head (foldl push_new l ws) = Some x.
Proof.
  revert l. induction ws as [|y ws IH]; intros l Hl; [done|].
  simpl. by apply IH, push_new_head.
Qed.

Lemma push_new_length (l : list string) (p : string) :
  length (push_new l p) <= S (length l).
Proof.
  unfold push_new. destruct (includes p l); [lia|].
  rewrite length_app. simpl. lia.
Qed.

(** [p*] takes the whole run when the continuation accepts that. *)
Lemma exec_star_some {A} (p : ascii -> bool) (a b : string) caps
    (k : string -> string -> list string -> option A) x :
  every p a = true -> stops p b = true ->
  k a b caps = Some x ->
  exec (Star p) (a +:+ b) caps k = Some x.
Proof.
  intros Ha Hb Hk.
  change (match plus p (a +:+ b) (fun t rest => k t rest caps) with
          | Some y => Some y
          | None => k EmptyString (a +:+ b) caps
          end = Some x).
  destruct a as [|c a].
  - rewrite sapp_nil_l, (plus_stops _ _ _ Hb). exact Hk.
  - rewrite plus_greedy; rewrite ?Hk; done.
Qed.

(** The pattern of a worktree pointer: [gitdir:], blanks, and the rest of
    the line as the pointer. *)
Lemma match_gitdirRe (blanks pointer : string) :
  every space blanks = true ->
  pointer <> EmptyString -> every dot pointer = true ->
  stops space pointer = true ->
  match_at_start gitdirRe ("gitdir:" +:+ blanks +:+ pointer) = Some [pointer].
Proof.
  intros Hb Hne Hdot Hstop. unfold match_at_start, gitdirRe.
  apply exec_seq_some, exec_lit_some, exec_seq_some.
  apply exec_star_some; [done..|].
  apply GitUrlFacts.exec_rest_of_line; done.
Qed.

Section WithWorld.
Context (w : World).

(** X6.  Leaving the worktree listing out ([includeWorktrees: false])
    changes nothing of an identity but its detected paths, which become a
    part of the full list, at most two.  With or without the listing the
    detected paths have no duplicates, begin with the repository root (the
    resolved path outside a repository), and contain the main worktree of
    a linked one. *)
Theorem identity_ignores_worktree_listing (includeWorktrees : bool)
    (targetPath : string) :
  let id := resolveIdentity_with w includeWorktrees targetPath in
  let full := resolveIdentity w targetPath in
  canonicalId id = canonicalId full
  /\ identitySource id = identitySource full
  /\ remoteUrl id = remoteUrl full
  /\ displayName id = displayName full
  /\ mainWorktreePath id = mainWorktreePath full
  /\ isGitRepo id = isGitRepo full
  /\ isWorktree id = isWorktree full
  /\ repoRoot id = repoRoot full
  /\ NoDup (detectedPaths id)
  /\ head (detectedPaths id)
     = Some (default (path_resolve w [targetPath]) (repoRoot id))
  /\ (forall m, mainWorktreePath id = Some m -> m ∈ detectedPaths id)
  /\ (forall q, q ∈ detectedPaths id -> q ∈ detectedPaths full)
  /\ (includeWorktrees = false -> length (detectedPaths id) <= 2).
Proof.
  assert (forall x : string, NoDup [x]) as Hone by (intros; apply NoDup_singleton).
  unfold resolveIdentity.
  destruct includeWorktrees; unfold resolveIdentity_with; cbv zeta;
    repeat case_match; simpl;
    repeat match goal with
           | |- _ /\ _ => split
           | |- _ = _ => reflexivity
           | |- NoDup _ =>
               first [ apply foldl_push_new_NoDup | idtac ];
               first [ apply RegistryLaws.push_new_NoDup | idtac ];
               apply Hone
           | |- head _ = _ =>
               first [ apply foldl_push_new_head | idtac ];
               first [ apply push_new_head | idtac ];
               reflexivity
           | |- forall m, _ = Some m -> _ =>
               let E := fresh in
               intros ? E; simplify_eq;
               rewrite ?foldl_push_new_elem, ?RepoRegistryFacts.push_new_elem;
               auto
           | |- forall q, _ ∈ _ -> _ =>
               let E := fresh in
               intros ? E;
               rewrite ?foldl_push_new_elem, ?RepoRegistryFacts.push_new_elem in *;
               tauto
           | |- _ = false -> _ =>
               let E := fresh in
               intros E; try discriminate E; simpl;
               try (etrans; [apply push_new_length|]); simpl; lia
           end.
Qed.

(** X7.  The identity depends on the path only through the repository root
    that detection finds: two paths with the same root get the same
    canonical ID, source, remote URL and display name, are the same
    repository for [isSameRepository], and both list the root and every
    worktree that git reports there. *)
Theorem identity_depends_on_the_root_only (p1 p2 root : string) :
  repoRoot (resolveIdentity w p1) = Some root ->
  repoRoot (resolveIdentity w p2) = Some root ->
  let id1 := resolveIdentity w p1 in
  let id2 := resolveIdentity w p2 in
  canonicalId id1 = canonicalId id2
  /\ identitySource id1 = identitySource id2
  /\ remoteUrl id1 = remoteUrl id2
  /\ displayName id1 = displayName id2
  /\ isSameRepository w p1 p2 = true
  /\ (forall q, q = root \/ q ∈ listWorktrees w root ->
        q ∈ detectedPaths id1 /\ q ∈ detectedPaths id2).
Proof.
  intros H1 H2.
  assert (forall p,
            repoRoot (resolveIdentity w p) = Some root ->
            let id := resolveIdentity w p in
            let url := and_then_truthy
                         (and_then_truthy (getRemoteOriginUrl w root)
                            normalizeGitUrl) Some in
            let sha := and_then_truthy (getInitialCommitSha w root) Some in
            canonicalId id
            = match url, sha with
              | Some u, _ => canonicalIdFromUrl w u
              | None, Some c => canonicalIdFromCommit w c
              | None, None => canonicalIdFromPath w root
              end
            /\ identitySource id
               = match url, sha with
                 | Some _, _ => RemoteUrl
                 | None, Some _ => InitialCommit
                 | None, None => PathHash
                 end
            /\ remoteUrl id = url
            /\ displayName id = extractDisplayName w url root
            /\ (forall q, q = root \/ q ∈ listWorktrees w root ->
                  q ∈ detectedPaths id)) as Hroot.
  { intros p. unfold resolveIdentity, resolveIdentity_with. cbv zeta.
    repeat case_match; simpl; intros Hp; simplify_eq;
      (split; [reflexivity|]); (split; [reflexivity|]);
      (split; [reflexivity|]); (split; [reflexivity|]);
      intros q Hq;
      rewrite ?foldl_push_new_elem, ?RepoRegistryFacts.push_new_elem,
        ?list_elem_of_singleton; tauto. }
  destruct (Hroot p1 H1) as (Hc1 & Hs1 & Hu1 & Hd1 & Hp1).
  destruct (Hroot p2 H2) as (Hc2 & Hs2 & Hu2 & Hd2 & Hp2).
  cbv zeta in *.
  assert (canonicalId (resolveIdentity w p1) = canonicalId (resolveIdentity w p2))
    as Hc by (by rewrite Hc1, Hc2).
  split; [exact Hc|]. split; [by rewrite Hs1, Hs2|].
  split; [by rewrite Hu1, Hu2|]. split; [by rewrite Hd1, Hd2|].
  split; [unfold isSameRepository; by apply bool_decide_eq_true_2|].
  intros q Hq. split; auto.
Qed.

(** X8.  The upward search stops before the filesystem root: for a path
    that resolves to the root, [findGitPath] answers nothing, whatever is
    stored there, and the identity is the hash of the path. *)
Theorem filesystem_root_is_never_searched (targetPath : string) :
  let root := path_resolve w [targetPath] in
  path_resolve w [root] = root ->
  path_root w root = root ->
  findGitPath w targetPath = None
  /\ detectGitRepo w targetPath
     = {| GitUtils.isGitRepo := false; GitUtils.repoRoot := None;
          GitUtils.isWorktree := false; mainGitDir := None; gitPath := None |}
  /\ resolveIdentity w targetPath
     = {| canonicalId := md5 w root;
          remoteUrl := None; mainWorktreePath := None;
          detectedPaths := [root];
          displayName := path_basename w root;
          identitySource := PathHash;
          isGitRepo := false; isWorktree := false; repoRoot := None |}.
Proof.
  intros root Hidem Hroot.
  assert (forall p, path_resolve w [p] = root -> findGitPath w p = None) as Hfind.
  { intros p Hp. unfold findGitPath. rewrite Hp. fold root. rewrite Hroot.
    simpl. by rewrite decide_True. }
  assert (forall p, path_resolve w [p] = root ->
            detectGitRepo w p
            = {| GitUtils.isGitRepo := false; GitUtils.repoRoot := None;
                 GitUtils.isWorktree := false; mainGitDir := None;
                 gitPath := None |}) as Hdetect.
  { intros p Hp. unfold detectGitRepo. rewrite Hp, (Hfind root Hidem).
    reflexivity. }
  split; [by apply Hfind|]. split; [by apply Hdetect|].
  unfold resolveIdentity, resolveIdentity_with. fold root.
  rewrite (Hdetect root Hidem). reflexivity.
Qed.

(** X9.  A [.git] file that reads [gitdir:], blanks, and a pointer makes
    the checkout a worktree: [detectGitRepo] answers the directory two
    levels above the pointer as the main git directory, and
    [resolveIdentity] answers the parent of that directory as the main
    worktree, listed among the detected paths after the root. *)
Theorem worktree_pointer_is_followed
    (targetPath gitFile content blanks pointer : string) :
  let resolved := path_resolve w [targetPath] in
  let main := path_resolve w [pointer; ".."; ".."] in
  path_resolve w [resolved] = resolved ->
  findGitPath w resolved = Some (gitFile, true) ->
  readFileSync w gitFile = Some content ->
  trim content = "gitdir:" +:+ blanks +:+ pointer ->
  every space blanks = true ->
  pointer <> EmptyString -> every dot pointer = true ->
  stops space pointer = true ->
  path_dirname w gitFile <> EmptyString -> main <> EmptyString ->
  detectGitRepo w targetPath
  = {| GitUtils.isGitRepo := true;
       GitUtils.repoRoot := Some (path_dirname w gitFile);
       GitUtils.isWorktree := true;
       mainGitDir := Some main;
       gitPath := Some gitFile |}
  /\ isWorktree (resolveIdentity w targetPath) = true
  /\ repoRoot (resolveIdentity w targetPath) = Some (path_dirname w gitFile)
  /\ mainWorktreePath (resolveIdentity w targetPath)
     = Some (path_dirname w main)
  /\ path_dirname w main ∈ detectedPaths (resolveIdentity w targetPath).
Proof.
  intros resolved main Hidem Hfind Hread Hcontent Hblanks Hne Hdot Hstop
    Hroot Hmain.
  assert (forall p, path_resolve w [p] = resolved ->
            detectGitRepo w p
            = {| GitUtils.isGitRepo := true;
                 GitUtils.repoRoot := Some (path_dirname w gitFile);
                 GitUtils.isWorktree := true;
                 mainGitDir := Some main;
                 gitPath := Some gitFile |}) as Hdetect.
  { intros p Hp. unfold detectGitRepo. rewrite Hp, Hfind. simpl.
    unfold readWorktreePointer. rewrite Hread, Hcontent.
    rewrite (match_gitdirRe blanks pointer) by done. reflexivity. }
  split; [by apply Hdetect|].
  apply truthy_nonempty in Hroot, Hmain.
  unfold resolveIdentity, resolveIdentity_with. fold resolved.
  rewrite (Hdetect resolved Hidem). cbn [GitUtils.isGitRepo GitUtils.repoRoot
    GitUtils.isWorktree mainGitDir]. rewrite Hroot. fold main. rewrite Hmain.
  cbv zeta.
  repeat case_match; simpl;
    (split; [reflexivity|]); (split; [reflexivity|]); (split; [reflexivity|]);
    rewrite foldl_push_new_elem, RepoRegistryFacts.push_new_elem; auto.
Qed.

End WithWorld.

Lemma identity_depends_on_the_root_only_witness :
  canonicalId (resolveIdentity WorktreeWorld.example "/srv/main/src")
  = canonicalId (resolveIdentity WorktreeWorld.example "/srv/main")
  /\ "/srv/feature"
     ∈ detectedPaths (resolveIdentity WorktreeWorld.example "/srv/main/src").
Proof.
  destruct (identity_depends_on_the_root_only WorktreeWorld.example
              "/srv/main/src" "/srv/main" "/srv/main")
    as (Hid & _ & _ & _ & _ & Hpaths).
  - vm_compute. reflexivity.
  - vm_compute. reflexivity.
  - split; [exact Hid|].
    apply (Hpaths "/srv/feature"). right.
    apply list_elem_of_In. vm_compute. auto.
Defined.

Lemma filesystem_root_is_never_searched_witness :
  let w := ExampleWorld.world [("/.git", ExampleWorld.Directory)] [] in
  statSync w (path_join w "/" ".git") = Some StatDirectory
  /\ findGitPath w "/" = None.
Proof.
  intros w. split; [vm_compute; reflexivity|].
  apply (filesystem_root_is_never_searched w "/"); vm_compute; reflexivity.
Defined.

Lemma worktree_pointer_is_followed_witness :
  mainWorktreePath (resolveIdentity WorktreeWorld.example "/srv/feature")
  = Some "/srv/main"
  /\ canonicalId (resolveIdentity WorktreeWorld.example "/srv/feature")
     = canonicalId (resolveIdentity WorktreeWorld.example "/srv/main").
Proof.
  split; [|vm_compute; reflexivity].
  apply (worktree_pointer_is_followed WorktreeWorld.example "/srv/feature"
           "/srv/feature/.git"
           ("gitdir: /srv/main/.git/worktrees/feature" +:+ String "010" EmptyString)
           " " "/srv/main/.git/worktrees/feature");
    try (vm_compute; reflexivity); vm_compute; discriminate.
Defined.

End IdentityLaws.

Module HttpLaws.
Import JsString StringFacts.
Import Http AuthFacts RateLimiterFacts.
#[local] Open Scope Z_scope.

(** No part of [s.split(c)] contains [c]. *)
Lemma split_parts_without_separator (c : ascii) (s part : string) :
  part ∈ split c s -> every (Regex.notc c) part = true.
Proof.
  revert part. induction s as [|x s IH]; intros part; simpl.
  - by intros ->%list_elem_of_singleton.
  - destruct (Ascii.eqb x c) eqn:Hx.
    + intros [-> | H]%elem_of_cons; [done | by apply IH].
    + destruct (split c s) as [|h rest] eqn:E.
      * intros ->%list_elem_of_singleton. simpl. unfold Regex.notc at 1.
        by rewrite Hx.
      * intros [-> | H]%elem_of_cons.
        -- simpl. unfold Regex.notc at 1. rewrite Hx. simpl.
           apply IH. apply list_elem_of_here.
        -- apply IH. by apply list_elem_of_further.
Qed.

Lemma authenticate_spaced_token (a : AuthMiddleware) (req : Request)
    (before after : string) :
  token a = before +:+ " " +:+ after ->
  authenticated (authenticate a req) = false.
Proof.
  intros Htok. unfold authenticate.
  destruct (authorization req) as [h|]; [|done].
  destruct (truthy h); simpl; [|done].
  destruct (split " " h) as [|scheme [|tok [|]]] eqn:E; simpl; try done.
  case_bool_decide as Hs; simpl; [|done].
  case_bool_decide as Ht; simpl; [|done].
  assert (tok ∈ split " " h) as Hin.
  { rewrite E. apply list_elem_of_further, list_elem_of_here. }
  apply split_parts_without_separator in Hin.
  rewrite Ht, Htok, every_app in Hin.
  apply andb_prop in Hin as [_ Hin]. rewrite sapp_cons in Hin. simpl in Hin.
  done.
Qed.

(** A request that fails authentication gets the 401 and leaves the
    transport as it is. *)
Lemma handle_rejected (now : Z) (req : Request) (t : HttpTransport)
    (a : AuthMiddleware) (pathname_ : string) :
  authMiddleware t = Some a ->
  method req <> "OPTIONS" ->
  pathname req = Some pathname_ ->
  requiresAuth a pathname_ = true ->
  authenticated (authenticate a req) = false ->
  unauthorized (handle now req t).1 /\ (handle now req t).2 = t.
Proof.
  intros Ha Hm Hpath Hp Hauth. unfold handle.
  rewrite (bool_decide_eq_false_2 _ Hm), Hpath, Ha, Hp, Hauth. simpl.
  split; [|done]. by apply handleUnauthorized_challenge, authenticate_401.
Qed.

(** [check] always rewrites the entry of its client. *)
Lemma check_rewrites_entry (ip : string) (now : Z) (l : RateLimiter) :
  0 < windowMs l ->
  limits (check ip now l).2 !! ip <> limits l !! ip.
Proof.
  intros Hw. unfold check.
  destruct (limits l !! ip) as [entry|] eqn:E; simpl.
  - destruct (resetTime entry <=? now) eqn:Hexp; simpl.
    + rewrite lookup_insert_eq. intros [= H]. destruct entry as [c r].
      simpl in *. apply Z.leb_le in Hexp. injection H as _ H. lia.
    + destruct (gt_number _ _); simpl; rewrite lookup_insert_eq;
        intros [= H]; destruct entry as [c r]; simpl in *;
        injection H as H; lia.
  - by rewrite lookup_insert_eq.
Qed.

Lemma check_nan_allows (ip : string) (now : Z) (l : RateLimiter) :
  requestsPerMinute l = None -> allowed (check ip now l).1 = true.
Proof.
  intros Hn. unfold check. rewrite Hn. repeat case_match; done.
Qed.

(** [check] and an earlier [cleanup] commute. *)
Lemma check_cleanup (ip : string) (swept now : Z) (l : RateLimiter) :
  0 < windowMs l -> swept <= now ->
  check ip now (cleanup swept l)
  = ((check ip now l).1, cleanup swept (check ip now l).2).
Proof.
  intros Hw Hle. unfold check, cleanup. simpl.
  set (P := fun e : string * RateLimitEntry => swept < resetTime e.2).
  destruct (limits l !! ip) as [entry|] eqn:E.
  - destruct (decide (swept < resetTime entry)) as [Hlive | Hdead].
    + assert (filter P (limits l) !! ip = Some entry) as ->
        by (by apply map_lookup_filter_Some).
      destruct (resetTime entry <=? now) eqn:Hexp; simpl.
      * rewrite map_filter_insert_True; [done|]. unfold P. simpl. lia.
      * destruct (gt_number _ _); simpl;
          (rewrite map_filter_insert_True; [done | by unfold P]).
    + assert (filter P (limits l) !! ip = None) as ->.
      { apply map_lookup_filter_None. right. intros x Hx. simplify_eq. done. }
      assert ((resetTime entry <=? now) = true) as -> by (apply Z.leb_le; lia).
      simpl. rewrite map_filter_insert_True; [done|]. unfold P. simpl. lia.
  - assert (filter P (limits l) !! ip = None) as ->.
    { apply map_lookup_filter_None. by left. }
    simpl. rewrite map_filter_insert_True; [done|]. unfold P. simpl. lia.
Qed.

(** The transport after the timer has run [cleanup] at [swept]. *)
Lemma handle_cleanup (swept now : Z) (req : Request) (t : HttpTransport) :
  0 < windowMs (rateLimiter t) -> swept <= now ->
  handle now req (withLimiter t (cleanup swept (rateLimiter t)))
  = ((handle now req t).1,
     withLimiter (handle now req t).2
       (cleanup swept (rateLimiter (handle now req t).2))).
Proof.
  intros Hw Hle. unfold handle. cbn [corsOrigin authMiddleware rateLimiter withLimiter].
  destruct (bool_decide (method req = "OPTIONS")); [done|].
  destruct (pathname req) as [pathname_|]; [|done].
  match goal with
  | |- context [match ?x with Some _ => _ | None => _ end] =>
      destruct x as [[a authResult]|] eqn:Hauth
  end; [done|].
  unfold shouldLimit. cbn [limitExcludePaths cleanup].
  destruct (negb (bool_decide (pathname_ ∈ limitExcludePaths (rateLimiter t))));
    [|done].
  rewrite check_cleanup by done.
  destruct (check (getClientIp req) now (rateLimiter t)) as [result l'] eqn:Hcheck.
  cbn [fst snd].
  assert (addHeaders (cleanup swept l') result = addHeaders l' result) as Hh
    by reflexivity.
  assert (handleLimited (cleanup swept l') = handleLimited l') as Hl
    by reflexivity.
  rewrite Hh, Hl.
  destruct (negb (allowed result)); reflexivity.
Qed.

Section Started.
Context (corsOrigin_ authToken : option string) (rateLimit : option Z)
  (envLimit : option string).

Let t0 := newHttpTransport corsOrigin_ authToken rateLimit envLimit.

Lemma started_window (earlier : list (Z * Request)) :
  windowMs (rateLimiter (serve earlier t0).2) = 60000.
Proof. by rewrite (proj2 (serve_keeps_budget earlier t0)). Qed.

Lemma started_excludes (earlier : list (Z * Request)) (p : string) :
  p ∈ limitExcludePaths (rateLimiter (serve earlier t0).2) <-> p = "/health".
Proof.
  rewrite serve_keeps_excludes. simpl. set_solver.
Qed.

Lemma started_auth (earlier : list (Z * Request)) (a : AuthMiddleware)
    (p : string) :
  authMiddleware (serve earlier t0).2 = Some a ->
  requiresAuth a p = negb (bool_decide (p = "/health")).
Proof.
  rewrite serve_keeps_authMiddleware. unfold t0, newHttpTransport. simpl.
  destruct authToken as [tok|]; [|done]. destruct (truthy tok); [|done].
  intros [= <-]. unfold requiresAuth, newAuthMiddleware. simpl. f_equal.
  apply bool_decide_ext. set_solver.
Qed.

(** X11.  What a request does to the server.  The transport changes
    exactly when the request is counted: it is no preflight, its target
    parses, its path is not the health path, and it passes authentication.
    A request answered with 401 therefore uses up nothing of a budget, and
    the change made by a counted request is confined to the window of its
    own source address. *)
Theorem only_counted_requests_change_the_transport
    (earlier : list (Z * Request)) (now : Z) (req : Request) :
  let t := (serve earlier t0).2 in
  ((handle now req t).2 <> t <-> counted t (getClientIp req) req)
  /\ (unauthorized (handle now req t).1 -> (handle now req t).2 = t)
  /\ (forall other,
        other <> getClientIp req ->
        limits (rateLimiter (handle now req t).2) !! other
        = limits (rateLimiter t) !! other)
  /\ authMiddleware (handle now req t).2 = authMiddleware t
  /\ requestsPerMinute (rateLimiter (handle now req t).2)
     = requestsPerMinute (rateLimiter t).
Proof.
  intros t.
  assert (counted t (getClientIp req) req -> (handle now req t).2 <> t) as Hyes.
  { intros (Hm & _ & pathname_ & Hpath & Hhealth & Hpass).
    destruct (handle_counted now req t pathname_ Hm Hpath Hpass) as [E _].
    { subst t. by rewrite started_excludes. }
    rewrite E. intros Hsame.
    apply (check_rewrites_entry (getClientIp req) now (rateLimiter t)).
    { subst t. rewrite started_window. lia. }
    by rewrite <- Hsame at 2. }
  assert (counted t (getClientIp req) req \/ (handle now req t).2 = t) as Hcases.
  { unfold handle.
    case_bool_decide as Hm; [by right|].
    destruct (pathname req) as [pathname_|] eqn:Hpath; [|by right].
    destruct (authMiddleware t) as [a|] eqn:Ha.
    - rewrite (started_auth earlier a pathname_ Ha).
      case_bool_decide as Hhealth; simpl.
      + right. unfold shouldLimit.
        rewrite (bool_decide_eq_true_2 (pathname_ ∈ _)); [done|].
        subst t. by rewrite started_excludes.
      + destruct (authenticated (authenticate a req)) eqn:Hauth; simpl;
          [|by right].
        left. split; [done|]. split; [done|].
        exists pathname_. split; [done|]. split; [done|].
        unfold passesAuth. rewrite Ha. by right.
    - unfold shouldLimit. case_bool_decide as Hhealth; simpl; [by right|].
      left. split; [done|]. split; [done|].
      exists pathname_. split; [done|]. split.
      + intros ->. apply Hhealth. subst t. by rewrite started_excludes.
      + unfold passesAuth. by rewrite Ha. }
  split; [|split; [|split; [|split]]].
  - split; [|exact Hyes]. intros Hchanged.
    destruct Hcases as [H|H]; done.
  - intros (r & Hr & Hcode & _).
    destruct Hcases as [H|H]; [|done].
    exfalso. destruct H as (Hm & _ & pathname_ & Hpath & Hhealth & Hpass).
    destruct (handle_counted now req t pathname_ Hm Hpath Hpass)
      as (_ & Hallowed & Hlimited).
    { subst t. by rewrite started_excludes. }
    destruct (allowed (check (getClientIp req) now (rateLimiter t)).1).
    + destruct (Hallowed eq_refl) as (soFar & Ho & _). rewrite Ho in Hr.
      unfold route in Hr. repeat case_match; simplify_eq; simpl in Hcode; lia.
    + destruct (Hlimited eq_refl) as (r' & Ho & Hc & _). rewrite Ho in Hr.
      simplify_eq. lia.
  - intros other Hother. by apply handle_other.
  - apply handle_keeps_authMiddleware.
  - apply handle_keeps_budget.
Qed.

(** X12.  The timer that deletes the windows that are over never changes
    an answer: the requests that arrive after a [cleanup] get the outcomes
    they would have got without it. *)
Theorem cleanup_never_changes_an_answer (earlier : list (Z * Request))
    (swept : Z) (later : list (Z * Request)) :
  let t := (serve earlier t0).2 in
  Forall (fun e : Z * Request => swept <= e.1) later ->
  (serve later (withLimiter t (cleanup swept (rateLimiter t)))).1
  = (serve later t).1
  /\ (forall ip entry,
        limits (cleanup swept (rateLimiter t)) !! ip = Some entry
        <-> limits (rateLimiter t) !! ip = Some entry
            /\ swept < resetTime entry).
Proof.
  intros t Hlater. split.
  - assert (0 < windowMs (rateLimiter t)) as Hw
      by (subst t; rewrite started_window; lia).
    clearbody t. revert t Hw.
    induction later as [|[now req] later IH]; intros t Hw; [done|].
    apply Forall_cons in Hlater as [Hnow Hlater]. simpl in Hnow.
    cbn [serve]. rewrite handle_cleanup by done.
    pose proof (handle_keeps_budget now req t) as [_ Hw'].
    destruct (handle now req t) as [o t1]. cbn [fst snd] in *.
    specialize (IH Hlater t1). rewrite Hw' in IH. specialize (IH Hw).
    destruct (serve later (withLimiter t1 _)) as [os' t2'].
    destruct (serve later t1) as [os t2]. simpl in *. by rewrite IH.
  - intros ip entry. unfold cleanup. simpl.
    rewrite map_lookup_filter_Some. simpl. tauto.
Qed.

(** X13.  When the limit does not read as a number (an [MCP_RATE_LIMIT]
    that [parseInt] turns into [NaN], the empty string among them), no
    request is ever answered with 429. *)
Theorem unreadable_limit_disables_the_limiter (reqs : list (Z * Request)) :
  requestsPerMinute (rateLimiter t0) = None ->
  forall o r, o ∈ (serve reqs t0).1 -> o = Responds r -> statusCode r <> 429.
Proof.
  intros Hnan.
  assert (forall now req t,
            requestsPerMinute (rateLimiter t) = None ->
            forall r, (handle now req t).1 = Responds r -> statusCode r <> 429)
    as Hstep.
  { intros now req t Hn r. unfold handle.
    case_bool_decide as Hm; [by intros [= <-]|].
    destruct (pathname req) as [pathname_|]; [|done].
    destruct (authMiddleware t) as [a|].
    - destruct (requiresAuth a pathname_).
      + destruct (authenticated (authenticate a req)) eqn:Hauth; simpl.
        * destruct (shouldLimit _ _).
          -- pose proof (check_nan_allows (getClientIp req) now _ Hn) as Hal.
             destruct (check _ _ _) as [result l']. simpl in Hal. rewrite Hal.
             simpl. unfold route. repeat case_match; intros [= <-]; done.
          -- simpl. unfold route. repeat case_match; intros [= <-]; done.
        * intros [= <-]. unfold handleUnauthorized.
          rewrite (authenticate_401 a req Hauth). done.
      + destruct (shouldLimit _ _).
        * pose proof (check_nan_allows (getClientIp req) now _ Hn) as Hal.
          destruct (check _ _ _) as [result l']. simpl in Hal. rewrite Hal.
          simpl. unfold route. repeat case_match; intros [= <-]; done.
        * simpl. unfold route. repeat case_match; intros [= <-]; done.
    - destruct (shouldLimit _ _).
      + pose proof (check_nan_allows (getClientIp req) now _ Hn) as Hal.
        destruct (check _ _ _) as [result l']. simpl in Hal. rewrite Hal.
        simpl. unfold route. repeat case_match; intros [= <-]; done.
      + simpl. unfold route. repeat case_match; intros [= <-]; done. }
  clearbody t0. revert t0 Hnan.
  induction reqs as [|[now req] reqs IH]; intros t Hn o r Ho Hr.
  - by apply elem_of_nil in Ho.
  - cbn [serve] in Ho.
    pose proof (Hstep now req t Hn) as Hfirst.
    pose proof (handle_keeps_budget now req t) as [Hb _].
    destruct (handle now req t) as [o1 t1]. cbn [fst snd] in *.
    specialize (IH t1). rewrite Hb in IH. specialize (IH Hn o r).
    destruct (serve reqs t1) as [os t2]. simpl in *.
    apply elem_of_cons in Ho as [-> | Ho]; [by apply Hfirst | by apply IH].
Qed.



End Started.

(** X10.  A secret that contains a space passes the check at start-up, and
    the server then answers 401 to every request that needs the token,
    whatever its [Authorization] header: [authenticate] splits the header
    at every space and wants two parts. *)
Theorem spaced_token_locks_every_client (mode : TransportMode)
    (before after : string) (envLimit : option string) :
  mode <> Stdio ->
  trim (before +:+ " " +:+ after) <> EmptyString ->
  exists t,
    startHttp mode (Some (before +:+ " " +:+ after)) envLimit = Returns (Some t)
    /\ forall earlier now req pathname_,
         method req <> "OPTIONS" ->
         pathname req = Some pathname_ -> pathname_ <> "/health" ->
         unauthorized (handle now req (serve earlier t).2).1
         /\ (handle now req (serve earlier t).2).2 = (serve earlier t).2.
Proof.
  intros Hmode Htrim.
  destruct (startHttp_cases mode (Some (before +:+ " " +:+ after)) envLimit Hmode)
    as [[Hunset _] | (tok & [= <-] & _ & Hstart & Hauth)]; [done|].
  eexists. split; [exact Hstart|].
  intros earlier now req pathname_ Hm Hpath Hhealth.
  eapply handle_rejected; [| done | done | |].
  - rewrite serve_keeps_authMiddleware. exact Hauth.
  - unfold requiresAuth, newAuthMiddleware. simpl.
    rewrite bool_decide_eq_false_2; [done|]. set_solver.
  - by eapply authenticate_spaced_token.
Qed.

Lemma cleanup_never_changes_an_answer_witness :
  let ask :=
    {| method := "POST"; pathname := Some "/mcp";
       authorization := Some "Bearer tok"; forwardedFor := None;
       remoteAddress := Some "10.0.0.1" |} in
  let t := (serve [(0, ask)] (newHttpTransport None (Some "tok") None (Some "1"))).2 in
  limits (cleanup 60000 (rateLimiter t)) = ∅
  /\ (serve [(60000, ask); (60001, ask)]
        (withLimiter t (cleanup 60000 (rateLimiter t)))).1
     = (serve [(60000, ask); (60001, ask)] t).1.
Proof.
  intros ask t. split; [vm_compute; reflexivity|].
  apply (cleanup_never_changes_an_answer None (Some "tok") None (Some "1")
           [(0, ask)] 60000 [(60000, ask); (60001, ask)]).
  repeat constructor; simpl; lia.
Defined.

Lemma unreadable_limit_disables_the_limiter_witness :
  let ask :=
    {| method := "POST"; pathname := Some "/mcp";
       authorization := Some "Bearer tok"; forwardedFor := None;
       remoteAddress := Some "10.0.0.1" |} in
  let t := newHttpTransport None (Some "tok") None (Some EmptyString) in
  requestsPerMinute (rateLimiter t) = None
  /\ ~ exists o r,
         o ∈ (serve [(0, ask); (1, ask); (2, ask)] t).1
         /\ o = Responds r /\ statusCode r = 429.
Proof.
  intros ask t. split; [vm_compute; reflexivity|].
  intros (o & r & Ho & Hr & Hcode). revert Hcode.
  apply (unreadable_limit_disables_the_limiter None (Some "tok") None
           (Some EmptyString) [(0, ask); (1, ask); (2, ask)]) with (o := o);
    [vm_compute; reflexivity | exact Ho | exact Hr].
Defined.


Lemma spaced_token_locks_every_client_witness :
  exists t,
    startHttp HttpOnly (Some "correct horse") None = Returns (Some t)
    /\ unauthorized
         (handle 0 {| method := "POST"; pathname := Some "/mcp";
                      authorization := Some "Bearer correct horse";
                      forwardedFor := None; remoteAddress := None |} t).1.
Proof.
  destruct (spaced_token_locks_every_client HttpOnly "correct" "horse" None)
    as (t & Hstart & Hall).
  - done.
  - vm_compute. discriminate.
  - exists t. split; [exact Hstart|].
    apply (Hall [] 0 _ "/mcp"); done.
Defined.


End HttpLaws.

Module MigratorLaws.
Import JsString Node StringFacts.
Import CollectionMigrator.

Lemma length_sapp (a b : string) :
  String.length (a +:+ b) = String.length a + String.length b.
Proof.
  induction a as [|c a IH]; [done|]. rewrite sapp_cons. simpl. by rewrite IH.
Qed.

Lemma length_take (n : nat) (s : string) :
  n <= String.length s -> String.length (take n s) = n.
Proof.
  intros H. rewrite <- (sapp_nil_l s).
  by apply ExampleWorldFacts.take_length.
Qed.

Lemma find_elem {A} (pred : A -> bool) (l : list A) (x : A) :
  find pred l = Some x -> x ∈ l /\ pred x = true.
Proof.
  induction l as [|y l IH]; simpl; [done|].
  destruct (pred y) eqn:Hy.
  - intros [= <-]. split; [apply list_elem_of_here | done].
  - intros [H1 H2]%IH. split; [by apply list_elem_of_further | done].
Qed.

(** A mapping for another old name and another path is passed over by
    the three operations. *)
Lemma addMigrationMapping_skip (x : CollectionMigrationMapping)
    (l : list CollectionMigrationMapping)
    (oldName_ newName_ canonicalId_ path_ now : string) :
  oldName x <> oldName_ -> path x <> path_ ->
  mappings (addMigrationMapping {| mappings := x :: l |} oldName_ newName_
              canonicalId_ path_ now)
  = x :: mappings (addMigrationMapping {| mappings := l |} oldName_ newName_
                     canonicalId_ path_ now).
Proof.
  intros Ho Hp. unfold addMigrationMapping. simpl.
  rewrite (bool_decide_eq_false_2 _ Ho), (bool_decide_eq_false_2 _ Hp). simpl.
  destruct (findIndex _ l) as [i|]; reflexivity.
Qed.

Lemma markMigrationComplete_skip (x : CollectionMigrationMapping)
    (l : list CollectionMigrationMapping) (oldName_ now : string) :
  oldName x <> oldName_ ->
  mappings (markMigrationComplete {| mappings := x :: l |} oldName_ now)
  = x :: mappings (markMigrationComplete {| mappings := l |} oldName_ now).
Proof.
  intros Ho. unfold markMigrationComplete. simpl.
  rewrite (bool_decide_eq_false_2 _ Ho). simpl.
  destruct (findIndex _ l) as [i|]; reflexivity.
Qed.

Section WithWorld.
Context (w : World).

(** The life of one mapping on the list [l]: recorded at [t1], completed
    at [t2], recorded again at [t3]. *)
Lemma reopened_mapping (l : list CollectionMigrationMapping)
    (oldName_ newName_ canonicalId_ path_ t1 t2 t3 : string) :
  let st1 := addMigrationMapping {| mappings := l |} oldName_ newName_
               canonicalId_ path_ t1 in
  let st2 := markMigrationComplete st1 oldName_ t2 in
  let st3 := addMigrationMapping st2 oldName_ newName_ canonicalId_ path_ t3 in
  let reopened :=
    {| oldName := oldName_; newName := newName_; canonicalId := canonicalId_;
       path := path_; createdAt := t3; migrated := false;
       migratedAt := Some t2 |} in
  findMappingByLegacyName st2 oldName_
  = Some {| oldName := oldName_; newName := newName_;
            canonicalId := canonicalId_; path := path_; createdAt := t1;
            migrated := true; migratedAt := Some t2 |}
  /\ findMappingByLegacyName st3 oldName_ = Some reopened
  /\ find (fun m => bool_decide (path m = path_)) (mappings st3) = Some reopened
  /\ length (mappings st3) = length (mappings st1).
Proof.
  induction l as [|x l IH].
  - cbv zeta. unfold addMigrationMapping, markMigrationComplete,
      findMappingByLegacyName. simpl.
    rewrite !bool_decide_eq_true_2 by done. simpl.
    rewrite !bool_decide_eq_true_2 by done. simpl.
    rewrite !bool_decide_eq_true_2 by done. done.
  - destruct (decide (oldName x = oldName_)) as [Ho | Ho];
      [|destruct (decide (path x = path_)) as [Hp | Hp]].
    + cbv zeta. unfold addMigrationMapping, markMigrationComplete,
        findMappingByLegacyName. simpl.
      rewrite (bool_decide_eq_true_2 _ Ho). simpl.
      rewrite !bool_decide_eq_true_2 by done. simpl.
      rewrite !bool_decide_eq_true_2 by done. simpl.
      rewrite !bool_decide_eq_true_2 by done. done.
    + cbv zeta. unfold addMigrationMapping, markMigrationComplete,
        findMappingByLegacyName. simpl.
      rewrite (bool_decide_eq_false_2 _ Ho), (bool_decide_eq_true_2 _ Hp). simpl.
      rewrite !bool_decide_eq_true_2 by done. simpl.
      rewrite !bool_decide_eq_true_2 by done. simpl.
      rewrite !bool_decide_eq_true_2 by done. done.
    + cbv zeta in *. destruct IH as (IH2 & IH3 & IHp & IHlen).
      set (st1 := addMigrationMapping {| mappings := l |} oldName_ newName_
                    canonicalId_ path_ t1) in *.
      assert (addMigrationMapping {| mappings := x :: l |} oldName_ newName_
                canonicalId_ path_ t1 = {| mappings := x :: mappings st1 |})
        as ->.
      { pose proof (addMigrationMapping_skip x l oldName_ newName_ canonicalId_
                      path_ t1 Ho Hp) as E.
        destruct (addMigrationMapping {| mappings := x :: l |} _ _ _ _ _).
        simpl in E. by rewrite E. }
      set (st2 := markMigrationComplete st1 oldName_ t2) in *.
      assert (markMigrationComplete {| mappings := x :: mappings st1 |}
                oldName_ t2 = {| mappings := x :: mappings st2 |}) as ->.
      { pose proof (markMigrationComplete_skip x (mappings st1) oldName_ t2 Ho)
          as E.
        destruct (markMigrationComplete {| mappings := x :: mappings st1 |} _ _).
        simpl in E. rewrite E. subst st2. by destruct st1. }
      set (st3 := addMigrationMapping st2 oldName_ newName_ canonicalId_ path_
                    t3) in *.
      assert (addMigrationMapping {| mappings := x :: mappings st2 |} oldName_
                newName_ canonicalId_ path_ t3
              = {| mappings := x :: mappings st3 |}) as ->.
      { pose proof (addMigrationMapping_skip x (mappings st2) oldName_ newName_
                      canonicalId_ path_ t3 Ho Hp) as E.
        destruct (addMigrationMapping {| mappings := x :: mappings st2 |}
                    _ _ _ _ _).
        simpl in E. rewrite E. subst st3. by destruct st2. }
      unfold findMappingByLegacyName in *. simpl.
      rewrite (bool_decide_eq_false_2 _ Ho), (bool_decide_eq_false_2 _ Hp).
      rewrite IH2, IH3, IHp, IHlen. done.
Qed.

(** X15.  A legacy name and a canonical name are never the same string:
    they differ in length (27 and 31 characters for hybrid collections,
    20 and 24 otherwise).  So the collection that [resolveCollectionName]
    looks for first is never a canonical one, and the flag [isLegacy] of
    its answer can be read off the name. *)
Theorem collection_names_never_collide (codebasePath canonicalId_ : string)
    (isHybrid isHybrid' : bool) (now : string) (m : Migrator) :
  md5_is_hex32 w ->
  let res := (resolveCollectionName w codebasePath isHybrid now m).1 in
  generateLegacyCollectionName w codebasePath isHybrid
  <> generateCanonicalCollectionName w canonicalId_ isHybrid'
  /\ String.length (generateLegacyCollectionName w codebasePath isHybrid)
     = (if isHybrid then 27 else 20)
  /\ String.length (generateCanonicalCollectionName w canonicalId_ isHybrid)
     = (if isHybrid then 31 else 24)
  /\ legacyName res <> canonicalName res
  /\ (isLegacy res = true <-> collectionName res = legacyName res)
  /\ (isLegacy res = false <-> collectionName res = canonicalName res).
Proof.
  intros Hmd5 res.
  assert (forall p h,
            String.length (generateLegacyCollectionName w p h)
            = if h then 27 else 20) as Hlegacy.
  { intros p h. unfold generateLegacyCollectionName. cbv zeta.
    rewrite !length_sapp, length_take by (rewrite Hmd5; lia).
    by destruct h. }
  assert (forall c h,
            String.length (generateCanonicalCollectionName w c h)
            = if h then 31 else 24) as Hcanonical.
  { intros c h. unfold generateCanonicalCollectionName. cbv zeta.
    rewrite !length_sapp, length_take by (rewrite Hmd5; lia).
    by destruct h. }
  assert (forall p h c h',
            generateLegacyCollectionName w p h
            <> generateCanonicalCollectionName w c h') as Hdiff.
  { intros p h c h' E. apply (f_equal String.length) in E.
    rewrite Hlegacy, Hcanonical in E. destruct h, h'; lia. }
  split; [apply Hdiff|]. split; [apply Hlegacy|]. split; [apply Hcanonical|].
  subst res. unfold resolveCollectionName, generateCollectionNames.
  set (legacy := generateLegacyCollectionName w codebasePath isHybrid).
  set (canonical := generateCanonicalCollectionName w _ isHybrid).
  assert (legacy <> canonical) as Hne by apply Hdiff.
  repeat case_match; simpl; (split; [done|]); split; split; congruence.
Qed.

(** X16.  A migration that was recorded as complete is reopened by the
    next [resolveCollectionName] for the path while the legacy collection
    still exists: the mapping is back to [migrated: false] with a new
    [createdAt], it keeps the [migratedAt] of the completion, and it is
    again among the collections to migrate.  No mapping is added for
    that. *)
Theorem resolve_reopens_a_completed_migration (codebasePath : string)
    (isHybrid : bool) (t1 t2 t3 : string) (m : Migrator) :
  let legacy := generateLegacyCollectionName w codebasePath isHybrid in
  let canonicalId_ :=
    RepoIdentity.canonicalId (RepoIdentity.resolveIdentity w codebasePath) in
  let canonical := generateCanonicalCollectionName w canonicalId_ isHybrid in
  let m1 := (resolveCollectionName w codebasePath isHybrid t1 m).2 in
  let m2 := recordMigration legacy t2 m1 in
  let m3 := (resolveCollectionName w codebasePath isHybrid t3 m2).2 in
  let reopened :=
    {| oldName := legacy; newName := canonical; canonicalId := canonicalId_;
       path := path_resolve w [codebasePath]; createdAt := t3;
       migrated := false; migratedAt := Some t2 |} in
  legacy ∈ existingCollections m ->
  findMappingByLegacyName (state m2) legacy
  = Some {| oldName := legacy; newName := canonical;
            canonicalId := canonicalId_;
            path := path_resolve w [codebasePath]; createdAt := t1;
            migrated := true; migratedAt := Some t2 |}
  /\ findMappingByLegacyName (state m3) legacy = Some reopened
  /\ findMappingByPath w (state m3) codebasePath = Some reopened
  /\ reopened ∈ getCollectionsToMigrate m3
  /\ length (mappings (state m3)) = length (mappings (state m1)).
Proof.
  intros legacy canonicalId_ canonical m1 m2 m3 reopened Hin.
  subst m1 m2 m3. unfold resolveCollectionName, generateCollectionNames.
  fold legacy. fold canonicalId_. fold canonical.
  unfold hasCollection. rewrite (bool_decide_eq_true_2 _ Hin).
  cbn [fst snd recordMigration state existingCollections].
  rewrite (bool_decide_eq_true_2 _ Hin).
  cbn [fst snd recordMigration state existingCollections].
  destruct (state m) as [l].
  destruct (reopened_mapping l legacy canonical canonicalId_
              (path_resolve w [codebasePath]) t1 t2 t3)
    as (H2 & H3 & Hp & Hlen).
  split; [exact H2|]. split; [exact H3|]. split; [exact Hp|].
  split; [|exact Hlen].
  unfold getCollectionsToMigrate, getUnmigratedMappings. simpl.
  apply list_elem_of_filter. split; [done|].
  by apply find_elem in Hp as [Hp _].
Qed.

End WithWorld.

Lemma collection_names_never_collide_witness :
  generateLegacyCollectionName ExampleWorld.example "/srv/clone" true
  <> generateCanonicalCollectionName ExampleWorld.example
       (RepoIdentity.canonicalId
          (RepoIdentity.resolveIdentity ExampleWorld.example "/srv/clone"))
       true.
Proof.
  apply (collection_names_never_collide ExampleWorld.example "/srv/clone" _
           true true EmptyString
           {| state := {| mappings := [] |}; existingCollections := ∅ |}).
  apply ExampleWorldFacts.world_md5.
Defined.

Lemma resolve_reopens_a_completed_migration_witness :
  let w := ExampleWorld.example in
  let m := setExistingCollections ["hybrid_code_chunks_/tmp/p01"]
             {| state := {| mappings := [] |}; existingCollections := ∅ |} in
  let m1 := (resolveCollectionName w "/tmp/p" true "2026-01-01" m).2 in
  let m2 := recordMigration "hybrid_code_chunks_/tmp/p01" "2026-01-02" m1 in
  let m3 := (resolveCollectionName w "/tmp/p" true "2026-01-03" m2).2 in
  getCollectionsToMigrate m2 = []
  /\ {| oldName := "hybrid_code_chunks_/tmp/p01";
        newName := "hybrid_code_chunks_/tmp/p012345";
        canonicalId := "/tmp/p0123456789abcdef0123456789";
        path := "/tmp/p"; createdAt := "2026-01-03"; migrated := false;
        migratedAt := Some "2026-01-02" |}
     ∈ getCollectionsToMigrate m3.
Proof.
  intros w m m1 m2 m3. split; [vm_compute; reflexivity|].
  destruct (resolve_reopens_a_completed_migration w "/tmp/p" true
              "2026-01-01" "2026-01-02" "2026-01-03" m)
    as (_ & _ & _ & Hin & _).
  - vm_compute. set_solver.
  - exact Hin.
Defined.

End MigratorLaws.

Module SnapshotLaws.
Import JsString Node.
Import Snapshot.

Lemma coherent_new : coherent newManager.
Proof.
  split; [apply NoDup_nil_2|]. intros p. unfold getCodebaseStatus. simpl.
  rewrite !lookup_empty. simpl. rewrite elem_of_nil.
  repeat split; try done; by intros [? ?].
Qed.

(** Rewriting the lookups of a path after a setter has run. *)
Ltac at_path p q :=
  destruct (decide (p = q)) as [-> | ?];
  [ rewrite ?lookup_insert_eq, ?lookup_delete_eq
  | rewrite ?lookup_insert_ne, ?lookup_delete_ne by done ].

Lemma setCodebaseIndexing_coherent now q progress m :
  coherent m -> coherent (setCodebaseIndexing now q progress m).
Proof.
  intros [Hnd H]. split; [by apply NoDup_filter|].
  intros p. specialize (H p). unfold getCodebaseStatus in *. simpl.
  rewrite list_elem_of_filter.
  at_path p q; simpl; unfold is_Some; naive_solver.
Qed.

Lemma setCodebaseIndexed_coherent now q files chunks st m :
  coherent m -> coherent (setCodebaseIndexed now q files chunks st m).
Proof.
  intros [Hnd H]. split; [by apply RegistryLaws.push_new_NoDup|].
  intros p. specialize (H p). unfold getCodebaseStatus in *. simpl.
  rewrite RepoRegistryFacts.push_new_elem.
  at_path p q; simpl; unfold is_Some; naive_solver.
Qed.

Lemma setCodebaseIndexFailed_coherent now q e pct m :
  coherent m -> coherent (setCodebaseIndexFailed now q e pct m).
Proof.
  intros [Hnd H]. split; [by apply NoDup_filter|].
  intros p. specialize (H p). unfold getCodebaseStatus in *. simpl.
  rewrite list_elem_of_filter.
  at_path p q; simpl; unfold is_Some; naive_solver.
Qed.

Lemma removeCodebaseCompletely_coherent q m :
  coherent m -> coherent (removeCodebaseCompletely q m).
Proof.
  intros [Hnd H]. split; [by apply NoDup_filter|].
  intros p. specialize (H p). unfold getCodebaseStatus in *. simpl.
  rewrite list_elem_of_filter.
  at_path p q; simpl; unfold is_Some; naive_solver.
Qed.

(** X17.  The methods that are not deprecated ([setCodebaseIndexing],
    [setCodebaseIndexed], [setCodebaseIndexFailed],
    [removeCodebaseCompletely]) keep the four path-keyed fields telling one
    story, through any run of calls: a path is in the indexed list, has a
    file count, or has a progress, exactly when its status says so, and
    the indexed list has no duplicates. *)
Theorem current_setters_keep_the_views_coherent
    (cs : list (string * PathCall)) (m : SnapshotManager) :
  coherent m ->
  Forall (fun c : string * PathCall => deprecated c.2 = false) cs ->
  coherent (calls cs m).
Proof.
  revert m. induction cs as [|[now c] cs IH]; intros m Hm Hcs; [done|].
  apply Forall_cons in Hcs as [Hc Hcs]. simpl in Hc.
  change (calls ((now, c) :: cs) m) with (calls cs (call now c m)).
  apply IH; [|done].
  destruct c; simpl in *; try discriminate.
  - by apply setCodebaseIndexing_coherent.
  - by apply setCodebaseIndexed_coherent.
  - by apply setCodebaseIndexFailed_coherent.
  - by apply removeCodebaseCompletely_coherent.
Qed.

(** The deprecated [addIndexingCodebase] does not: it leaves an indexed
    path in the indexed list. *)
Remark addIndexingCodebase_is_not_coherent :
  ~ coherent (calls [("t1", SetCodebaseIndexed "/p" 1%Z 1%Z Completed);
                     ("t2", AddIndexingCodebase "/p" 0%Z)] newManager).
Proof.
  intros [_ H]. destruct (H "/p") as [[H1 _] _].
  unfold getCodebaseStatus in H1. vm_compute in H1.
  assert ("/p" ∈ ["/p"]) as Hin by apply list_elem_of_here.
  specialize (H1 Hin). discriminate.
Qed.

Lemma call_repositories now c m :
  repositories (call now c m) = repositories m
  /\ pathToCanonicalId (call now c m) = pathToCanonicalId m.
Proof.
  destruct c; simpl; try done.
  unfold updateIndexingProgress. by destruct (indexingCodebases m !! _).
Qed.

Lemma calls_repositories cs m :
  repositories (calls cs m) = repositories m
  /\ pathToCanonicalId (calls cs m) = pathToCanonicalId m.
Proof.
  revert m. induction cs as [|[now c] cs IH]; intros m; [done|].
  change (calls ((now, c) :: cs) m) with (calls cs (call now c m)).
  destruct (IH (call now c m)) as [-> ->]. apply call_repositories.
Qed.

Section WithWorld.
Context (w : World).

(** X18.  What the path-keyed methods record never reaches the snapshot
    file: [saveCodebaseSnapshot] writes the repository records only, and
    none of these methods touches them.  After any run of such calls on a
    new manager the file that is saved has no repository, the indexed
    codebases read from it are none, and a manager that loads it knows
    nothing. *)
Theorem path_setters_never_reach_the_file (cs : list (string * PathCall))
    (now now' : string) (m : SnapshotManager) (h : Host) :
  saveCodebaseSnapshot now (calls cs m) h = saveCodebaseSnapshot now m h
  /\ repositories (calls cs m) = repositories m
  /\ (writeFails h = false ->
      let saved := saveCodebaseSnapshot now (calls cs newManager) h in
      snapshotFile saved
      = Some (JsonV3 {| v3Repositories := []; v3LastUpdated := now |})
      /\ getIndexedCodebases (calls cs newManager) saved = []
      /\ (loadCodebaseSnapshot w now' (calls cs newManager) saved).1
         = newManager).
Proof.
  destruct (calls_repositories cs m) as [Hrepos _].
  split; [|split; [done|]].
  - unfold saveCodebaseSnapshot. by rewrite Hrepos.
  - intros Hw. cbv zeta.
    destruct (calls_repositories cs newManager) as [Hnew _].
    unfold saveCodebaseSnapshot. rewrite Hw, Hnew. simpl.
    split; [done|]. split; [done|].
    unfold loadCodebaseSnapshot. simpl. reflexivity.
Qed.






End WithWorld.

Lemma current_setters_keep_the_views_coherent_witness :
  coherent (calls [("t1", SetCodebaseIndexing "/srv/clone" 0%Z);
                   ("t2", SetCodebaseIndexed "/srv/clone" 12%Z 340%Z Completed);
                   ("t3", SetCodebaseIndexFailed "/tmp/p" "disk full" (Some 40%Z));
                   ("t4", RemoveCodebaseCompletely "/tmp/p")] newManager).
Proof.
  apply current_setters_keep_the_views_coherent.
  - apply coherent_new.
  - repeat constructor.
Defined.


End SnapshotLaws.

Module UrlLaws.
Import JsString Regex Node StringFacts RegexFacts.
Import GitUtils RepoIdentity.

Lemma trimEnd_idem (s : string) : trimEnd (trimEnd s) = trimEnd s.
Proof.
  induction s as [|c s IH]; [done|]. simpl.
  destruct (trimEnd s) as [|d t] eqn:E.
  - destruct (is_ws c) eqn:Hc; [done|]. simpl. by rewrite Hc.
  - simpl in *. rewrite IH. reflexivity.
Qed.

Lemma trimStart_fixed (c : ascii) (s : string) :
  is_ws c = false -> trimStart (String c s) = String c s.
Proof. intros Hc. simpl. by rewrite Hc. Qed.

Lemma trimEnd_head (c : ascii) (s : string) :
  is_ws c = false -> exists t, trimEnd (String c s) = String c t.
Proof.
  intros Hc. simpl. destruct (trimEnd s); rewrite ?Hc; eauto.
Qed.

Lemma trimStart_cases (s : string) :
  trimStart s = EmptyString
  \/ exists c t, trimStart s = String c t /\ is_ws c = false.
Proof.
  induction s as [|c s IH]; [by left|]. simpl.
  destruct (is_ws c) eqn:Hc; [exact IH|]. right. eauto.
Qed.

Lemma trim_idem (s : string) : trim (trim s) = trim s.
Proof.
  unfold trim. destruct (trimStart_cases s) as [-> | (c & t & -> & Hc)]; [done|].
  destruct (trimEnd_head c t Hc) as [t' E]. rewrite E.
  rewrite (trimStart_fixed c t' Hc), <- E. apply trimEnd_idem.
Qed.

(** A literal matches a prefix only. *)
Lemma exec_lit_inv {A} (l s : string) caps
    (k : string -> string -> list string -> option A) x :
  exec (lit l) s caps k = Some x ->
  exists rest, s = l +:+ rest /\ k l rest caps = Some x.
Proof.
  revert s k. induction l as [|c l IH]; intros s k; simpl.
  - intros H. exists s. by rewrite sapp_nil_l.
  - destruct s as [|c' s]; [done|].
    destruct (Ascii.eqb_spec c' c) as [-> | Hc]; [|done].
    intros (rest & -> & Hk)%IH. exists rest. by rewrite sapp_cons.
Qed.

Lemma startsWith_sapp (p q s : string) :
  startsWith (p +:+ q) (p +:+ q +:+ s) = true.
Proof. rewrite <- sapp_assoc. apply startsWith_app. Qed.

(** The prefixes with which a remote URL can begin. *)
Lemma match_sshRe_prefix (s : string) (m : list string) :
  match_at_start sshRe s = Some m -> startsWith "git@" s = true.
Proof.
  unfold match_at_start, sshRe. rewrite exec_seq.
  intros (rest & -> & _)%exec_lit_inv. apply startsWith_app.
Qed.

Lemma exec_alt_inv {A} (r1 r2 : regex) (s : string) caps
    (k : string -> string -> list string -> option A) x :
  exec (Alt r1 r2) s caps k = Some x ->
  exec r1 s caps k = Some x \/ exec r2 s caps k = Some x.
Proof. cbn [exec]. destruct (exec r1 s caps k); [by left | by right]. Qed.

Lemma exec_opt_inv {A} (r : regex) (s : string) caps
    (k : string -> string -> list string -> option A) x :
  exec (Opt r) s caps k = Some x ->
  exec r s caps k = Some x \/ k EmptyString s caps = Some x.
Proof. cbn [exec]. destruct (exec r s caps k); [by left | by right]. Qed.

Lemma exec_chr_inv {A} (c : ascii) (s : string) caps
    (k : string -> string -> list string -> option A) x :
  exec (Chr c) s caps k = Some x ->
  exists rest, s = String c rest /\ k (String c EmptyString) rest caps = Some x.
Proof.
  cbn [exec]. destruct s as [|c' s]; [done|].
  destruct (Ascii.eqb_spec c' c) as [-> | Hc]; [|done]. eauto.
Qed.

Lemma match_urlRe_prefix (s : string) (m : list string) :
  match_at_start urlRe s = Some m ->
  Exists (fun prefix => startsWith prefix s = true)
    ["ssh://"; "http://"; "https://"; "git://"].
Proof.
  unfold match_at_start, urlRe. rewrite exec_seq.
  intros [Hssh | [Hhttp | Hgit]%exec_alt_inv]%exec_alt_inv.
  - apply exec_lit_inv in Hssh as (rest & -> & Hk).
    rewrite exec_seq in Hk. apply exec_lit_inv in Hk as (rest' & -> & _).
    apply Exists_cons_hd. apply (startsWith_sapp "ssh" "://").
  - rewrite exec_seq in Hhttp.
    apply exec_lit_inv in Hhttp as (rest & -> & [Hs | Hk]%exec_opt_inv).
    + apply exec_chr_inv in Hs as (rest' & -> & Hs). cbv beta in Hs.
      rewrite exec_seq in Hs. apply exec_lit_inv in Hs as (rest'' & -> & _).
      apply Exists_cons_tl, Exists_cons_tl, Exists_cons_hd.
      apply (startsWith_sapp "https" "://").
    + rewrite exec_seq in Hk. apply exec_lit_inv in Hk as (rest' & -> & _).
      apply Exists_cons_tl, Exists_cons_hd.
      apply (startsWith_sapp "http" "://").
  - apply exec_lit_inv in Hgit as (rest & -> & Hk).
    rewrite exec_seq in Hk. apply exec_lit_inv in Hk as (rest' & -> & _).
    apply Exists_cons_tl, Exists_cons_tl, Exists_cons_tl, Exists_cons_hd.
    apply (startsWith_sapp "git" "://").
Qed.

(** X21.  [normalizeGitUrl] looks at the URL without the white space
    around it, answers a non-empty string or nothing, and answers only
    for a URL that begins with [git@] or with one of the schemes
    [ssh://], [http://], [https://], [git://]: not for [file://] URLs,
    not for paths, not for [user@host:path] with another user. *)
Theorem normalizeGitUrl_accepts_five_prefixes (url normalized : string) :
  normalizeGitUrl url = Some normalized ->
  Exists (fun prefix => startsWith prefix (trim url) = true)
    ["git@"; "ssh://"; "http://"; "https://"; "git://"]
  /\ normalized <> EmptyString
  /\ normalizeGitUrl (trim url) = Some normalized
  /\ (forall blanks, every space blanks = true ->
        normalizeGitUrl (url +:+ blanks) = Some normalized).
Proof.
  intros H.
  assert (forall u, normalizeGitUrl (trim u) = normalizeGitUrl u) as Htrim.
  { intros u. unfold normalizeGitUrl. rewrite trim_idem.
    destruct u as [|c u]; [done|].
    destruct (trim (String c u)) as [|d t] eqn:E; [|done].
    reflexivity. }
  split; [|split; [|split]].
  - unfold normalizeGitUrl in H. destruct (negb (truthy url)); [done|].
    destruct (match_at_start sshRe (trim url)) as [m|] eqn:Hssh.
    + apply Exists_cons_hd. by eapply match_sshRe_prefix.
    + destruct (match_at_start urlRe (trim url)) as [m|] eqn:Hurl.
      * apply Exists_cons_tl. by eapply match_urlRe_prefix.
      * by destruct (startsWith "file://" (trim url)).
  - apply truthy_nonempty. by eapply RepoIdentityFacts.normalizeGitUrl_truthy.
  - by rewrite Htrim.
  - intros blanks Hb. rewrite <- Htrim, <- H, <- (Htrim url). f_equal.
    unfold trim.
    assert (forall a, trimEnd (a +:+ blanks) = trimEnd a) as Hend.
    { intros a. induction a as [|c a IH].
      - rewrite sapp_nil_l. clear -Hb.
        induction blanks as [|c b IH]; [done|]. simpl in *.
        apply andb_prop in Hb as [Hc Hb]. rewrite (IH Hb).
        unfold space in Hc. by rewrite Hc.
      - rewrite sapp_cons. simpl. by rewrite IH. }
    assert (forall a, trimEnd (trimStart (a +:+ blanks)) = trimEnd (trimStart a))
      as Hboth.
    { intros a. induction a as [|c a IH].
      - rewrite sapp_nil_l. simpl.
        assert (trimStart blanks = EmptyString) as ->; [|done].
        clear -Hb. induction blanks as [|c b IH]; [done|]. simpl in *.
        apply andb_prop in Hb as [Hc Hb]. unfold space in Hc. rewrite Hc.
        by apply IH.
      - rewrite sapp_cons. simpl. destruct (is_ws c); [exact IH|].
        rewrite <- sapp_cons. apply Hend. }
    apply Hboth.
Qed.

Section WithWorld.
Context (w : World).

(** X22.  [resolveIdentityFromUrl] on the origin that git reports for a
    checkout answers what [resolveIdentity] answers for the checkout: the
    same canonical ID and the same normalized URL when the identity comes
    from the remote, and nothing when it does not. *)
Theorem resolveIdentityFromUrl_agrees_with_the_checkout
    (targetPath root origin : string) :
  repoRoot (resolveIdentity w targetPath) = Some root ->
  execSync w "git config --get remote.origin.url" root = Some origin ->
  let id := resolveIdentity w targetPath in
  resolveIdentityFromUrl w origin
  = match remoteUrl id with
    | Some url => Some (canonicalId id, url)
    | None => None
    end
  /\ (identitySource id = RemoteUrl <-> is_Some (resolveIdentityFromUrl w origin)).
Proof.
  intros Hroot Horigin.
  assert (normalizeGitUrl (trim origin) = normalizeGitUrl origin) as Htrim.
  { unfold normalizeGitUrl. rewrite trim_idem.
    destruct origin as [|c u]; [done|].
    destruct (trim (String c u)) as [|d t] eqn:E; [|done].
    reflexivity. }
  assert (and_then_truthy (getRemoteOriginUrl w root) normalizeGitUrl
          = normalizeGitUrl origin) as Hurl.
  { unfold getRemoteOriginUrl, execGitCommand. rewrite Horigin. simpl.
    rewrite Htrim. destruct (truthy (trim origin)) eqn:E; [done|].
    rewrite <- Htrim. destruct (trim origin); [done | discriminate]. }
  revert Hroot. unfold resolveIdentityFromUrl, resolveIdentity,
    resolveIdentity_with. cbv zeta.
  destruct (GitUtils.isGitRepo (detectGitRepo w (path_resolve w [targetPath])));
    [|done].
  destruct (GitUtils.repoRoot _) as [root'|]; [|done].
  destruct (truthy root'); [|done].
  destruct (and_then_truthy (and_then_truthy (getRemoteOriginUrl w root')
                               normalizeGitUrl) Some) as [url|] eqn:E;
    [|destruct (and_then_truthy (getInitialCommitSha w root') Some)];
    simpl; intros [= ->]; rewrite Hurl in E; rewrite E;
    (split; [done|]); split; (done || by intros [? ?]).
Qed.

End WithWorld.

Lemma normalizeGitUrl_accepts_five_prefixes_witness :
  normalizeGitUrl ("https://github.com/x/y.git" +:+ String "010" EmptyString)
  = Some "github.com/x/y"
  /\ normalizeGitUrl "file:///srv/x/y.git" = None
  /\ normalizeGitUrl "deploy@github.com:x/y.git" = None.
Proof.
  split; [|split; vm_compute; reflexivity].
  apply (normalizeGitUrl_accepts_five_prefixes "https://github.com/x/y.git"
           "github.com/x/y").
  - vm_compute. reflexivity.
  - vm_compute. reflexivity.
Defined.

Lemma resolveIdentityFromUrl_agrees_with_the_checkout_witness :
  resolveIdentityFromUrl ExampleWorld.example
    ("git@github.com:x/y.git" +:+ String "010" EmptyString)
  = Some (canonicalId (resolveIdentity ExampleWorld.example "/srv/clone"),
          "github.com/x/y").
Proof.
  apply (resolveIdentityFromUrl_agrees_with_the_checkout ExampleWorld.example
           "/srv/clone" "/srv/clone"
           ("git@github.com:x/y.git" +:+ String "010" EmptyString));
    vm_compute; reflexivity.
Defined.

End UrlLaws.

